(** * BIS-LAB: Particle Swarm Optimisation (LAB-2/pso.py) and
      Ant Colony Optimisation (LAB-3/aco.py)

    A shallow embedding of the two optimisers and the properties that
    hold of them.

    Numbers.  The programs compute with binary64 floats.  Finite floats
    are idealised as exact rationals ([Q]): rounding, overflow and signed
    zeros are not modelled.  numpy's non-finite results (a division by
    zero yields an infinity or a NaN and a warning, never an exception)
    are kept, in the type [f64] used by the ant colony.

    Where the machine departs from exact arithmetic in a way a property
    depends on, the module [Machine] has the computation as the machine
    performs it: the width of the bounds that overflows in
    [random.uniform], and the int64 difference of two cities that wraps
    around.  Python's [x ** 2] raises OverflowError where the square
    overflows; the embedding has no such path, so what is proved of the
    swarm is proved of the calls that return.

    Randomness.  The global generators are an oracle: the k-th random call
    of a run reads entry k of a tape, and the position on the tape is the
    state threaded through the code. *)

From Stdlib Require Import QArith Qabs Qminmax Lqa ZArith Lia.
From stdpp Require Import base list.

(** ** Part I.  The embedding *)

(** *** The Python runtime: exceptions, results, the random tape *)

Module Py.

(** Why a [ValueError] was raised by a library call the code makes. *)
Inductive value_error : Type :=
| EmptyRange                    (* random.randint(a, b) with b < a *)
| EmptyPopulation               (* np.random.choice on an empty range *)
| ProbabilitiesContainNaN       (* np.random.choice *)
| ProbabilitiesNotNonNegative   (* np.random.choice *)
| ProbabilitiesDoNotSumToOne    (* np.random.choice *)
| OperandsNotBroadcast.         (* array arithmetic on unequal shapes *)

Inductive exn : Type :=
| IndexError
| ZeroDivisionError
| ValueError (why : value_error).

(** The outcome of running a piece of code: a value, an uncaught
    exception, or a loop that was not given enough fuel. *)
Inductive result (A : Type) : Type :=
| Ok (a : A)
| Raise (e : exn)
| OutOfFuel.
Arguments Ok {A} a.
Arguments Raise {A} e.
Arguments OutOfFuel {A}.

(** Code that draws random numbers: the state is the tape position. *)
Definition M (A : Type) : Type := nat -> result (A * nat).

Definition ret {A} (a : A) : M A := fun k => Ok (a, k).

Definition bind {A B} (m : M A) (f : A -> M B) : M B :=
  fun k => match m k with
           | Ok (a, k') => f a k'
           | Raise e => Raise e
           | OutOfFuel => OutOfFuel
           end.

Definition raise {A} (e : exn) : M A := fun _ => Raise e.

(** Code that contains no [while] loop never asks for fuel. *)
Definition fuel_free {A} (m : M A) : Prop := forall k, m k <> OutOfFuel.

(** Code that draws nothing: its outcome does not depend on the tape
    position, and it leaves the position where it was. *)
Definition tape_free {A} (m : M A) : Prop :=
  forall k, match m k with
            | Ok (a, k') => k' = k /\ forall k2, m k2 = Ok (a, k2)
            | Raise e => forall k2, m k2 = Raise e
            | OutOfFuel => forall k2, m k2 = OutOfFuel
            end.

(** [l[i]] for [0 <= i]: an index past the end raises. *)
Definition getitem {A} (l : list A) (i : nat) : M A :=
  match l !! i with
  | Some x => ret x
  | None => raise IndexError
  end.

(** [l[i] = x] for [0 <= i]: an index past the end raises. *)
Definition setitem {A} (l : list A) (i : nat) (x : A) : M (list A) :=
  if decide (i < length l)%nat then ret (<[i := x]> l) else raise IndexError.

(** [[body for _ in range(n)]] *)
Fixpoint comprehension {A} (n : nat) (body : M A) : M (list A) :=
  match n with
  | O => ret []
  | S n' => bind body (fun x => bind (comprehension n' body) (fun xs => ret (x :: xs)))
  end.

(** [for x in xs: acc = body(acc, x)] *)
Fixpoint for_each {A S} (xs : list A) (body : S -> A -> M S) (acc : S) : M S :=
  match xs with
  | [] => ret acc
  | x :: xs' => bind (body acc x) (for_each xs' body)
  end.

(** [for _ in range(n): acc = body(acc)] *)
Fixpoint repeat_n {S} (n : nat) (body : S -> M S) (acc : S) : M S :=
  match n with
  | O => ret acc
  | S n' => bind (body acc) (repeat_n n' body)
  end.

(** Python's two-argument [min] and [max]: the first argument is kept
    unless the second is strictly better. *)
Definition Qltb (x y : Q) : bool := negb (Qle_bool y x).
Definition py_min (a b : Q) : Q := if Qltb b a then b else a.
Definition py_max (a b : Q) : Q := if Qltb a b then b else a.

(** What [random.random()] and numpy's [random_sample] promise of
    their results. *)
Definition unit_draws (tape : nat -> Q) : Prop := forall k, (0 <= tape k < 1)%Q.

Section Random.
(** The oracle: unit draws in [0, 1) and raw integer draws. *)
Variable unit_tape : nat -> Q.
Variable raw_tape : nat -> nat.

(** [random.random()] *)
Definition random_random : M Q := fun k => Ok (unit_tape k, S k).

(** [random.uniform(a, b)], which CPython computes as
    [a + (b - a) * random()]. *)
Definition random_uniform (a b : Q) : M Q :=
  bind random_random (fun u => ret (a + (b - a) * u)%Q).

(** [random.randint(a, b)]: some integer of [a..b], or a ValueError
    when the range is empty. *)
Definition random_randint (a b : Z) : M Z :=
  fun k => if (b <? a)%Z then Raise (ValueError EmptyRange)
           else Ok ((a + Z.of_nat (raw_tape k) mod (b - a + 1))%Z, S k).
End Random.

End Py.

Notation "x <- m ;; k" := (Py.bind m (fun x => k))
  (at level 100, m at next level, right associativity).

(** *** LAB-2/pso.py *)

Module Pso.
Import Py.
Local Open Scope Q_scope.

(** [sum(x_i ** 2 for x_i in x)]: the sum starts at 0 and adds the
    squares from left to right. *)
Definition objective_function (x : list Q) : Q :=
  fold_left (fun acc x_i => acc + x_i ^ 2) x 0.

Record Particle : Type := mkParticle {
  position : list Q;
  velocity : list Q;
  pBest : list Q;
  pBest_fitness : Q
}.

Record PSO : Type := mkPSO {
  dimension : nat;
  bounds : Q * Q;
  num_particles : nat;
  max_iterations : nat;
  particles : list Particle;
  gBest : list Q;
  gBest_fitness : Q;
  w : Q;
  c1 : Q;
  c2 : Q
}.

Definition set_particles (self : PSO) (ps : list Particle) : PSO :=
  mkPSO (dimension self) (bounds self) (num_particles self) (max_iterations self)
        ps (gBest self) (gBest_fitness self) (w self) (c1 self) (c2 self).

Definition set_gBest (self : PSO) (g : list Q) (f : Q) : PSO :=
  mkPSO (dimension self) (bounds self) (num_particles self) (max_iterations self)
        (particles self) g f (w self) (c1 self) (c2 self).

(** The shape every list of a swarm of dimension [d] has. *)
Definition particle_wf (d : nat) (p : Particle) : Prop :=
  length (position p) = d /\ length (velocity p) = d /\ length (pBest p) = d.

Definition wf (self : PSO) : Prop :=
  length (gBest self) = dimension self /\
  Forall (particle_wf (dimension self)) (particles self).

Section WithTape.
Variable unit_tape : nat -> Q.

Let random := random_random unit_tape.
Let uniform := random_uniform unit_tape.

(** [Particle.__init__]: [list(self.position)] is a copy, so [pBest]
    shares nothing with [position]. *)
Definition Particle_init (dimension : nat) (bounds : Q * Q) : M Particle :=
  position <- comprehension dimension (uniform (fst bounds) (snd bounds)) ;;
  velocity <- comprehension dimension (uniform (-1) 1) ;;
  ret (mkParticle position velocity position (objective_function position)).

(** [PSO.__init__]: [self.particles[0]] raises on an empty swarm. *)
Definition PSO_init (dimension : nat) (bounds : Q * Q)
           (num_particles max_iterations : nat) : M PSO :=
  particles <- comprehension num_particles (Particle_init dimension bounds) ;;
  p0 <- getitem particles 0 ;;
  ret (mkPSO dimension bounds num_particles max_iterations particles
             (position p0) (pBest_fitness p0) (1 # 2) (3 # 2) (3 # 2)).

(** The body of the first loop of [optimize] (lines 29-39), for one
    particle. *)
Definition evaluate (self : PSO) (particle : Particle) : PSO * Particle :=
  let fitness := objective_function (position particle) in
  let particle :=
    if Qltb fitness (pBest_fitness particle)
    then mkParticle (position particle) (velocity particle) (position particle) fitness
    else particle in
  let self :=
    if Qltb fitness (gBest_fitness self)
    then set_gBest self (position particle) fitness
    else self in
  (self, particle).

(** [for particle in self.particles] of lines 28-39: the particles
    are updated in place, one after the other. *)
Fixpoint evaluate_all (self : PSO) (ps : list Particle) : PSO * list Particle :=
  match ps with
  | [] => (self, [])
  | particle :: rest =>
      let '(self, particle) := evaluate self particle in
      let '(self, rest) := evaluate_all self rest in
      (self, particle :: rest)
  end.

Definition evaluation_pass (self : PSO) : PSO :=
  let '(self', ps) := evaluate_all self (particles self) in
  set_particles self' ps.

(** The body of the innermost loop (lines 45-53), for one particle
    and one dimension [i]. *)
Definition move_coordinate (self : PSO) (particle : Particle) (i : nat) : M Particle :=
  r1 <- random ;;
  r2 <- random ;;
  v_i <- getitem (velocity particle) i ;;
  pBest_i <- getitem (pBest particle) i ;;
  x_i <- getitem (position particle) i ;;
  gBest_i <- getitem (gBest self) i ;;
  velocity' <- setitem (velocity particle) i
    (w self * v_i + c1 self * r1 * (pBest_i - x_i) + c2 self * r2 * (gBest_i - x_i)) ;;
  v_i' <- getitem velocity' i ;;
  position' <- setitem (position particle) i (x_i + v_i') ;;
  x_i' <- getitem position' i ;;
  position'' <- setitem position' i
    (py_max (fst (bounds self)) (py_min x_i' (snd (bounds self)))) ;;
  ret (mkParticle position'' velocity' (pBest particle) (pBest_fitness particle)).

(** [for i in range(self.dimension)] *)
Definition move_particle (self : PSO) (particle : Particle) : M Particle :=
  for_each (seq 0 (dimension self)) (move_coordinate self) particle.

(** [for particle in self.particles] of lines 42-53. *)
Fixpoint move_all (self : PSO) (ps : list Particle) : M (list Particle) :=
  match ps with
  | [] => ret []
  | particle :: rest =>
      particle' <- move_particle self particle ;;
      rest' <- move_all self rest ;;
      ret (particle' :: rest')
  end.

Definition move_pass (self : PSO) : M PSO :=
  ps <- move_all self (particles self) ;;
  ret (set_particles self ps).

(** One round of the outer loop: evaluation pass, then move pass. *)
Definition iteration (self : PSO) : M PSO :=
  move_pass (evaluation_pass self).

(** The swarm after [n] rounds of the outer loop. *)
Definition iterations (n : nat) (self : PSO) : M PSO :=
  repeat_n n iteration self.

(** [PSO.optimize] *)
Definition optimize (self : PSO) : M (list Q * Q * PSO) :=
  self' <- iterations (max_iterations self) self ;;
  ret (gBest self', gBest_fitness self', self').

(** The swarm as it stands right after the evaluation pass of round
    [k] (rounds are counted from 0). *)
Definition after_evaluation (k : nat) (self : PSO) : M PSO :=
  self' <- iterations k self ;;
  ret (evaluation_pass self').

(** The move of one coordinate as the specification words it: the
    new velocity from the inertia, cognitive and social terms, and
    the new position, old position plus new velocity, clamped. *)
Definition new_velocity (self : PSO) (r1 r2 v pBest_i x gBest_i : Q) : Q :=
  w self * v + c1 self * r1 * (pBest_i - x) + c2 self * r2 * (gBest_i - x).

Definition clamp (self : PSO) (x : Q) : Q :=
  py_max (fst (bounds self)) (py_min x (snd (bounds self))).

(** The new velocity and position of coordinate [i] of a particle
    whose move starts at tape position [k]: coordinate [i] reads the
    draws [k + 2i] and [k + 2i + 1]. *)
Definition moved (self : PSO) (p : Particle) (k i : nat) : option (Q * Q) :=
  match velocity p !! i, position p !! i, pBest p !! i, gBest self !! i with
  | Some v, Some x, Some pBest_i, Some gBest_i =>
      let v' := new_velocity self (unit_tape (k + 2 * i)) (unit_tape (k + 2 * i + 1))
                             v pBest_i x gBest_i in
      Some (v', clamp self (x + v'))
  | _, _, _, _ => None
  end.

(** [p'] is [p] after its move that started at tape position [k]. *)
Definition moved_particle (self : PSO) (k : nat) (p p' : Particle) : Prop :=
  particle_wf (dimension self) p' /\
  pBest p' = pBest p /\ pBest_fitness p' = pBest_fitness p /\
  forall i, (i < dimension self)%nat ->
    exists v' x', moved self p k i = Some (v', x') /\
                  velocity p' !! i = Some v' /\ position p' !! i = Some x'.

(** The script: construct, then optimise. *)
Definition main (dimension : nat) (bounds : Q * Q)
           (num_particles max_iterations : nat) : M (list Q * Q * PSO) :=
  pso <- PSO_init dimension bounds num_particles max_iterations ;;
  optimize pso.
End WithTape.

(** A particle as its constructor leaves it. *)
Definition fresh (p : Particle) : Prop :=
  pBest p = position p /\ pBest_fitness p = objective_function (position p).

(** Fields the evaluation of a particle never touches. *)
Definition same_params (s s' : PSO) : Prop :=
  dimension s' = dimension s /\ bounds s' = bounds s /\
  num_particles s' = num_particles s /\ max_iterations s' = max_iterations s /\
  w s' = w s /\ c1 s' = c1 s /\ c2 s' = c2 s.

(** The objective value the evaluation pass computes for a particle. *)
Definition fitness_of (p : Particle) : Q := objective_function (position p).

(** The smallest personal-best fitness of a non-empty list of
    particles. *)
Fixpoint min_pBest_fitness (p : Particle) (ps : list Particle) : Q :=
  match ps with
  | [] => pBest_fitness p
  | q :: rest => Qmin (pBest_fitness p) (min_pBest_fitness q rest)
  end.

Definition swarm_min (self : PSO) : option Q :=
  match particles self with
  | [] => None
  | p :: ps => Some (min_pBest_fitness p ps)
  end.

(** Every coordinate of every particle lies within the bounds. *)
Definition in_bounds (self : PSO) : Prop :=
  Forall (fun p => Forall (fun x => fst (bounds self) <= x <= snd (bounds self))
                          (position p))
         (particles self).

(** The recorded global best fitness is the objective value of the
    recorded global best position. *)
Definition consistent (self : PSO) : Prop :=
  gBest_fitness self = objective_function (gBest self).

(** The recorded global best fitness is the least personal best. *)
Definition is_min (self : PSO) : Prop :=
  exists m, swarm_min self = Some m /\ gBest_fitness self == m.

(** A tape that reads its first entries from a list and is 1/2 after. *)
Definition tape_of (l : list Q) (k : nat) : Q := nth k l (1 # 2).

End Pso.

(** *** numpy's float64, with exact finite arithmetic *)

Module Np.
Import Py.
Local Open Scope Q_scope.

Inductive f64 : Type :=
| Fin (q : Q)
| PInf
| NInf
| NaN.

Definition is_nan (x : f64) : bool :=
  match x with NaN => true | _ => false end.

Definition fneg (x : f64) : f64 :=
  match x with
  | Fin q => Fin (- q)
  | PInf => NInf
  | NInf => PInf
  | NaN => NaN
  end.

Definition fadd (x y : f64) : f64 :=
  match x, y with
  | NaN, _ | _, NaN => NaN
  | PInf, NInf | NInf, PInf => NaN
  | PInf, _ | _, PInf => PInf
  | NInf, _ | _, NInf => NInf
  | Fin a, Fin b => Fin (a + b)
  end.

Definition fsub (x y : f64) : f64 := fadd x (fneg y).

(** The infinity of the sign of [q], or NaN for zero: [inf * q]. *)
Definition inf_times (q : Q) : f64 :=
  if Qltb 0 q then PInf else if Qltb q 0 then NInf else NaN.

Definition fmul (x y : f64) : f64 :=
  match x, y with
  | NaN, _ | _, NaN => NaN
  | Fin a, Fin b => Fin (a * b)
  | PInf, Fin q | Fin q, PInf => inf_times q
  | NInf, Fin q | Fin q, NInf => fneg (inf_times q)
  | PInf, PInf | NInf, NInf => PInf
  | PInf, NInf | NInf, PInf => NInf
  end.

(** Division never raises: [x / 0] is an infinity for [x <> 0] and NaN
    for [x = 0] (numpy emits a RuntimeWarning and goes on). *)
Definition fdiv (x y : f64) : f64 :=
  match x, y with
  | NaN, _ | _, NaN => NaN
  | Fin a, Fin b => if Qeq_bool b 0 then inf_times a else Fin (a / b)
  | Fin _, PInf | Fin _, NInf => Fin 0
  | PInf, Fin b => if Qltb b 0 then NInf else PInf
  | NInf, Fin b => if Qltb b 0 then PInf else NInf
  | PInf, PInf | PInf, NInf | NInf, PInf | NInf, NInf => NaN
  end.

(** [x < y]; false as soon as a NaN is involved. *)
Definition fltb (x y : f64) : bool :=
  match x, y with
  | NaN, _ | _, NaN => false
  | Fin a, Fin b => Qltb a b
  | NInf, NInf | PInf, _ => false
  | NInf, _ | Fin _, PInf => true
  | Fin _, NInf => false
  end.

Definition fabs (x : f64) : f64 :=
  match x with
  | Fin q => Fin (Qabs q)
  | PInf | NInf => PInf
  | NaN => NaN
  end.


(** Python's [sum] over numpy floats: starts at 0, adds left to right. *)
Definition py_sum (xs : list f64) : f64 := fold_left fadd xs (Fin 0).

(** [np.cumsum] *)
Fixpoint cumsum_from (acc : f64) (xs : list f64) : list f64 :=
  match xs with
  | [] => []
  | x :: rest => let acc' := fadd acc x in acc' :: cumsum_from acc' rest
  end.
Definition cumsum (xs : list f64) : list f64 :=
  match xs with
  | [] => []
  | x :: rest => x :: cumsum_from x rest
  end.

(** [cdf.searchsorted(u, side='right')] on a sorted array: the number
    of leading entries that are [<= u], that is the first index whose
    entry exceeds [u]. *)
Fixpoint searchsorted_right (cdf : list f64) (u : Q) : nat :=
  match cdf with
  | [] => O
  | c :: rest => if fltb (Fin u) c then O else S (searchsorted_right rest u)
  end.

(** The compensated (Kahan) sum that [np.random.choice] takes of the
    probabilities: the running sum and the running compensation. *)
Definition kahan_step (sc : f64 * f64) (x : f64) : f64 * f64 :=
  let y := fsub x (snd sc) in
  let t := fadd (fst sc) y in
  (t, fsub (fsub t (fst sc)) y).
Definition kahan_sum (xs : list f64) : f64 :=
  match xs with
  | [] => Fin 0
  | x :: rest => fst (fold_left kahan_step rest (x, Fin 0))
  end.

(** The tolerance of [np.random.choice]: sqrt(eps) = 2^-26. *)
Definition atol : Q := 1 # (2 ^ 26).

(** The exceptions with which [np.random.choice] rejects a
    distribution over a non-empty population. *)
Definition sampling_error (e : exn) : Prop :=
  e = ValueError ProbabilitiesContainNaN \/
  e = ValueError ProbabilitiesNotNonNegative \/
  e = ValueError ProbabilitiesDoNotSumToOne.

Section Choice.
Variable unit_tape : nat -> Q.

(** [np.random.choice(range(n), p=p)] of the legacy generator: the
    distribution is checked, then an index is found by inverting the
    normalised cumulative distribution at a uniform draw. *)
Definition random_choice (n : nat) (p : list f64) : M nat :=
  if decide (n = 0)%nat then raise (ValueError EmptyPopulation) else
  let p_sum := kahan_sum p in
  if is_nan p_sum then raise (ValueError ProbabilitiesContainNaN)
  else if existsb (fun p_i => fltb p_i (Fin 0)) p
  then raise (ValueError ProbabilitiesNotNonNegative)
  else if fltb (Fin atol) (fabs (fsub p_sum (Fin 1)))
  then raise (ValueError ProbabilitiesDoNotSumToOne)
  else
    let cdf := cumsum p in
    let cdf := map (fun c => fdiv c (List.last cdf NaN)) cdf in
    u <- random_random unit_tape ;;
    let idx := searchsorted_right cdf u in
    if decide (idx < n)%nat then ret idx else raise IndexError.
End Choice.
End Np.

(** *** LAB-3/aco.py *)

Module Aco.
Import Py Np.
Local Open Scope Q_scope.

(** A city is its tuple of coordinates. *)
Abbreviation city := (list Q).
Abbreviation matrix := (list (list f64)).
Abbreviation tour := (list nat).

Record ACO : Type := mkACO {
  n_ants : nat;
  n_iterations : nat;
  alpha : Q;
  beta : Q;
  rho : Q;
  deposit : Q;
  cities : list city;
  n_cities : nat;
  distances : matrix;
  pheromones : matrix
}.

Definition set_pheromones (self : ACO) (ph : matrix) : ACO :=
  mkACO (n_ants self) (n_iterations self) (alpha self) (beta self) (rho self)
        (deposit self) (cities self) (n_cities self) (distances self) ph.

(** [l[i]] for a Python list and any integer [i]: negative indices
    count from the end. *)
Definition py_getitem {A} (l : list A) (i : Z) : M A :=
  if (0 <=? i)%Z then getitem l (Z.to_nat i)
  else if (- Z.of_nat (length l) <=? i)%Z then getitem l (Z.to_nat (Z.of_nat (length l) + i))
  else raise IndexError.

(** [m[i][j]] *)
Definition mget (m : matrix) (i j : nat) : M f64 :=
  row <- getitem m i ;; getitem row j.

(** [m[i][j] = x], in place *)
Definition mset (m : matrix) (i j : nat) (x : f64) : M matrix :=
  row <- getitem m i ;;
  row' <- setitem row j x ;;
  setitem m i row'.

(** [np.zeros((n, n))], [np.ones((n, n))] *)
Definition np_full (n : nat) (x : f64) : matrix := replicate n (replicate n x).

(** An [n] by [n] matrix. *)
Definition square (n : nat) (m : matrix) : Prop :=
  length m = n /\ Forall (fun row => length row = n) m.

(** The entry [(i, j)] of a matrix, if there is one. *)
Definition entry (m : matrix) (i j : nat) : option f64 :=
  match m !! i with
  | Some row => row !! j
  | None => None
  end.

(** A colony whose matrices have the shape [__init__] gives them. *)
Definition wf_colony (self : ACO) : Prop :=
  square (n_cities self) (distances self) /\ square (n_cities self) (pheromones self).

(** The pheromone update as the specification words it: evaporation of
    every entry, then for every ant a deposit on every edge of its
    tour, the first edge being the one that closes the tour. *)
Definition evaporate (rho : Q) (ph : matrix) : matrix :=
  map (map (fun x => fmul x (Fin (1 - rho)))) ph.

Definition tour_edges (path : tour) : list (nat * nat) :=
  match path with
  | [] => []
  | first :: _ => zip (List.last path first :: path) path
  end.

Definition deposit_edge (contribution : f64) (ph : matrix) (e : nat * nat) : matrix :=
  alter (alter (fun x => fadd x contribution) (snd e)) (fst e) ph.

Definition deposit_tour (deposit : Q) (ph : matrix) (pd : tour * f64) : matrix :=
  fold_left (deposit_edge (fdiv (Fin deposit) (snd pd))) (tour_edges (fst pd)) ph.

Definition update_pheromones_spec (self : ACO) (paths : list tour) (dists : list f64)
  : matrix :=
  fold_left (deposit_tour (deposit self)) (zip paths dists)
            (evaporate (rho self) (pheromones self)).


Section WithLibraries.
Variable unit_tape : nat -> Q.
Variable raw_tape : nat -> nat.
(** numpy's square root on finite values and its power [x ** e]. *)
Variable np_sqrt : Q -> Q.
Variable np_power : f64 -> Q -> f64.

(** [np.array(a) - np.array(b)] for two coordinate tuples: shapes
    must agree, or one of them has a single entry that is broadcast;
    otherwise numpy raises. *)
Definition np_subtract (a b : city) : M (list Q) :=
  if decide (length a = length b) then ret (zip_with Qminus a b)
  else match a, b with
       | [x], _ => ret (map (fun y => x - y) b)
       | _, [y] => ret (map (fun x => x - y) a)
       | _, _ => raise (ValueError OperandsNotBroadcast)
       end.

(** [np.linalg.norm] of a vector: the square root of the dot product
    of the vector with itself. *)
Definition np_linalg_norm (v : list Q) : f64 :=
  Fin (np_sqrt (fold_left (fun acc x => acc + x * x) v 0)).

(** [ACO.calculate_distances]: a zero matrix filled entry by entry. *)
Definition calculate_distances (cities : list city) (n_cities : nat) : M matrix :=
  for_each (seq 0 n_cities) (fun distances i =>
    for_each (seq 0 n_cities) (fun distances j =>
      c_i <- getitem cities i ;;
      c_j <- getitem cities j ;;
      d <- np_subtract c_i c_j ;;
      mset distances i j (np_linalg_norm d)) distances)
    (np_full n_cities (Fin 0)).

(** [ACO.__init__] *)
Definition ACO_init (n_ants n_iterations : nat) (alpha beta rho deposit : Q)
           (cities : list city) : M ACO :=
  let n_cities := length cities in
  distances <- calculate_distances cities n_cities ;;
  ret (mkACO n_ants n_iterations alpha beta rho deposit cities n_cities
             distances (np_full n_cities (Fin 1))).

(** The score list built by the loop of [choose_next_city]; its name
    in the source is [probabilities] too, before normalisation. *)
Definition scores (self : ACO) (current_city : nat) (path : tour) : M (list f64) :=
  for_each (seq 0 (n_cities self)) (fun probabilities next_city =>
    if bool_decide (next_city ∈ path) then ret (probabilities ++ [Fin 0])
    else
      ph <- mget (pheromones self) current_city next_city ;;
      d <- mget (distances self) current_city next_city ;;
      let pheromone := np_power ph (alpha self) in
      let visibility := np_power (fdiv (Fin 1) d) (beta self) in
      ret (probabilities ++ [fmul pheromone visibility])) [].

(** [ACO.choose_next_city] *)
Definition choose_next_city (self : ACO) (current_city : nat) (path : tour) : M nat :=
  probabilities <- scores self current_city path ;;
  let total := py_sum probabilities in
  let probabilities := map (fun x => fdiv x total) probabilities in
  random_choice unit_tape (n_cities self) probabilities.

(** The [while] loop of [construct_solution]. *)
Fixpoint construct_loop (fuel : nat) (self : ACO) (path : tour) : M tour :=
  if decide (length path < n_cities self)%nat then
    match fuel with
    | O => fun _ => OutOfFuel
    | S fuel' =>
        current_city <- py_getitem path (-1) ;;
        next_city <- choose_next_city self current_city path ;;
        construct_loop fuel' self (path ++ [next_city])
    end
  else ret path.

(** [ACO.construct_solution] *)
Definition construct_solution (fuel : nat) (self : ACO) : M tour :=
  start <- random_randint raw_tape 0 (Z.of_nat (n_cities self) - 1) ;;
  construct_loop fuel self [Z.to_nat start].

(** [ACO.calculate_distance].  The entries are numpy floats, and so is
    their sum for every path that is not empty (for the empty path
    Python's [sum] returns its integer 0; no run has one). *)
Definition calculate_distance (self : ACO) (path : tour) : M f64 :=
  for_each (seq 0 (length path)) (fun acc i =>
    a <- py_getitem path (Z.of_nat i - 1) ;;
    b <- py_getitem path (Z.of_nat i) ;;
    d <- mget (distances self) a b ;;
    ret (fadd acc d)) (Fin 0).

(** The inner loop of [update_pheromones], for one ant. *)
Definition deposit_path (contribution : f64) (path : tour) (ph : matrix) : M matrix :=
  for_each (seq 0 (length path)) (fun ph i =>
    a <- py_getitem path (Z.of_nat i - 1) ;;
    b <- py_getitem path (Z.of_nat i) ;;
    x <- mget ph a b ;;
    mset ph a b (fadd x contribution)) ph.

(** [ACO.update_pheromones].  The distances are numpy floats, so
    [self.deposit / distance] is numpy's division, which does not
    raise. *)
Definition update_pheromones (self : ACO) (paths : list tour) (dists : list f64)
  : M ACO :=
  let ph := map (map (fun x => fmul x (Fin (1 - rho self)))) (pheromones self) in
  ph <- for_each (zip paths dists) (fun ph '(path, distance) =>
          deposit_path (fdiv (Fin (deposit self)) distance) path ph) ph ;;
  ret (set_pheromones self ph).

(** [for path in paths: self.calculate_distance(path)] *)
Fixpoint calculate_all (self : ACO) (paths : list tour) : M (list f64) :=
  match paths with
  | [] => ret []
  | path :: rest =>
      d <- calculate_distance self path ;;
      ds <- calculate_all self rest ;;
      ret (d :: ds)
  end.

(** The running best of [run]. *)
Definition best : Type := option tour * f64.

(** The scan of lines 68-70. *)
Definition improve (b : best) (pd : tour * f64) : best :=
  let '(path, distance) := pd in
  if fltb distance (snd b) then (Some path, distance) else b.

(** One round of the loop of [run]. *)
Definition run_iteration (fuel : nat) (st : ACO * best) : M (ACO * best) :=
  let '(self, b) := st in
  paths <- comprehension (n_ants self) (construct_solution fuel self) ;;
  dists <- calculate_all self paths ;;
  self <- update_pheromones self paths dists ;;
  ret (self, fold_left improve (zip paths dists) b).

(** The colony and the running best after [k] rounds. *)
Definition run_rounds (fuel k : nat) (self : ACO) : M (ACO * best) :=
  repeat_n k (run_iteration fuel) (self, (None, PInf)).

(** [ACO.run] *)
Definition run (fuel : nat) (self : ACO) : M (best * ACO) :=
  st <- run_rounds fuel (n_iterations self) self ;;
  ret (snd st, fst st).
End WithLibraries.

(** A path under construction: distinct cities, at least one. *)
Definition partial_tour (self : ACO) (path : tour) : Prop :=
  NoDup path /\ Forall (fun c => (c < n_cities self)%nat) path /\ path <> [].

(** [d] is the length of the closed tour [path]. *)
Definition tour_length (self : ACO) (path : tour) (d : f64) : Prop :=
  forall k, calculate_distance self path k = Ok (d, k).

(** The running best is either the initial one or a tour with its
    length. *)
Definition best_ok (self : ACO) (b : best) : Prop :=
  b = (None, PInf) \/
  exists path, fst b = Some path /\ tour_length self path (snd b).


End Aco.

(** *** Inputs the properties are tried on *)

Module Examples.
Import Py Np Pso Aco.
Local Open Scope Q_scope.

(** A swarm of two particles on the line [-10, 10]: the first draw
    puts particle 0 at 5, the third puts particle 1 at 0. *)
Definition seed_tape : nat -> Q := tape_of [3 # 4; 1 # 2; 1 # 2; 1 # 2].

(** A swarm of two particles in the plane, as an evaluation pass may
    leave it. *)
Definition small_swarm : PSO :=
  mkPSO 2 (-10, 10) 2 1
        [mkParticle [5; -3] [1; 0] [4; -3] 25; mkParticle [9; 9] [-30; 2] [1; 2] 5]
        [1; 2] 5 (1 # 2) (3 # 2) (3 # 2).

(** A square root on rationals that is exact on squares of rationals
    and rounds down elsewhere. *)
Definition sqrt_floor (q : Q) : Q :=
  let r := Qred q in Z.sqrt (Qnum r) # Pos.sqrt (Qden r).

(** Powers with a natural exponent, by repeated multiplication. *)
Fixpoint fpow (x : f64) (n : nat) : f64 :=
  match n with
  | O => Fin 1
  | S n' => fmul x (fpow x n')
  end.
Definition power_nat (x : f64) (e : Q) : f64 := fpow x (Z.to_nat (Qnum e)).

(** Raw integer draws 0, 1, 2, ... *)
Definition count_tape (k : nat) : nat := k.

(** Three cities on a 3-4-5 triangle. *)
Definition triangle : list city := [[0; 0]; [3; 0]; [3; 4]].

(** The colony [ACO(2, 3, 1, 2, 0.1, 100, triangle)] as its constructor
    leaves it. *)
Definition triangle_colony : ACO :=
  mkACO 2 3 1 2 (1 # 10) 100 triangle 3
        [[Fin 0; Fin 3; Fin 5]; [Fin 3; Fin 0; Fin 4]; [Fin 5; Fin 4; Fin 0]]
        [[Fin 1; Fin 1; Fin 1]; [Fin 1; Fin 1; Fin 1]; [Fin 1; Fin 1; Fin 1]].



(** The colony [ACO(2, 3, 1, 2, 0.1, 100, [])] of no city. *)
Definition empty_colony : ACO := mkACO 2 3 1 2 (1 # 10) 100 [] 0 [] [].

(** A tape that cycles through four draws. *)
Definition cycle_tape (k : nat) : Q :=
  nth (k mod 4)%nat [1 # 2; 1 # 10; 9 # 10; 1 # 3] 0.
End Examples.

(** *** Where binary64 and int64 depart from exact arithmetic *)

Module Machine.
Import Py Np Pso Aco.
Local Open Scope Q_scope.

(** binary64 rounds a result of magnitude [2^1024 - 2^970] or more to
    an infinity. *)
Definition overflow_threshold : Q := 2 ^ 1024 - 2 ^ 970.

(** [b - a] on two finite floats: an infinity where the difference
    reaches the threshold, the difference itself below it. *)
Definition float_sub (b a : Q) : f64 :=
  if Qle_bool overflow_threshold (Qabs (b - a))
  then (if Qle_bool 0 (b - a) then PInf else NInf)
  else Fin (b - a).

(** [random.uniform(a, b)] on the draw [u], [a + (b - a) * u], with
    the width [b - a] computed on floats. *)
Definition uniform_float (a b u : Q) : f64 :=
  fadd (Fin a) (fmul (float_sub b a) (Fin u)).

(** The position [Particle.__init__] draws from tape position [k],
    on floats. *)
Definition drawn_position (tape : nat -> Q) (dimension : nat) (bounds : Q * Q)
           (k : nat) : list f64 :=
  map (fun i => uniform_float (fst bounds) (snd bounds) (tape (k + i)%nat))
      (seq 0 dimension).

(** A float that lies within the bounds; an infinity or a NaN does
    not. *)
Definition float_within (bounds : Q * Q) (x : f64) : Prop :=
  match x with
  | Fin q => fst bounds <= q <= snd bounds
  | _ => False
  end.

(** Bounds whose width [upper - lower] is a finite float. *)
Definition finite_width (bounds : Q * Q) : Prop :=
  Qabs (snd bounds - fst bounds) < overflow_threshold.

(** A rational that is a binary64 float: [m * 2^e] with a mantissa of
    at most 53 bits. *)
Definition binary64 (q : Q) : Prop :=
  exists m e : Z,
    (Z.abs m < 2 ^ 53)%Z /\ (-1074 <= e <= 971)%Z /\ q == inject_Z m * 2 ^ e.

(** Bounds that are floats (or integers that convert to floats without
    rounding) and whose width is a finite float. *)
Definition float_bounds (bounds : Q * Q) : Prop :=
  binary64 (fst bounds) /\ binary64 (snd bounds) /\ finite_width bounds.

(** int64 arithmetic wraps around. *)
Definition wrap_int64 (z : Z) : Z := ((z + 2 ^ 63) mod 2 ^ 64 - 2 ^ 63)%Z.

(** [np.array(a) - np.array(b)] for two tuples of Python integers of
    one length that fit int64: the arrays have dtype int64, and so has
    their difference. *)
Definition np_subtract_int64 (a b : list Z) : list Z :=
  zip_with (fun x y => wrap_int64 (x - y)) a b.





End Machine.

(** *** States of a swarm and of a colony that the properties speak of *)

Module PsoStates.
Import Py Pso.
Local Open Scope Q_scope.

(** The personal best of a particle is recorded with its own objective
    value. *)
Definition pBest_consistent (p : Particle) : Prop :=
  pBest_fitness p = objective_function (pBest p).

(** A point whose every coordinate lies within the bounds. *)
Definition within (b : Q * Q) (x : list Q) : Prop :=
  Forall (fun x_i => fst b <= x_i <= snd b) x.

(** Two points with the same coordinates, as rationals. *)
Definition same_point (x y : list Q) : Prop := Forall2 Qeq x y.

(** A swarm at rest on its global best: the bounds are not empty, the
    global best lies within them, and every particle sits on it, has
    it as its personal best, and has no velocity. *)
Definition at_rest (self : PSO) : Prop :=
  fst (bounds self) <= snd (bounds self) /\ within (bounds self) (gBest self) /\
  Forall (fun p => same_point (position p) (gBest self) /\
                   same_point (pBest p) (gBest self) /\
                   Forall (fun v => v == 0) (velocity p))
         (particles self).

End PsoStates.

Module AcoStates.
Import Py Np Aco.
Local Open Scope Q_scope.

(** A finite float, and a finite float above zero. *)
Definition is_finite (x : f64) : bool :=
  match x with Fin _ => true | _ => false end.

Definition positive (x : f64) : Prop := exists q, x = Fin q /\ 0 < q.

(** A power that keeps positive finite floats positive and finite, as
    [x ** e] does on the reals. *)
Definition power_positive (np_power : f64 -> Q -> f64) : Prop :=
  forall q e, 0 < q -> positive (np_power (Fin q) e).

(** The edge from city [a] to city [b] has length zero and carries
    pheromone of positive weight: an ant at [a] that has not visited
    [b] divides by that zero. *)
Definition zero_edge (np_power : f64 -> Q -> f64) (self : ACO) (a b : nat) : Prop :=
  (a < n_cities self)%nat /\ (b < n_cities self)%nat /\
  exists z ph,
    entry (distances self) a b = Some (Fin z) /\ z == 0 /\
    entry (pheromones self) a b = Some ph /\
    positive (np_power ph (alpha self)).

(** Shapes numpy subtracts: two coordinate tuples of one length, or
    of which one has a single entry. *)
Definition broadcastable (a b : city) : Prop :=
  length a = length b \/ length a = 1%nat \/ length b = 1%nat.

(** The length of an edge as the distance matrix records it (NaN
    where the matrix has no such entry). *)
Definition edge_length (self : ACO) (e : nat * nat) : f64 :=
  default NaN (entry (distances self) (fst e) (snd e)).

End AcoStates.

(** *** Further inputs *)

Module MoreExamples.
Import Py Np Pso Aco.
Local Open Scope Q_scope.

(** A swarm of two particles in the plane, both at rest on the global
    best [(1, 2)]. *)
Definition resting_swarm : PSO :=
  mkPSO 2 (-10, 10) 2 3
        [mkParticle [1; 2] [0; 0] [1; 2] 5; mkParticle [1; 2] [0; 0] [1; 2] 5]
        [1; 2] 5 (1 # 2) (3 # 2) (3 # 2).

(** Three cities of which the first two lie at the same place, in the
    colony [ACO(2, 3, 1, 2, 0.1, 100, ...)] as its constructor leaves
    it. *)
Definition twin_colony : ACO :=
  mkACO 2 3 1 2 (1 # 10) 100 [[0; 0]; [0; 0]; [3; 4]] 3
        [[Fin 0; Fin 0; Fin 5]; [Fin 0; Fin 0; Fin 5]; [Fin 5; Fin 5; Fin 0]]
        [[Fin 1; Fin 1; Fin 1]; [Fin 1; Fin 1; Fin 1]; [Fin 1; Fin 1; Fin 1]].

(** Two floats whose difference overflows: [(-2.0**1023, 2.0**1023)],
    about [(-9e307, 9e307)]. *)
Definition wide_bounds : Q * Q := (- 2 ^ 1023, 2 ^ 1023).



End MoreExamples.

(** ** Part II.  Properties *)

(** *** Reasoning about results and loops *)

Module PyFacts.
Import Py.

Lemma bind_Ok {A B} (m : M A) (f : A -> M B) k b k' :
  bind m f k = Ok (b, k') <->
  exists a k1, m k = Ok (a, k1) /\ f a k1 = Ok (b, k').
Proof.
  unfold bind. split.
  - destruct (m k) as [[a k1]| |]; try discriminate.
    intros H. exists a, k1. auto.
  - intros (a & k1 & -> & H). exact H.
Qed.

Lemma bind_Raise {A B} (m : M A) (f : A -> M B) k e :
  bind m f k = Raise e <->
  m k = Raise e \/ exists a k1, m k = Ok (a, k1) /\ f a k1 = Raise e.
Proof.
  unfold bind. split.
  - destruct (m k) as [[a k1]|e'|]; try discriminate.
    + intros H. right. exists a, k1. auto.
    + intros H. left. congruence.
  - intros [-> | (a & k1 & -> & H)]; auto.
Qed.

Lemma bind_OutOfFuel {A B} (m : M A) (f : A -> M B) k :
  bind m f k = OutOfFuel <->
  m k = OutOfFuel \/ exists a k1, m k = Ok (a, k1) /\ f a k1 = OutOfFuel.
Proof.
  unfold bind. split.
  - destruct (m k) as [[a k1]|e'|]; try discriminate.
    + intros H. right. exists a, k1. auto.
    + intros _. left. reflexivity.
  - intros [-> | (a & k1 & -> & H)]; auto.
Qed.

Lemma bind_step {A B} (m : M A) (f : A -> M B) k a k1 :
  m k = Ok (a, k1) -> bind m f k = f a k1.
Proof. unfold bind. now intros ->. Qed.

Lemma getitem_Ok {A} (l : list A) i x k :
  l !! i = Some x -> getitem l i k = Ok (x, k).
Proof. unfold getitem. now intros ->. Qed.

Lemma getitem_inv {A} (l : list A) i x k k' :
  getitem l i k = Ok (x, k') -> l !! i = Some x /\ k' = k.
Proof.
  unfold getitem. destruct (l !! i); cbn; intros H; inversion H; auto.
Qed.

Lemma getitem_Raise {A} (l : list A) i e k :
  getitem l i k = Raise e -> (length l <= i)%nat /\ e = IndexError.
Proof.
  unfold getitem. destruct (l !! i) eqn:E; cbn; intros H; inversion H.
  split; auto. now apply lookup_ge_None.
Qed.

Lemma setitem_Ok {A} (l : list A) i x k :
  (i < length l)%nat -> setitem l i x k = Ok (<[i := x]> l, k).
Proof. unfold setitem. intros H. now rewrite decide_True. Qed.

Lemma setitem_inv {A} (l : list A) i x l' k k' :
  setitem l i x k = Ok (l', k') -> (i < length l)%nat /\ l' = <[i := x]> l /\ k' = k.
Proof.
  unfold setitem. destruct (decide _); cbn; intros H; inversion H; auto.
Qed.

Lemma setitem_Raise {A} (l : list A) i x e k :
  setitem l i x k = Raise e -> (length l <= i)%nat /\ e = IndexError.
Proof.
  unfold setitem. destruct (decide _); cbn; intros H; inversion H.
  split; auto. lia.
Qed.

(** A [for i in range(a, a + m)] loop establishes [Inv (a + m)] from
    [Inv a] when each round takes [Inv i] to [Inv (i + 1)]; the
    invariant sees the accumulated state and the tape position. *)
Lemma for_each_seq_rule {S} (Inv : nat -> S -> nat -> Prop) (body : S -> nat -> M S) :
  forall m a s k,
    Inv a s k ->
    (forall i s k, (a <= i < a + m)%nat -> Inv i s k ->
                   exists s' k', body s i k = Ok (s', k') /\ Inv (Datatypes.S i) s' k') ->
    exists s' k', for_each (seq a m) body s k = Ok (s', k') /\ Inv (a + m)%nat s' k'.
Proof.
  induction m as [|m IH]; intros a s k HI Hbody; cbn.
  - exists s, k. rewrite Nat.add_0_r. auto.
  - destruct (Hbody a s k ltac:(lia) HI) as (s1 & k1 & E1 & HI1).
    destruct (IH (Datatypes.S a) s1 k1 HI1) as (s' & k' & E & HI').
    { intros i s0 k0 Hi. apply Hbody. lia. }
    exists s', k'. rewrite (bind_step _ _ _ _ _ E1).
    split; [exact E|]. now replace (a + Datatypes.S m)%nat with (Datatypes.S a + m)%nat by lia.
Qed.

(** The same reading backwards: whatever a completed loop returned was
    reached through the invariant. *)
Lemma for_each_seq_inv {S} (Inv : nat -> S -> nat -> Prop) (body : S -> nat -> M S) :
  forall m a s k s' k',
    Inv a s k ->
    (forall i s k s' k', (a <= i < a + m)%nat -> Inv i s k ->
                         body s i k = Ok (s', k') -> Inv (Datatypes.S i) s' k') ->
    for_each (seq a m) body s k = Ok (s', k') -> Inv (a + m)%nat s' k'.
Proof.
  induction m as [|m IH]; intros a s k s' k' HI Hbody; cbn.
  - unfold ret. intros H; inversion H; subst. now rewrite Nat.add_0_r.
  - intros H. apply bind_Ok in H as (s1 & k1 & E1 & E).
    replace (a + Datatypes.S m)%nat with (Datatypes.S a + m)%nat by lia.
    eapply IH; [| |exact E].
    + eapply Hbody; [|exact HI|exact E1]. lia.
    + intros i s0 k0 s0' k0' Hi. apply Hbody. lia.
Qed.

(** A list comprehension whose body always succeeds, advancing the tape
    by [step] and returning something in [P]. *)
Lemma comprehension_rule {A} (P : A -> Prop) (step : nat) (body : M A) :
  (forall k, exists a, body k = Ok (a, k + step)%nat /\ P a) ->
  forall n k, exists l,
    comprehension n body k = Ok (l, k + n * step)%nat /\ length l = n /\ Forall P l.
Proof.
  intros Hbody. induction n as [|n IH]; intros k; cbn.
  - exists []. unfold ret. rewrite Nat.add_0_r. auto.
  - destruct (Hbody k) as (a & Ea & Pa).
    destruct (IH (k + step)%nat) as (l & El & Hlen & HP).
    exists (a :: l). rewrite (bind_step _ _ _ _ _ Ea), (bind_step _ _ _ _ _ El).
    unfold ret. cbn. repeat split; auto.
    f_equal. f_equal. lia.
Qed.

Lemma comprehension_inv {A} (P : A -> Prop) (body : M A) :
  (forall k a k', body k = Ok (a, k') -> P a) ->
  forall n k l k', comprehension n body k = Ok (l, k') -> length l = n /\ Forall P l.
Proof.
  intros Hbody. induction n as [|n IH]; intros k l k'; cbn.
  - unfold ret. intros H; inversion H; auto.
  - intros H. apply bind_Ok in H as (a & k1 & Ea & H).
    apply bind_Ok in H as (l1 & k2 & El & H). unfold ret in H. inversion H; subst.
    destruct (IH _ _ _ El) as [Hlen HP]. cbn. split; [lia|].
    constructor; eauto.
Qed.

Lemma bind_assoc {A B C} (m : M A) (f : A -> M B) (g : B -> M C) k :
  bind (bind m f) g k = bind m (fun a => bind (f a) g) k.
Proof. unfold bind. destruct (m k) as [[a k1]| |]; reflexivity. Qed.

Lemma bind_ext {A B} (m : M A) (f g : A -> M B) k :
  (forall a k1, f a k1 = g a k1) -> bind m f k = bind m g k.
Proof. intros H. unfold bind. destruct (m k) as [[a k1]| |]; auto. Qed.

Lemma bind_ret_r {A} (m : M A) k : bind m ret k = m k.
Proof. unfold bind, ret. destruct (m k) as [[a k1]| |]; reflexivity. Qed.

(** Running [n + 1] rounds is running [n] rounds and then one more. *)
Lemma repeat_n_snoc {S} (body : S -> M S) n s k :
  repeat_n (Datatypes.S n) body s k = bind (repeat_n n body s) body k.
Proof.
  revert s k. induction n as [|n IH]; intros s k.
  - cbn. now rewrite bind_ret_r.
  - change (repeat_n (Datatypes.S (Datatypes.S n)) body s)
      with (bind (body s) (repeat_n (Datatypes.S n) body)).
    change (repeat_n (Datatypes.S n) body s) with (bind (body s) (repeat_n n body)).
    rewrite bind_assoc. apply bind_ext. exact IH.
Qed.

Lemma fuel_free_ret {A} (a : A) : fuel_free (ret a).
Proof. intros k. discriminate. Qed.

Lemma fuel_free_raise {A} e : fuel_free (@raise A e).
Proof. intros k. discriminate. Qed.

Lemma fuel_free_bind {A B} (m : M A) (f : A -> M B) :
  fuel_free m -> (forall a, fuel_free (f a)) -> fuel_free (bind m f).
Proof.
  intros Hm Hf k H. apply bind_OutOfFuel in H as [H|(a & k1 & _ & H)].
  - exact (Hm k H).
  - exact (Hf a k1 H).
Qed.

Lemma fuel_free_getitem {A} (l : list A) i : fuel_free (getitem l i).
Proof. intros k. unfold getitem. destruct (l !! i); discriminate. Qed.


Lemma fuel_free_for_each {A S} (xs : list A) (body : S -> A -> M S) :
  (forall acc x, fuel_free (body acc x)) -> forall acc, fuel_free (for_each xs body acc).
Proof.
  intros Hb. induction xs as [|x xs IH]; intros acc; cbn.
  - apply fuel_free_ret.
  - apply fuel_free_bind; auto.
Qed.


Lemma fuel_free_repeat_n {S} n (body : S -> M S) :
  (forall s, fuel_free (body s)) -> forall s, fuel_free (repeat_n n body s).
Proof.
  intros Hb. induction n as [|n IH]; intros s; cbn.
  - apply fuel_free_ret.
  - apply fuel_free_bind; auto.
Qed.

Lemma tape_free_Ok {A} (m : M A) k a k' :
  tape_free m -> m k = Ok (a, k') -> k' = k /\ forall k2, m k2 = Ok (a, k2).
Proof. intros Hm E. specialize (Hm k). now rewrite E in Hm. Qed.

Lemma tape_free_ret {A} (a : A) : tape_free (ret a).
Proof. intros k. cbn. auto. Qed.

Lemma tape_free_raise {A} e : tape_free (@raise A e).
Proof. intros k. cbn. auto. Qed.

Lemma tape_free_bind {A B} (m : M A) (f : A -> M B) :
  tape_free m -> (forall a, tape_free (f a)) -> tape_free (bind m f).
Proof.
  intros Hm Hf k. unfold bind. pose proof (Hm k) as Hk.
  destruct (m k) as [[a k1]|e|].
  - destruct Hk as [-> Hk]. pose proof (Hf a k) as Hfk.
    destruct (f a k) as [[b k2]|e|].
    + destruct Hfk as [-> Hfk]. split; auto. intros k2. now rewrite Hk, Hfk.
    + intros k2. now rewrite Hk, Hfk.
    + intros k2. now rewrite Hk, Hfk.
  - intros k2. now rewrite Hk.
  - intros k2. now rewrite Hk.
Qed.

Lemma tape_free_getitem {A} (l : list A) i : tape_free (getitem l i).
Proof. unfold getitem. destruct (l !! i); [apply tape_free_ret|apply tape_free_raise]. Qed.

Lemma tape_free_setitem {A} (l : list A) i x : tape_free (setitem l i x).
Proof. unfold setitem. destruct (decide _); [apply tape_free_ret|apply tape_free_raise]. Qed.

Lemma tape_free_for_each {A S} (xs : list A) (body : S -> A -> M S) :
  (forall acc x, tape_free (body acc x)) -> forall acc, tape_free (for_each xs body acc).
Proof.
  intros Hb. induction xs as [|x xs IH]; intros acc; cbn.
  - apply tape_free_ret.
  - apply tape_free_bind; auto.
Qed.

Local Open Scope Q_scope.

Lemma Qltb_lt x y : Qltb x y = true <-> x < y.
Proof.
  unfold Qltb. rewrite negb_true_iff. split.
  - intros H. apply Qnot_le_lt. intros Hle. apply Qle_bool_iff in Hle. congruence.
  - intros H. destruct (Qle_bool y x) eqn:E; auto.
    apply Qle_bool_iff in E. lra.
Qed.

Lemma Qltb_ge x y : Qltb x y = false <-> y <= x.
Proof.
  unfold Qltb. rewrite negb_false_iff. apply Qle_bool_iff.
Qed.

(** Clamping with Python's [max(lo, min(x, hi))]. *)
Lemma clamp_in_bounds lo hi x :
  lo <= hi -> lo <= py_max lo (py_min x hi) <= hi.
Proof.
  intros Hb. unfold py_max, py_min.
  destruct (Qltb hi x) eqn:E1; [apply Qltb_lt in E1 | apply Qltb_ge in E1].
  - destruct (Qltb lo hi) eqn:E2; [apply Qltb_lt in E2 | apply Qltb_ge in E2]; lra.
  - destruct (Qltb lo x) eqn:E2; [apply Qltb_lt in E2 | apply Qltb_ge in E2]; lra.
Qed.

Lemma clamp_spec lo hi x :
  lo <= hi ->
  (x < lo -> py_max lo (py_min x hi) == lo) /\
  (hi < x -> py_max lo (py_min x hi) == hi) /\
  (lo <= x <= hi -> py_max lo (py_min x hi) == x).
Proof.
  intros Hb. unfold py_max, py_min.
  destruct (Qltb hi x) eqn:E1; [apply Qltb_lt in E1 | apply Qltb_ge in E1].
  - destruct (Qltb lo hi) eqn:E2; [apply Qltb_lt in E2 | apply Qltb_ge in E2];
      repeat split; intros; lra.
  - destruct (Qltb lo x) eqn:E2; [apply Qltb_lt in E2 | apply Qltb_ge in E2];
      repeat split; intros; lra.
Qed.

End PyFacts.

(** *** The particle swarm *)

Module PsoFacts.
Import Py PyFacts Pso.
Local Open Scope Q_scope.

Section WithTape.
Variable tape : nat -> Q.

(** **** Construction *)

Lemma uniform_Ok a b k :
  random_uniform tape a b k = Ok (a + (b - a) * tape k, S k).
Proof. reflexivity. Qed.

Lemma uniform_within a b k :
  unit_draws tape -> a <= b -> a <= a + (b - a) * tape k <= b.
Proof.
  intros Hu Hab. destruct (Hu k) as [H0 H1].
  assert (0 <= (b - a) * tape k) by (apply Qmult_le_0_compat; lra).
  assert (0 <= (b - a) * (1 - tape k)) by (apply Qmult_le_0_compat; lra).
  lra.
Qed.

Lemma Particle_init_Ok d b k :
  exists p, Particle_init tape d b k = Ok (p, k + 2 * d)%nat /\
            particle_wf d p /\ fresh p /\
            (unit_draws tape -> fst b <= snd b ->
             Forall (fun x => fst b <= x <= snd b) (position p)).
Proof.
  unfold Particle_init.
  destruct (comprehension_rule
              (fun x => unit_draws tape -> fst b <= snd b -> fst b <= x <= snd b)
              1 (random_uniform tape (fst b) (snd b))) with (n := d) (k := k)
    as (xs & Exs & Lxs & Pxs).
  { intros k0. eexists. rewrite uniform_Ok. split.
    - f_equal. f_equal. lia.
    - intros. now apply uniform_within. }
  destruct (comprehension_rule (fun _ => True) 1 (random_uniform tape (-1) 1))
    with (n := d) (k := (k + d * 1)%nat) as (vs & Evs & Lvs & _).
  { intros k0. eexists. rewrite uniform_Ok. split; [|exact I]. f_equal. f_equal. lia. }
  exists (mkParticle xs vs xs (objective_function xs)).
  rewrite (bind_step _ _ _ _ _ Exs), (bind_step _ _ _ _ _ Evs). unfold ret.
  split; [f_equal; f_equal; lia|].
  repeat split; auto. cbn.
  intros Hu Hb. eapply Forall_impl; [exact Pxs|]. cbn. auto.
Qed.

(** What [PSO.__init__] returns for a swarm of at least one particle. *)
Lemma PSO_init_Ok d b np mi k :
  (1 <= np)%nat ->
  exists pso p0 rest,
    PSO_init tape d b np mi k = Ok (pso, k + np * (2 * d))%nat /\
    dimension pso = d /\ bounds pso = b /\ max_iterations pso = mi /\
    particles pso = p0 :: rest /\ length (particles pso) = np /\
    gBest pso = position p0 /\ gBest_fitness pso = pBest_fitness p0 /\
    Forall fresh (particles pso) /\ wf pso /\
    (unit_draws tape -> fst b <= snd b -> in_bounds pso).
Proof.
  intros Hnp. unfold PSO_init.
  destruct (comprehension_rule
              (fun p => particle_wf d p /\ fresh p /\
                        (unit_draws tape -> fst b <= snd b ->
                         Forall (fun x => fst b <= x <= snd b) (position p)))
              (2 * d) (Particle_init tape d b)) with (n := np) (k := k)
    as (ps & Eps & Lps & Pps).
  { intros k0. destruct (Particle_init_Ok d b k0) as (p & E & H). eauto. }
  destruct ps as [|p0 rest]; [cbn in Lps; lia|].
  eexists _, p0, rest.
  rewrite (bind_step _ _ _ _ _ Eps). cbn [getitem lookup list_lookup].
  unfold bind, ret. cbn.
  repeat split; auto.
  - eapply Forall_impl; [exact Pps|]. cbn. tauto.
  - cbn. apply Forall_inv in Pps. apply Pps.
  - cbn. eapply Forall_impl; [exact Pps|]. cbn. tauto.
  - intros Hu Hb. unfold in_bounds. cbn.
    eapply Forall_impl; [exact Pps|]. cbn. tauto.
Qed.

Lemma PSO_init_empty d b mi k :
  PSO_init tape d b 0 mi k = Raise IndexError.
Proof. reflexivity. Qed.

(** **** The evaluation pass *)

Lemma same_params_refl s : same_params s s.
Proof. repeat split. Qed.

Lemma same_params_trans s1 s2 s3 :
  same_params s1 s2 -> same_params s2 s3 -> same_params s1 s3.
Proof. unfold same_params. intuition congruence. Qed.

Lemma evaluate_frame self p self' p' :
  evaluate self p = (self', p') ->
  same_params self self' /\ particles self' = particles self /\
  position p' = position p /\ velocity p' = velocity p /\
  (particle_wf (dimension self) p -> particle_wf (dimension self) p') /\
  (particle_wf (dimension self) p -> length (gBest self) = dimension self ->
   length (gBest self') = dimension self) /\
  (consistent self -> consistent self').
Proof.
  unfold evaluate. intros H. inversion H; subst; clear H.
  destruct (Qltb _ (pBest_fitness p)); destruct (Qltb _ (gBest_fitness self));
    cbn; repeat split; auto; unfold particle_wf in *; cbn in *; tauto.
Qed.

Lemma evaluate_all_frame ps : forall self self' ps',
  evaluate_all self ps = (self', ps') ->
  same_params self self' /\ particles self' = particles self /\
  map position ps' = map position ps /\ map velocity ps' = map velocity ps /\
  (Forall (particle_wf (dimension self)) ps ->
   Forall (particle_wf (dimension self)) ps' /\
   (length (gBest self) = dimension self -> length (gBest self') = dimension self)) /\
  (consistent self -> consistent self').
Proof.
  induction ps as [|p rest IH]; intros self self' ps'; cbn [evaluate_all].
  - intros H; inversion H; subst. repeat split; auto using same_params_refl.
  - destruct (evaluate self p) as [s1 p1] eqn:E1.
    destruct (evaluate_all s1 rest) as [s2 rest'] eqn:E2.
    intros H; inversion H; subst; clear H.
    apply evaluate_frame in E1 as (F1 & P1 & X1 & V1 & W1 & G1 & C1).
    apply IH in E2 as (F2 & P2 & X2 & V2 & W2 & C2).
    assert (D : dimension s1 = dimension self) by apply F1.
    rewrite D in W2.
    split; [eapply same_params_trans; eassumption|].
    split; [congruence|].
    split; [cbn; f_equal; assumption|].
    split; [cbn; f_equal; assumption|].
    split; [|auto].
    intros H. apply Forall_cons in H as [Hp Hr]. destruct (W2 Hr) as [Hr' Hg].
    split; [constructor; auto|]. auto.
Qed.

Lemma evaluation_pass_frame self :
  same_params self (evaluation_pass self) /\
  map position (particles (evaluation_pass self)) = map position (particles self) /\
  map velocity (particles (evaluation_pass self)) = map velocity (particles self) /\
  (wf self -> wf (evaluation_pass self)) /\
  (consistent self -> consistent (evaluation_pass self)).
Proof.
  unfold evaluation_pass.
  destruct (evaluate_all self (particles self)) as [s1 ps] eqn:E.
  apply evaluate_all_frame in E as (F & P & X & V & W & C).
  repeat split; try apply F; auto.
  - cbn. destruct H as [Hg Hp]. destruct (W Hp) as [_ Hg']. 
    destruct F as [D _]. cbn. rewrite D. auto.
  - cbn. destruct H as [Hg Hp]. destruct (W Hp) as [Hp' _].
    destruct F as [D _]. rewrite D. auto.
Qed.

Lemma evaluate_order self p self' p' :
  evaluate self p = (self', p') ->
  ((gBest_fitness self' = gBest_fitness self /\ gBest_fitness self <= fitness_of p) \/
   (gBest_fitness self' = fitness_of p /\ fitness_of p < gBest_fitness self)) /\
  ((pBest_fitness p' = pBest_fitness p /\ pBest_fitness p <= fitness_of p) \/
   (pBest_fitness p' = fitness_of p /\ fitness_of p < pBest_fitness p)).
Proof.
  unfold evaluate, fitness_of. intros H. inversion H; subst; clear H.
  destruct (Qltb _ (pBest_fitness p)) eqn:E1;
    [apply Qltb_lt in E1 | apply Qltb_ge in E1];
    (destruct (Qltb _ (gBest_fitness self)) eqn:E2;
     [apply Qltb_lt in E2 | apply Qltb_ge in E2]); cbn; split; auto.
Qed.



(** The evaluation pass and the least personal best.  Before the
    pass, each personal best is either no better than the global best
    or no better than the fitness about to be computed. *)
Lemma evaluate_all_least ps : forall self self' ps',
  evaluate_all self ps = (self', ps') ->
  Forall (fun p => gBest_fitness self <= pBest_fitness p \/
                   fitness_of p <= pBest_fitness p) ps ->
  gBest_fitness self' <= gBest_fitness self /\
  Forall (fun p' => gBest_fitness self' <= pBest_fitness p') ps' /\
  (gBest_fitness self' < gBest_fitness self ->
   Exists (fun p' => pBest_fitness p' == gBest_fitness self') ps') /\
  Forall2 (fun p p' => pBest_fitness p' <= pBest_fitness p) ps ps'.
Proof.
  induction ps as [|p rest IH]; intros self self' ps'; cbn [evaluate_all].
  - intros H _; inversion H; subst. repeat split; auto; try lra.
  - destruct (evaluate self p) as [s1 p1] eqn:E1.
    destruct (evaluate_all s1 rest) as [s2 rest'] eqn:E2.
    intros H Pre; inversion H; subst; clear H.
    apply Forall_cons in Pre as [Prep Prer].
    apply evaluate_order in E1 as [G1 B1].
    assert (Hg1 : gBest_fitness s1 <= gBest_fitness self /\
                  gBest_fitness s1 <= fitness_of p).
    { destruct G1 as [[-> ?]|[-> ?]]; split; lra. }
    destruct Hg1 as [Hg1 Hg1f].
    apply IH in E2 as (M2 & A2 & X2 & F2).
    2:{ eapply Forall_impl; [exact Prer|]. cbn. intros q [Hq|Hq]; [left; lra|now right]. }
    assert (Hp1 : gBest_fitness self' <= pBest_fitness p1).
    { destruct B1 as [[-> ?]|[-> ?]]; destruct Prep; lra. }
    split; [lra|].
    split; [constructor; auto|].
    split.
    + intros Hlt.
      destruct (Qlt_le_dec (gBest_fitness self') (gBest_fitness s1)) as [C|C].
      * apply Exists_cons_tl. auto.
      * apply Exists_cons_hd.
        destruct G1 as [[G1 ?]|[G1 L1]]; [rewrite G1 in *; lra|].
        rewrite G1 in *.
        destruct B1 as [[-> ?]|[-> ?]]; destruct Prep; lra.
    + constructor; auto. destruct B1 as [[-> ?]|[-> ?]]; lra.
Qed.

Lemma min_pBest_fitness_le p ps :
  Forall (fun q => min_pBest_fitness p ps <= pBest_fitness q) (p :: ps).
Proof.
  revert p. induction ps as [|q rest IH]; intros p; cbn [min_pBest_fitness].
  - constructor; [lra|constructor].
  - constructor; [apply Q.le_min_l|].
    eapply Forall_impl; [apply IH|]. cbn. intros x Hx.
    pose proof (Q.le_min_r (pBest_fitness p) (min_pBest_fitness q rest)). lra.
Qed.

Lemma min_pBest_fitness_attained p ps :
  Exists (fun q => pBest_fitness q == min_pBest_fitness p ps) (p :: ps).
Proof.
  revert p. induction ps as [|q rest IH]; intros p; cbn [min_pBest_fitness].
  - apply Exists_cons_hd. lra.
  - destruct (Q.min_spec (pBest_fitness p) (min_pBest_fitness q rest)) as [[_ E]|[_ E]].
    + apply Exists_cons_hd. now rewrite E.
    + apply Exists_cons_tl. eapply Exists_impl; [apply IH|].
      cbn. intros x Hx. now rewrite E.
Qed.

(** A value below every personal best that one of them attains is the
    least personal best. *)
Lemma min_pBest_fitness_char p ps g :
  Forall (fun q => g <= pBest_fitness q) (p :: ps) ->
  Exists (fun q => pBest_fitness q == g) (p :: ps) ->
  g == min_pBest_fitness p ps.
Proof.
  intros Hall Hex. apply Qle_antisym.
  - pose proof (min_pBest_fitness_attained p ps) as A.
    apply Exists_exists in A as (q & Hq & E).
    rewrite Forall_forall in Hall. specialize (Hall q Hq). lra.
  - apply Exists_exists in Hex as (q & Hq & E).
    pose proof (min_pBest_fitness_le p ps) as L.
    rewrite Forall_forall in L. specialize (L q Hq). lra.
Qed.

Lemma is_min_iff self :
  is_min self <->
  particles self <> [] /\
  Forall (fun q => gBest_fitness self <= pBest_fitness q) (particles self) /\
  Exists (fun q => pBest_fitness q == gBest_fitness self) (particles self).
Proof.
  unfold is_min, swarm_min. destruct (particles self) as [|p ps]; split.
  - intros (m & H & _). discriminate.
  - intros [H _]. congruence.
  - intros (m & H & E). inversion H; subst; clear H.
    split; [discriminate|]. split.
    + eapply Forall_impl; [apply min_pBest_fitness_le|]. cbn. intros; lra.
    + eapply Exists_impl; [apply min_pBest_fitness_attained|]. cbn. intros; lra.
  - intros (_ & A & X). eexists. split; [reflexivity|].
    now apply min_pBest_fitness_char.
Qed.

(** The evaluation pass makes the global best the least personal
    best, from the state a construction leaves as from a state where
    it already was. *)
Lemma evaluation_pass_is_min self :
  Forall (fun p => gBest_fitness self <= pBest_fitness p \/
                   fitness_of p <= pBest_fitness p) (particles self) ->
  Exists (fun p => pBest_fitness p <= gBest_fitness self) (particles self) ->
  is_min (evaluation_pass self).
Proof.
  intros Pre2 Pre1. apply is_min_iff. unfold evaluation_pass.
  destruct (evaluate_all self (particles self)) as [s1 ps] eqn:E.
  apply evaluate_all_least in E as (M & A & X & F); [|exact Pre2].
  cbn. split; [|split; [exact A|]].
  - intros ->. apply Forall2_nil_inv_r in F. rewrite F in Pre1.
    now apply Exists_nil in Pre1.
  - destruct (Qlt_le_dec (gBest_fitness s1) (gBest_fitness self)) as [C|C]; [auto|].
    apply Exists_exists in Pre1 as (p & Hp & Lp).
    apply list_elem_of_lookup in Hp as [i Hi].
    destruct (Forall2_lookup_l _ _ _ _ _ F Hi) as (p' & Hi' & Lp').
    apply Exists_exists. exists p'. split; [eapply list_elem_of_lookup_2; eauto|].
    rewrite Forall_forall in A.
    specialize (A p' ltac:(eapply list_elem_of_lookup_2; eauto)). lra.
Qed.

(** **** The move pass *)

Lemma move_coordinate_Ok self p i k v x pb g :
  velocity p !! i = Some v -> position p !! i = Some x ->
  pBest p !! i = Some pb -> gBest self !! i = Some g ->
  let v' := new_velocity self (tape k) (tape (S k)) v pb x g in
  move_coordinate tape self p i k =
  Ok (mkParticle (<[i := clamp self (x + v')]> (position p))
                 (<[i := v']> (velocity p)) (pBest p) (pBest_fitness p), S (S k)).
Proof.
  intros Hv Hx Hpb Hg v'. unfold move_coordinate.
  pose proof (lookup_lt_Some _ _ _ Hv) as Lv.
  pose proof (lookup_lt_Some _ _ _ Hx) as Lx.
  unfold bind at 1. cbn [random_random]. unfold bind at 1. cbn [random_random].
  rewrite (bind_step _ _ _ _ _ (getitem_Ok _ _ _ _ Hv)).
  rewrite (bind_step _ _ _ _ _ (getitem_Ok _ _ _ _ Hpb)).
  rewrite (bind_step _ _ _ _ _ (getitem_Ok _ _ _ _ Hx)).
  rewrite (bind_step _ _ _ _ _ (getitem_Ok _ _ _ _ Hg)).
  rewrite (bind_step _ _ _ _ _ (setitem_Ok _ _ _ _ Lv)).
  rewrite (bind_step _ _ _ _ _
             (getitem_Ok _ _ _ _ (list_lookup_insert_eq _ _ _ Lv))).
  rewrite (bind_step _ _ _ _ _ (setitem_Ok _ _ _ _ Lx)).
  rewrite (bind_step _ _ _ _ _
             (getitem_Ok _ _ _ _ (list_lookup_insert_eq _ _ _ Lx))).
  rewrite (bind_step _ _ _ _ _ (setitem_Ok _ _ _ _
             ltac:(rewrite length_insert; exact Lx))).
  unfold ret. now rewrite list_insert_insert_eq.
Qed.

Lemma move_particle_Ok self p k :
  particle_wf (dimension self) p -> length (gBest self) = dimension self ->
  exists p', move_particle tape self p k = Ok (p', k + 2 * dimension self)%nat /\
             moved_particle tape self k p p'.
Proof.
  intros (Lx & Lv & Lpb) Lg. unfold move_particle.
  set (d := dimension self) in *.
  destruct (for_each_seq_rule
    (fun i p' k' =>
       k' = (k + 2 * i)%nat /\ particle_wf d p' /\
       pBest p' = pBest p /\ pBest_fitness p' = pBest_fitness p /\
       (forall j, (j < i)%nat ->
          exists v' x', moved tape self p k j = Some (v', x') /\
                        velocity p' !! j = Some v' /\ position p' !! j = Some x') /\
       (forall j, (i <= j)%nat ->
          velocity p' !! j = velocity p !! j /\ position p' !! j = position p !! j))
    (move_coordinate tape self) d 0%nat p k) as (p' & k' & E & I).
  - repeat split; auto; try lia.
  - intros i q kq [_ Hi] (-> & (Lqx & Lqv & Lqpb) & Epb & Epf & Hdone & Htodo).
    destruct (Htodo i ltac:(lia)) as [Ev Ex].
    destruct (lookup_lt_is_Some_2 (velocity p) i ltac:(lia)) as [v Hv].
    destruct (lookup_lt_is_Some_2 (position p) i ltac:(lia)) as [x Hx].
    destruct (lookup_lt_is_Some_2 (pBest p) i ltac:(lia)) as [pb Hpb].
    destruct (lookup_lt_is_Some_2 (gBest self) i ltac:(lia)) as [g Hg].
    eexists _, _. split.
    { apply move_coordinate_Ok with (v := v) (x := x) (pb := pb) (g := g);
        congruence. }
    cbn. split; [lia|]. split.
    { unfold particle_wf. cbn. rewrite !length_insert. auto. }
    split; [auto|]. split; [auto|]. split.
    + intros j Hj. destruct (decide (j = i)) as [->|Hne].
      * eexists _, _. unfold moved. rewrite Hv, Hx, Hpb, Hg.
        split; [reflexivity|].
        replace (k + 2 * i + 1)%nat with (S (k + 2 * i)) by lia.
        split; apply list_lookup_insert_eq; lia.
      * destruct (Hdone j ltac:(lia)) as (v' & x' & Em & Ev' & Ex').
        exists v', x'. rewrite !list_lookup_insert_ne by auto. auto.
    + intros j Hj. rewrite !list_lookup_insert_ne by lia. apply Htodo. lia.
  - destruct I as (-> & W & Epb & Epf & Hdone & _).
    exists p'. split; [exact E|]. repeat split; auto; apply W.
Qed.

Lemma move_all_Ok self ps : forall k,
  Forall (particle_wf (dimension self)) ps -> length (gBest self) = dimension self ->
  exists ps',
    move_all tape self ps k = Ok (ps', k + 2 * dimension self * length ps)%nat /\
    length ps' = length ps /\
    forall n p, ps !! n = Some p ->
      exists p', ps' !! n = Some p' /\
                 moved_particle tape self (k + 2 * dimension self * n) p p'.
Proof.
  induction ps as [|p rest IH]; intros k Hwf Lg; cbn [move_all].
  - exists []. unfold ret. cbn. split; [f_equal; f_equal; lia|]. split; auto.
    intros n p H. rewrite lookup_nil in H. discriminate.
  - apply Forall_cons in Hwf as [Hp Hr].
    destruct (move_particle_Ok self p k Hp Lg) as (p' & Ep & Mp).
    destruct (IH (k + 2 * dimension self)%nat Hr Lg) as (rest' & Er & Lr & Mr).
    exists (p' :: rest').
    rewrite (bind_step _ _ _ _ _ Ep), (bind_step _ _ _ _ _ Er). unfold ret.
    split; [f_equal; f_equal; cbn [length]; lia|].
    split; [cbn; lia|].
    intros [|n] q Hq; cbn in Hq.
    + inversion Hq; subst. exists p'. split; [reflexivity|].
      now replace (k + 2 * dimension self * 0)%nat with k by lia.
    + destruct (Mr n q Hq) as (q' & Hq' & Mq). exists q'. split; [exact Hq'|].
      now replace (k + 2 * dimension self * S n)%nat
        with (k + 2 * dimension self + 2 * dimension self * n)%nat by lia.
Qed.

(** The move pass of a well-formed swarm always completes; it reads
    two draws per coordinate and leaves every best untouched. *)
Lemma move_pass_Ok self k :
  wf self ->
  exists self',
    move_pass tape self k =
      Ok (self', k + 2 * dimension self * length (particles self))%nat /\
    same_params self self' /\ gBest self' = gBest self /\
    gBest_fitness self' = gBest_fitness self /\ wf self' /\
    length (particles self') = length (particles self) /\
    forall n p, particles self !! n = Some p ->
      exists p', particles self' !! n = Some p' /\
                 moved_particle tape self (k + 2 * dimension self * n) p p'.
Proof.
  intros [Lg Hwf]. unfold move_pass.
  destruct (move_all_Ok self (particles self) k Hwf Lg) as (ps' & E & L & Mv).
  exists (set_particles self ps'). rewrite (bind_step _ _ _ _ _ E). unfold ret.
  split; [reflexivity|]. split; [repeat split|].
  repeat split; auto. cbn.
  apply Forall_lookup. intros n p' Hp'.
  destruct (lookup_lt_is_Some_2 (particles self) n) as [p Hp].
  { rewrite <- L. eapply lookup_lt_Some; eauto. }
  destruct (Mv n p Hp) as (q & Hq & W & _). congruence.
Qed.

Lemma moved_particle_in_bounds self k p p' :
  fst (bounds self) <= snd (bounds self) ->
  moved_particle tape self k p p' ->
  Forall (fun x => fst (bounds self) <= x <= snd (bounds self)) (position p').
Proof.
  intros Hb ((Lx & _) & _ & _ & Mv). apply Forall_lookup. intros i x Hx.
  destruct (Mv i) as (v' & x' & Em & _ & Ex').
  { rewrite <- Lx. eapply lookup_lt_Some; eauto. }
  unfold moved in Em.
  destruct (velocity p !! i), (position p !! i), (pBest p !! i), (gBest self !! i);
    try discriminate.
  inversion Em; subst. rewrite Hx in Ex'. inversion Ex'; subst.
  now apply clamp_in_bounds.
Qed.

(** **** Rounds of the outer loop *)

Lemma move_pass_keeps_fitness self self' (kf : nat -> nat) :
  length (particles self') = length (particles self) ->
  (forall n p, particles self !! n = Some p ->
     exists p', particles self' !! n = Some p' /\ moved_particle tape self (kf n) p p') ->
  map pBest_fitness (particles self') = map pBest_fitness (particles self).
Proof.
  intros L Mv. apply list_eq. intros n. rewrite !list_lookup_fmap.
  destruct (particles self !! n) as [p|] eqn:Hp.
  - destruct (Mv n p Hp) as (p' & Hp' & M).
    rewrite Hp'; cbn; f_equal; apply M.
  - apply lookup_ge_None in Hp. rewrite <- L in Hp.
    apply lookup_ge_None in Hp. now rewrite Hp.
Qed.

(** A round of a well-formed swarm completes. [P] is what the
    evaluation pass needs, [Q] what it establishes and the move pass
    keeps. *)
Lemma iterations_rule (P Q : PSO -> Prop) :
  (forall s, wf s -> P s -> Q (evaluation_pass s)) ->
  (forall s s' k, wf s -> Q s ->
     move_pass tape s k =
       Ok (s', k + 2 * dimension s * length (particles s))%nat ->
     (forall n p, particles s !! n = Some p ->
        exists p', particles s' !! n = Some p' /\
                   moved_particle tape s (k + 2 * dimension s * n) p p') ->
     same_params s s' -> gBest s' = gBest s -> gBest_fitness s' = gBest_fitness s ->
     length (particles s') = length (particles s) ->
     P s' /\ Q s') ->
  forall n self k, wf self -> P self ->
    exists self' k', iterations tape n self k = Ok (self', k') /\
                     wf self' /\ P self' /\ same_params self self' /\
                     length (particles self') = length (particles self) /\
                     ((1 <= n)%nat -> Q self').
Proof.
  intros HE HM. induction n as [|n IH]; intros self k Hwf HP.
  - exists self, k. cbn. unfold ret.
    repeat split; auto; try apply Hwf. intros C. lia.
  - destruct (IH self k Hwf HP) as (s1 & k1 & E1 & W1 & P1 & F1 & L1 & _).
    unfold iterations in *. rewrite repeat_n_snoc, (bind_step _ _ _ _ _ E1).
    unfold iteration.
    pose proof (evaluation_pass_frame s1) as (Fe & Xe & Ve & We & _).
    specialize (We W1).
    destruct (move_pass_Ok (evaluation_pass s1) k1 We)
      as (s2 & E2 & F2 & G2 & GF2 & W2 & L2 & Mv).
    destruct (HM _ _ _ We (HE _ W1 P1) E2 Mv F2 G2 GF2 L2) as [P2 Q2].
    exists s2. eexists. split; [exact E2|].
    split; [exact W2|]. split; [exact P2|].
    split; [eauto using same_params_trans|].
    split; [|auto].
    rewrite L2, <- L1. rewrite <- (length_map position), Xe, length_map.
    reflexivity.
Qed.

Lemma in_bounds_evaluation_pass self :
  in_bounds self -> in_bounds (evaluation_pass self).
Proof.
  pose proof (evaluation_pass_frame self) as (F & X & _).
  unfold in_bounds. destruct F as (_ & -> & _). intros H.
  rewrite <- (Forall_fmap position
    (Forall (fun x => fst (bounds self) <= x <= snd (bounds self)))) in *.
  change (position <$> particles (evaluation_pass self) = position <$> particles self)
    in X.
  now rewrite X.
Qed.

Lemma is_min_ready self :
  is_min self ->
  Forall (fun p => gBest_fitness self <= pBest_fitness p \/
                   fitness_of p <= pBest_fitness p) (particles self) /\
  Exists (fun p => pBest_fitness p <= gBest_fitness self) (particles self).
Proof.
  intros H. apply is_min_iff in H as (_ & A & X). split.
  - eapply Forall_impl; [exact A|]. cbn. auto.
  - eapply Exists_impl; [exact X|]. cbn. intros; lra.
Qed.

Lemma is_min_transport self self' :
  map pBest_fitness (particles self') = map pBest_fitness (particles self) ->
  gBest_fitness self' = gBest_fitness self ->
  is_min self -> is_min self'.
Proof.
  intros Hm Hg H. apply is_min_iff in H as (N & A & X). apply is_min_iff.
  change (pBest_fitness <$> particles self' = pBest_fitness <$> particles self) in Hm.
  rewrite Hg. split; [|split].
  - intros E. rewrite E in Hm. destruct (particles self); [auto|discriminate].
  - rewrite <- (Forall_fmap pBest_fitness (fun q => gBest_fitness self <= q)) in *.
    now rewrite Hm.
  - rewrite <- (Exists_fmap pBest_fitness (fun q => q == gBest_fitness self)) in *.
    now rewrite Hm.
Qed.

End WithTape.

(** The swarm a constructor call returned is the one [PSO_init_Ok]
    describes. *)
Ltac same_swarm E0 E :=
  rewrite E0 in E;
  match type of E with
  | Ok (?p, ?k) = Ok (?p', ?k') =>
      assert (p' = p) by congruence; assert (k = k') by congruence;
      subst p' k; clear E
  end.

End PsoFacts.

Module ExampleFacts.
Import Py Examples.
Local Open Scope Q_scope.

Lemma cycle_tape_unit_draws : unit_draws cycle_tape.
Proof.
  intros k. unfold cycle_tape.
  pose proof (Nat.mod_upper_bound k 4 ltac:(lia)) as Hk.
  destruct (k mod 4)%nat as [|[|[|[|m]]]]; cbn; [lra..|lia].
Qed.
End ExampleFacts.

(** *** Where floats and int64 agree with exact arithmetic *)

Module MachineFacts.
Import Py PyFacts Np Pso Aco Machine PsoFacts Examples MoreExamples.
Local Open Scope Q_scope.

Lemma Qle_bool_false x y : Qle_bool x y = false <-> y < x.
Proof.
  split.
  - intros H. apply Qnot_le_lt. intros C. apply Qle_bool_iff in C. congruence.
  - intros H. destruct (Qle_bool x y) eqn:E; [|reflexivity].
    apply Qle_bool_iff in E. lra.
Qed.

Lemma float_sub_finite b a :
  Qabs (b - a) < overflow_threshold -> float_sub b a = Fin (b - a).
Proof.
  intros H. unfold float_sub.
  now rewrite (proj2 (Qle_bool_false _ _) H).
Qed.

Lemma uniform_float_finite a b u :
  Qabs (b - a) < overflow_threshold ->
  uniform_float a b u = Fin (a + (b - a) * u).
Proof.
  intros H. unfold uniform_float. now rewrite (float_sub_finite _ _ H).
Qed.

Lemma wrap_int64_exact z :
  (- 2 ^ 63 <= z < 2 ^ 63)%Z -> wrap_int64 z = z.
Proof.
  intros H. unfold wrap_int64. rewrite Z.mod_small; lia.
Qed.

Lemma inject_Z_minus x y : inject_Z (x - y) = inject_Z x - inject_Z y.
Proof.
  unfold inject_Z, Qminus, Qplus, Qopp. cbn [Qnum Qden].
  f_equal. rewrite !Z.mul_1_r. lia.
Qed.

Lemma np_subtract_int64_exact (a : list Z) : forall b,
  Forall (fun x => (Z.abs x < 2 ^ 62)%Z) a ->
  Forall (fun x => (Z.abs x < 2 ^ 62)%Z) b ->
  map inject_Z (np_subtract_int64 a b) =
  zip_with Qminus (map inject_Z a) (map inject_Z b).
Proof.
  induction a as [|x a IH]; intros [|y b] Ha Hb; cbn; auto.
  inversion Ha; subst. inversion Hb; subst.
  unfold np_subtract_int64 in IH. rewrite IH by assumption.
  f_equal. rewrite wrap_int64_exact by lia. apply inject_Z_minus.
Qed.





Lemma uniform_float_exact tape a b k :
  Qabs (b - a) < overflow_threshold ->
  exists q, random_uniform tape a b k = Ok (q, S k) /\
            uniform_float a b (tape k) = Fin q.
Proof.
  intros H. eexists. split; [apply uniform_Ok|]. now apply uniform_float_finite.
Qed.

Lemma comprehension_uniform tape a b n : forall k,
  comprehension n (random_uniform tape a b) k =
  Ok (map (fun i => a + (b - a) * tape (k + i)%nat) (seq 0 n), (k + n)%nat).
Proof.
  induction n as [|n IH]; intros k.
  - cbn. unfold ret. f_equal. f_equal. lia.
  - cbn [comprehension]. rewrite (bind_step _ _ _ _ _ (uniform_Ok tape a b k)).
    rewrite (bind_step _ _ _ _ _ (IH (S k))). unfold ret.
    f_equal. f_equal; [|lia].
    cbn [seq map]. rewrite Nat.add_0_r. f_equal.
    rewrite <- seq_shift, map_map. apply map_ext. intros i.
    now replace (S k + i)%nat with (k + S i)%nat by lia.
Qed.

(** For a width that is a finite float the position a particle is
    constructed with is the one drawn on floats. *)
Lemma drawn_position_exact tape d b k p k' :
  finite_width b ->
  Particle_init tape d b k = Ok (p, k') ->
  drawn_position tape d b k = map Fin (position p).
Proof.
  intros Hw E. unfold Particle_init in E.
  rewrite (bind_step _ _ _ _ _ (comprehension_uniform tape _ _ d k)) in E.
  rewrite (bind_step _ _ _ _ _ (comprehension_uniform tape _ _ d _)) in E.
  injection E as <- _. cbn [position]. unfold drawn_position.
  rewrite map_map. apply map_ext. intros i.
  now apply uniform_float_finite.
Qed.



End MachineFacts.

(** *** The particle swarm: the properties claimed of it *)

Module PsoClaims.
Import Py PyFacts Np Pso Machine PsoFacts Examples MoreExamples.
Local Open Scope Q_scope.

(** C1, as stated, fails.  Right after construction the global best is
    the personal best of particle 0, which need not be the least: here
    particle 0 starts at 5 (fitness 25) and particle 1 at 0 (fitness 0).
    With no round to run, [optimize] returns that seed as it is. *)
Lemma gBest_fitness_seeded_from_particle_0 :
  exists pso k1 s k2,
    PSO_init seed_tape 1 (-10, 10) 2 0 0%nat = Ok (pso, k1) /\
    gBest_fitness pso = (20 # 4) ^ 2 /\
    swarm_min pso = Some (Qmin ((20 # 4) ^ 2) ((0 # 2) ^ 2)) /\
    ~ is_min pso /\
    optimize seed_tape pso k1 = Ok (gBest pso, gBest_fitness pso, s, k2) /\
    ~ is_min s.
Proof.
  eexists _, _, _, _. split; [vm_compute; reflexivity|].
  split; [reflexivity|]. split; [reflexivity|].
  split; [|split; [vm_compute; reflexivity|]].
  - intros (m & Hm & E). vm_compute in Hm. inversion Hm; subst; clear Hm.
    vm_compute in E. discriminate.
  - intros (m & Hm & E). vm_compute in Hm. inversion Hm; subst; clear Hm.
    vm_compute in E. discriminate.
Qed.

(** C1, amended.  For bounds whose width is a finite float (a wider
    pair makes [random.uniform] return an infinity or a NaN, which has
    no place in an order), in every run that returns: the global best
    is seeded from particle 0, and from the end of the first evaluation
    pass on the global best fitness is the least personal-best fitness,
    at the end of every evaluation pass and at the end of every round
    (move pass). *)
Theorem gBest_fitness_is_least_pBest_fitness tape d b np mi k pso k1 :
  finite_width b ->
  PSO_init tape d b np mi k = Ok (pso, k1) ->
  (exists p0, particles pso !! 0%nat = Some p0 /\
              gBest pso = position p0 /\ gBest_fitness pso = pBest_fitness p0) /\
  (forall j s k2, after_evaluation tape j pso k1 = Ok (s, k2) -> is_min s) /\
  (forall n s k2, (1 <= n)%nat -> iterations tape n pso k1 = Ok (s, k2) -> is_min s).
Proof.
  intros _ E0.
  assert (Hnp : (1 <= np)%nat).
  { destruct np; [rewrite PSO_init_empty in E0; discriminate|lia]. }
  destruct (PSO_init_Ok tape d b np mi k Hnp)
    as (pso' & p0 & rest & E & _ & _ & _ & Eps & _ & Egp & Eg & Hfresh & Hwf & _).
  same_swarm E0 E.
  split; [exists p0; rewrite Eps; auto|].
  set (P := fun s : PSO =>
    Forall (fun p => gBest_fitness s <= pBest_fitness p \/
                     fitness_of p <= pBest_fitness p) (particles s) /\
    Exists (fun p => pBest_fitness p <= gBest_fitness s) (particles s)).
  assert (P0 : P pso).
  { split.
    - eapply Forall_impl; [exact Hfresh|]. cbn. intros p [_ Hp]. right.
      unfold fitness_of. rewrite Hp. lra.
    - rewrite Eps. apply Exists_cons_hd. rewrite Eg. lra. }
  assert (R : forall n, exists s k2,
             iterations tape n pso (k + np * (2 * d))%nat = Ok (s, k2) /\ wf s /\ P s /\
             ((1 <= n)%nat -> is_min s)).
  { intros n.
    destruct (iterations_rule tape P is_min) with (n := n) (self := pso)
      (k := (k + np * (2 * d))%nat) as (s & k2 & Es & Ws & Ps & _ & _ & Qs); auto.
    - intros s _ [A X]. now apply evaluation_pass_is_min.
    - intros s s' k0 _ Hmin _ Mv _ _ Gf L.
      assert (is_min s').
      { eapply is_min_transport; [|exact Gf|exact Hmin].
        eapply move_pass_keeps_fitness with
          (kf := fun n => (k0 + 2 * dimension s * n)%nat); eauto. }
      split; [now apply is_min_ready|assumption].
    - exists s, k2. auto. }
  split.
  - intros j s k2 Ej. destruct (R j) as (s' & k2' & Es & _ & [A X] & _).
    unfold after_evaluation in Ej. rewrite (bind_step _ _ _ _ _ Es) in Ej.
    injection Ej as <- <-. now apply evaluation_pass_is_min.
  - intros n s k2 Hn En. destruct (R n) as (s' & k2' & Es & _ & _ & Hs).
    rewrite En in Es. injection Es as <- <-. auto.
Qed.

Lemma gBest_fitness_is_least_pBest_fitness_witness :
  finite_width (-10, 10) /\
  exists pso k1,
    PSO_init seed_tape 1 (-10, 10) 2 3 0%nat = Ok (pso, k1) /\
    (exists p0, particles pso !! 0%nat = Some p0 /\
                gBest pso = position p0 /\ gBest_fitness pso = pBest_fitness p0) /\
    (forall j s k2, after_evaluation seed_tape j pso k1 = Ok (s, k2) -> is_min s) /\
    (forall n s k2, (1 <= n)%nat -> iterations seed_tape n pso k1 = Ok (s, k2) -> is_min s).
Proof.
  assert (Hw : finite_width (-10, 10)) by (vm_compute; reflexivity).
  split; [exact Hw|].
  destruct (PSO_init seed_tape 1 (-10, 10) 2 3 0%nat) as [[pso k1]| |] eqn:E.
  - exists pso, k1. split; [reflexivity|].
    exact (gBest_fitness_is_least_pBest_fitness seed_tape 1 (-10, 10) 2 3 0%nat pso k1 Hw E).
  - vm_compute in E. discriminate.
  - vm_compute in E. discriminate.
Defined.





(** C7, as stated, fails.  The bounds [(-2.0**1023, 2.0**1023)] are
    floats and ordered, yet their width overflows to an infinity;
    [random.uniform] then returns an infinity on the draw 1/2 and a NaN
    on the draw 0, so the position a particle of dimension 1 is
    constructed with is no point of the search space. *)
Lemma wide_bounds_are_left_at_construction :
  fst wide_bounds <= snd wide_bounds /\
  binary64 (fst wide_bounds) /\ binary64 (snd wide_bounds) /\
  ~ finite_width wide_bounds /\
  drawn_position (tape_of [1 # 2]) 1 wide_bounds 0 = [PInf] /\
  drawn_position (tape_of [0]) 1 wide_bounds 0 = [NaN] /\
  ~ Forall (float_within wide_bounds) [PInf] /\
  ~ Forall (float_within wide_bounds) [NaN].
Proof.
  split; [vm_compute; discriminate|].
  split; [exists (- 2 ^ 52)%Z, 971%Z; repeat split; try lia; vm_compute; reflexivity|].
  split; [exists (2 ^ 52)%Z, 971%Z; repeat split; try lia; vm_compute; reflexivity|].
  split; [intros H; vm_compute in H; discriminate|].
  split; [vm_compute; reflexivity|]. split; [vm_compute; reflexivity|].
  split; intros H; apply Forall_inv in H; exact H.
Qed.

(** The clamp: a round started from any well-formed swarm with
    [lower <= upper] ends with every particle within the bounds. *)
Lemma round_ends_within_bounds tape self k s k' :
  wf self -> fst (bounds self) <= snd (bounds self) ->
  iteration tape self k = Ok (s, k') ->
  bounds s = bounds self /\ in_bounds s.
Proof.
  intros Hwf Hb E. unfold iteration in E.
  pose proof (evaluation_pass_frame self) as ((_ & Be & _) & _ & _ & We & _).
  destruct (move_pass_Ok tape (evaluation_pass self) k (We Hwf))
    as (s' & E' & (_ & Bs' & _) & _ & _ & _ & L & Mv).
  rewrite E in E'. injection E' as <- ->.
  split; [congruence|]. unfold in_bounds. rewrite Bs'.
  apply Forall_lookup. intros i p' Hp'.
  destruct (lookup_lt_is_Some_2 (particles (evaluation_pass self)) i) as [p Hp].
  { rewrite <- L. eapply lookup_lt_Some; eauto. }
  destruct (Mv i p Hp) as (q & Hq & M).
  assert (q = p') by congruence. subst q.
  eapply moved_particle_in_bounds; [|exact M]. now rewrite Be.
Qed.

(** C7, amended.  With bounds [lower <= upper] and draws in [0, 1), in
    every run that returns: every coordinate of every particle lies
    within the bounds after every round (that is, after every move
    pass: the clamp sees to it, from whatever swarm the round started)
    and after every evaluation pass that follows one; right after
    construction, and in the evaluation pass of the first round, it
    does so provided the bounds are floats whose width is a finite
    float. *)
Theorem positions_stay_within_bounds tape d b np mi k pso k1 :
  unit_draws tape -> fst b <= snd b ->
  PSO_init tape d b np mi k = Ok (pso, k1) ->
  bounds pso = b /\
  (float_bounds b -> in_bounds pso) /\
  (forall n s k2, iterations tape n pso k1 = Ok (s, k2) ->
     bounds s = b /\ ((1 <= n)%nat \/ float_bounds b -> in_bounds s)) /\
  (forall j s k2, after_evaluation tape j pso k1 = Ok (s, k2) ->
     bounds s = b /\ ((1 <= j)%nat \/ float_bounds b -> in_bounds s)) /\
  (forall self k0 s k2,
     wf self -> fst (bounds self) <= snd (bounds self) ->
     iteration tape self k0 = Ok (s, k2) -> in_bounds s).
Proof.
  intros Hu Hb E0.
  assert (Hnp : (1 <= np)%nat).
  { destruct np; [rewrite PSO_init_empty in E0; discriminate|lia]. }
  destruct (PSO_init_Ok tape d b np mi k Hnp)
    as (pso' & p0 & rest & E & _ & Eb & _ & _ & _ & _ & _ & _ & Hwf & Hin).
  same_swarm E0 E.
  specialize (Hin Hu Hb).
  assert (R : forall n s k2, iterations tape n pso (k + np * (2 * d))%nat = Ok (s, k2) ->
             wf s /\ bounds s = b /\ ((1 <= n)%nat \/ float_bounds b -> in_bounds s)).
  { induction n as [|n IH]; intros s k2 En.
    - cbn in En. injection En as <- <-. auto.
    - unfold iterations in En. rewrite repeat_n_snoc in En.
      apply bind_Ok in En as (s1 & k3 & E1 & E2).
      destruct (IH s1 k3 E1) as (W1 & B1 & _).
      rewrite <- B1 in Hb.
      destruct (round_ends_within_bounds tape s1 k3 s k2 W1 Hb E2) as [B2 I2].
      split; [|split; [congruence|auto]].
      pose proof (evaluation_pass_frame s1) as (_ & _ & _ & We & _).
      destruct (move_pass_Ok tape (evaluation_pass s1) k3 (We W1))
        as (s' & E' & _ & _ & _ & W' & _).
      unfold iteration in E2. rewrite E2 in E'. now injection E' as <- _. }
  split; [exact Eb|]. split; [auto|]. split; [|split].
  - intros n s k2 En. destruct (R n s k2 En) as (_ & Bs & Is). auto.
  - intros j s k2 Ej. unfold after_evaluation in Ej.
    apply bind_Ok in Ej as (s1 & k3 & E1 & E2). injection E2 as <- <-.
    destruct (R j s1 k3 E1) as (_ & Bs & Is).
    pose proof (evaluation_pass_frame s1) as ((_ & Be & _) & _).
    split; [congruence|]. intros H. apply in_bounds_evaluation_pass. auto.
  - intros self k0 s k2 W Hs Es.
    now destruct (round_ends_within_bounds tape self k0 s k2 W Hs Es).
Qed.

Lemma positions_stay_within_bounds_witness :
  unit_draws cycle_tape /\ fst (-10, 10) <= snd (-10, 10) /\
  exists pso k1,
    PSO_init cycle_tape 2 (-10, 10) 2 3 0%nat = Ok (pso, k1) /\
    bounds pso = (-10, 10) /\
    (float_bounds (-10, 10) -> in_bounds pso) /\
    (forall n s k2, iterations cycle_tape n pso k1 = Ok (s, k2) ->
       bounds s = (-10, 10) /\
       ((1 <= n)%nat \/ float_bounds (-10, 10) -> in_bounds s)) /\
    (forall j s k2, after_evaluation cycle_tape j pso k1 = Ok (s, k2) ->
       bounds s = (-10, 10) /\
       ((1 <= j)%nat \/ float_bounds (-10, 10) -> in_bounds s)) /\
    (forall self k0 s k2,
       wf self -> fst (bounds self) <= snd (bounds self) ->
       iteration cycle_tape self k0 = Ok (s, k2) -> in_bounds s).
Proof.
  pose proof ExampleFacts.cycle_tape_unit_draws as Hu.
  assert (Hb : fst (-10, 10) <= snd (-10, 10)) by (cbn; lra).
  split; [exact Hu|]. split; [exact Hb|].
  destruct (PSO_init cycle_tape 2 (-10, 10) 2 3 0%nat) as [[pso k1]| |] eqn:E.
  - exists pso, k1. split; [reflexivity|].
    exact (positions_stay_within_bounds cycle_tape 2 (-10, 10) 2 3 0%nat pso k1 Hu Hb E).
  - vm_compute in E. discriminate.
  - vm_compute in E. discriminate.
Defined.

(** C4.  The move pass of a well-formed swarm completes.  Coordinate
    [i] of particle [n] reads two draws [r1], [r2] that no other
    coordinate reads; its new velocity is
    [w*v + c1*r1*(pBest[i] - x) + c2*r2*(gBest[i] - x)], stored as it
    is, and its new position is the old position plus the new velocity
    passed through [max(lower, min(., upper))], which for
    [lower <= upper] is the nearest point of the interval. *)
Theorem move_pass_updates_velocity_then_position tape self k :
  wf self ->
  exists self',
    move_pass tape self k =
      Ok (self', k + 2 * dimension self * length (particles self))%nat /\
    gBest self' = gBest self /\ gBest_fitness self' = gBest_fitness self /\
    (forall n i n' i',
        (i < dimension self)%nat -> (i' < dimension self)%nat ->
        (k + 2 * dimension self * n + 2 * i
         = k + 2 * dimension self * n' + 2 * i')%nat ->
        n = n' /\ i = i') /\
    forall n i p v x pBest_i gBest_i,
      particles self !! n = Some p ->
      velocity p !! i = Some v -> position p !! i = Some x ->
      pBest p !! i = Some pBest_i -> gBest self !! i = Some gBest_i ->
      let r1 := tape (k + 2 * dimension self * n + 2 * i)%nat in
      let r2 := tape (k + 2 * dimension self * n + 2 * i + 1)%nat in
      let v' := w self * v + c1 self * r1 * (pBest_i - x)
                + c2 self * r2 * (gBest_i - x) in
      let lower := fst (bounds self) in
      let upper := snd (bounds self) in
      let x' := py_max lower (py_min (x + v') upper) in
      exists p',
        particles self' !! n = Some p' /\
        pBest p' = pBest p /\ pBest_fitness p' = pBest_fitness p /\
        velocity p' !! i = Some v' /\
        position p' !! i = Some x' /\
        (lower <= upper ->
         lower <= x' <= upper /\
         (x + v' < lower -> x' == lower) /\
         (upper < x + v' -> x' == upper) /\
         (lower <= x + v' <= upper -> x' == x + v')).
Proof.
  intros Hwf.
  destruct (move_pass_Ok tape self k Hwf) as (self' & E & _ & G & Gf & _ & _ & Mv).
  exists self'. split; [exact E|]. split; [exact G|]. split; [exact Gf|].
  split.
  { intros n i n' i' Hi Hi' Heq.
    destruct (lt_eq_lt_dec n n') as [[Hlt| ->]|Hlt]; [nia|lia|nia]. }
  intros n i p v x pb g Hp Hv Hx Hpb Hg r1 r2 v' lower upper x'.
  destruct (Mv n p Hp) as (p' & Hp' & _ & Epb & Epf & M).
  destruct (M i) as (v1 & x1 & Em & Hv1 & Hx1).
  { destruct Hwf as [_ Hwf]. rewrite Forall_lookup in Hwf.
    destruct (Hwf n p Hp) as (_ & <- & _). eapply lookup_lt_Some; eauto. }
  unfold moved in Em. rewrite Hv, Hx, Hpb, Hg in Em. inversion Em; subst v1 x1.
  exists p'. repeat split; auto.
  - now apply clamp_in_bounds.
  - now apply clamp_in_bounds.
  - intros. now apply clamp_spec.
  - intros. now apply clamp_spec.
  - intros. now apply clamp_spec.
Qed.

Lemma move_pass_updates_velocity_then_position_witness :
  wf small_swarm /\
  exists self' p' v' x',
    move_pass cycle_tape small_swarm 0%nat = Ok (self', 8%nat) /\
    particles self' !! 1%nat = Some p' /\
    velocity p' !! 0%nat = Some v' /\ v' == - (111 # 5) /\
    position p' !! 0%nat = Some x' /\ x' == -10.
Proof.
  assert (Hwf : wf small_swarm).
  { split; [reflexivity|]. repeat constructor. }
  split; [exact Hwf|].
  destruct (move_pass_updates_velocity_then_position cycle_tape small_swarm 0%nat Hwf)
    as (self' & E & _ & _ & _ & H).
  destruct (H 1%nat 0%nat (mkParticle [9; 9] [-30; 2] [1; 2] 5) (-30) 9 1 1
              eq_refl eq_refl eq_refl eq_refl eq_refl)
    as (p' & Hp' & _ & _ & Hv & Hx & _).
  exists self', p'. eexists _, _.
  split; [exact E|]. split; [exact Hp'|].
  split; [exact Hv|]. split; [vm_compute; reflexivity|].
  split; [exact Hx|]. vm_compute. reflexivity.
Defined.

End PsoClaims.

(** *** numpy's floats and its sampler *)

Module NpFacts.
Import Py PyFacts Np Pso.
Local Open Scope Q_scope.

Lemma Qltb_proper a a' b b' : a == a' -> b == b' -> Qltb a b = Qltb a' b'.
Proof.
  intros Ha Hb.
  destruct (Qltb a b) eqn:E1; destruct (Qltb a' b') eqn:E2; auto;
    rewrite ?Qltb_lt, ?Qltb_ge in *; lra.
Qed.

Lemma Qeq_bool_proper a a' : a == a' -> Qeq_bool a 0 = Qeq_bool a' 0.
Proof.
  intros Ha. destruct (Qeq_bool a 0) eqn:E1; destruct (Qeq_bool a' 0) eqn:E2; auto.
  - apply Qeq_bool_iff in E1. apply Qeq_bool_neq in E2. lra.
  - apply Qeq_bool_iff in E2. apply Qeq_bool_neq in E1. lra.
Qed.

Lemma inf_times_proper a a' : a == a' -> inf_times a = inf_times a'.
Proof.
  intros Ha. unfold inf_times.
  now rewrite (Qltb_proper 0 0 a a'), (Qltb_proper a a' 0 0) by (auto; lra).
Qed.

Lemma inf_times_zero z : z == 0 -> inf_times z = NaN.
Proof.
  intros Hz. unfold inf_times.
  destruct (Qltb 0 z) eqn:E1; [apply Qltb_lt in E1; lra|].
  destruct (Qltb z 0) eqn:E2; [apply Qltb_lt in E2; lra|]. reflexivity.
Qed.

(** The strict order of floats is transitive and irreflexive. *)
Lemma fltb_trans x y z : fltb x y = true -> fltb y z = true -> fltb x z = true.
Proof.
  destruct x, y, z; cbn; try congruence. rewrite !Qltb_lt. lra.
Qed.

Lemma fltb_irrefl x : fltb x x = false.
Proof. destruct x; cbn; auto. apply Qltb_ge. lra. Qed.

(** A NaN among the probabilities makes their compensated sum a NaN. *)
Lemma kahan_fold_nan xs : forall c, fst (fold_left kahan_step xs (NaN, c)) = NaN.
Proof.
  induction xs as [|x xs IH]; intros c; [reflexivity|].
  cbn [fold_left]. unfold kahan_step at 2. cbn [fst snd fadd]. apply IH.
Qed.

Lemma kahan_fold_nan_in xs : forall s c,
  NaN ∈ xs -> fst (fold_left kahan_step xs (s, c)) = NaN.
Proof.
  induction xs as [|x xs IH]; intros s c Hin.
  - now apply elem_of_nil in Hin.
  - apply elem_of_cons in Hin as [<-|Hin]; cbn [fold_left].
    + unfold kahan_step at 2. cbn [fst snd].
      replace (fadd s (fsub NaN c)) with NaN by (destruct s, c; reflexivity).
      apply kahan_fold_nan.
    + destruct (kahan_step (s, c) x) as [s' c']. now apply IH.
Qed.

Lemma kahan_sum_nan xs : NaN ∈ xs -> kahan_sum xs = NaN.
Proof.
  destruct xs as [|x xs]; intros Hin.
  - now apply elem_of_nil in Hin.
  - apply elem_of_cons in Hin as [<-|Hin]; cbn.
    + apply kahan_fold_nan.
    + now apply kahan_fold_nan_in.
Qed.

(** **** Inverting the cumulative distribution *)

Lemma searchsorted_right_spec cdf u :
  let c := searchsorted_right cdf u in
  (c <= length cdf)%nat /\
  (forall j x, (j < c)%nat -> cdf !! j = Some x -> fltb (Fin u) x = false) /\
  ((c < length cdf)%nat -> exists x, cdf !! c = Some x /\ fltb (Fin u) x = true).
Proof.
  induction cdf as [|y rest IH]; cbn [searchsorted_right length].
  - repeat split; auto; intros; lia.
  - destruct (fltb (Fin u) y) eqn:E.
    + repeat split; [lia|intros; lia|]. intros _. exists y. auto.
    + destruct IH as (L & Hlt & Hfound). repeat split; [lia| |].
      * intros [|j] x Hj Hx; cbn in Hx; [congruence|]. eapply Hlt; eauto. lia.
      * intros Hc. apply Hfound. lia.
Qed.

Lemma searchsorted_right_le cdf u j x :
  cdf !! j = Some x -> fltb (Fin u) x = true -> (searchsorted_right cdf u <= j)%nat.
Proof.
  intros Hx Hlt. destruct (searchsorted_right_spec cdf u) as (_ & H & _).
  destruct (le_lt_dec (searchsorted_right cdf u) j) as [|C]; auto.
  specialize (H j x C Hx). congruence.
Qed.

Lemma cumsum_from_lookup xs : forall acc i x,
  xs !! i = Some x ->
  exists c, cumsum_from acc xs !! i = Some (fadd c x) /\
            match i with
            | O => c = acc
            | S j => cumsum_from acc xs !! j = Some c
            end.
Proof.
  induction xs as [|y rest IH]; intros acc i x Hx; [now rewrite lookup_nil in Hx|].
  destruct i as [|i]; cbn in *.
  - inversion Hx; subst. eauto.
  - destruct (IH (fadd acc y) i x Hx) as (c & Hc & Hprev).
    exists c. split; [exact Hc|]. destruct i as [|j]; [now subst|exact Hprev].
Qed.

Lemma length_cumsum_from xs : forall acc, length (cumsum_from acc xs) = length xs.
Proof. induction xs; intros; cbn; auto. Qed.

Lemma length_cumsum xs : length (cumsum xs) = length xs.
Proof. destruct xs; cbn; auto using length_cumsum_from. Qed.

Lemma cumsum_lookup_0 xs : cumsum xs !! 0%nat = xs !! 0%nat.
Proof. destruct xs; reflexivity. Qed.

Lemma cumsum_lookup_S xs i x :
  xs !! S i = Some x ->
  exists c, cumsum xs !! i = Some c /\ cumsum xs !! S i = Some (fadd c x).
Proof.
  destruct xs as [|y rest]; [now rewrite lookup_nil|]. cbn. intros Hx.
  destruct (cumsum_from_lookup rest y i x Hx) as (c & Hc & Hprev).
  exists c. split; [|exact Hc]. destruct i as [|j]; [now subst|exact Hprev].
Qed.

(** An entry that is zero does not move the normalised cumulative
    distribution past a draw. *)
Lemma zero_entry_first u z L :
  0 <= u -> z == 0 -> fltb (Fin u) (fdiv (Fin z) L) = false.
Proof.
  intros Hu Hz. destruct L as [b| | |]; cbn; auto.
  - destruct (Qeq_bool b 0) eqn:E.
    + now rewrite inf_times_zero.
    + cbn. apply Qltb_ge. apply Qeq_bool_neq in E. rewrite Hz.
      unfold Qdiv. lra.
  - apply Qltb_ge. lra.
  - apply Qltb_ge. lra.
Qed.

Lemma zero_entry_next u z c L :
  z == 0 -> fltb (Fin u) (fdiv (fadd c (Fin z)) L) = fltb (Fin u) (fdiv c L).
Proof.
  intros Hz. destruct c as [a| | |]; cbn; auto.
  destruct L as [b| | |]; cbn; auto.
  destruct (Qeq_bool b 0) eqn:E.
  - now rewrite (inf_times_proper (a + z) a) by lra.
  - cbn. apply Qltb_proper; [lra|]. now rewrite Hz, Qplus_0_r.
Qed.

Lemma fdiv_zero_cases t :
  fdiv (Fin 0) t = NaN \/ exists z, fdiv (Fin 0) t = Fin z /\ z == 0.
Proof.
  destruct t as [b| | |]; cbn; auto.
  - destruct (Qeq_bool b 0) eqn:E.
    + left. now apply inf_times_zero.
    + right. eexists. split; [reflexivity|]. unfold Qdiv. lra.
  - right. exists 0. split; [reflexivity|lra].
  - right. exists 0. split; [reflexivity|lra].
Qed.

(** **** What passing the checks of the sampler means *)

Lemma fadd_Fin x y q : fadd x y = Fin q -> exists a b, x = Fin a /\ y = Fin b.
Proof. destruct x, y; cbn; try discriminate. eauto. Qed.

Lemma fneg_Fin x q : fneg x = Fin q -> exists a, x = Fin a.
Proof. destruct x; cbn; try discriminate. eauto. Qed.

(** A compensated sum that is finite was taken over finite entries. *)
Lemma kahan_fold_finite xs : forall s c q,
  fst (fold_left kahan_step xs (s, c)) = Fin q ->
  (exists a, s = Fin a) /\ Forall (fun x => exists a, x = Fin a) xs.
Proof.
  induction xs as [|x xs IH]; intros s c q H; cbn [fold_left] in H.
  - cbn in H. subst. eauto.
  - unfold kahan_step at 2 in H. cbn [fst snd] in H.
    apply IH in H as [(t & Ht) Hxs].
    apply fadd_Fin in Ht as (a & y & -> & Hy).
    unfold fsub in Hy. apply fadd_Fin in Hy as (b & _ & -> & _).
    split; [eauto|]. constructor; eauto.
Qed.

Lemma fold_left_Qplus_proper qs : forall a a',
  a == a' -> fold_left Qplus qs a == fold_left Qplus qs a'.
Proof.
  induction qs as [|q qs IH]; intros a a' H; cbn; [exact H|].
  apply IH. now rewrite H.
Qed.

(** In exact arithmetic the compensation stays zero and the sum is the
    sum. *)
Lemma kahan_fold_value qs : forall s c,
  c == 0 ->
  exists s' c', fold_left kahan_step (map Fin qs) (Fin s, Fin c) = (Fin s', Fin c') /\
                s' == fold_left Qplus qs s /\ c' == 0.
Proof.
  induction qs as [|q qs IH]; intros s c Hc; cbn [map fold_left].
  - exists s, c. split; [reflexivity|]. split; [reflexivity|exact Hc].
  - unfold kahan_step at 2. cbn [fst snd fsub fneg fadd].
    destruct (IH (s + (q + - c)) (s + (q + - c) + - s + - (q + - c)))
      as (s' & c' & E & Hs & Hc'); [ring|].
    exists s', c'. split; [exact E|]. split; [|exact Hc'].
    rewrite Hs. apply fold_left_Qplus_proper. rewrite Hc. ring.
Qed.

Lemma List_last_of_last {A} (l : list A) d x : last l = Some x -> List.last l d = x.
Proof.
  induction l as [|y [|z rest] IH]; cbn; intros H.
  - discriminate.
  - now inversion H.
  - apply IH. exact H.
Qed.

Lemma last_cumsum_from qs : forall acc,
  last (Fin acc :: cumsum_from (Fin acc) (map Fin qs)) = Some (Fin (fold_left Qplus qs acc)).
Proof.
  induction qs as [|q qs IH]; intros acc; [reflexivity|].
  cbn [map cumsum_from fold_left fadd]. rewrite last_cons_cons. apply IH.
Qed.

Lemma Qeq_bool_neq_iff q : Qeq_bool q 0 = false <-> ~ q == 0.
Proof.
  split.
  - apply Qeq_bool_neq.
  - intros H. destruct (Qeq_bool q 0) eqn:E; auto.
    apply Qeq_bool_iff in E. contradiction.
Qed.

(** A distribution that passes the NaN check and the sum check is
    finite, and its cumulative distribution ends at a positive value. *)
Lemma checked_sum_positive p :
  is_nan (kahan_sum p) = false ->
  fltb (Fin atol) (fabs (fsub (kahan_sum p) (Fin 1))) = false ->
  exists qs l, p = map Fin qs /\ last (cumsum (map Fin qs)) = Some (Fin l) /\ 0 < l.
Proof.
  intros Hnan Htol.
  destruct (kahan_sum p) as [s| | |] eqn:Es;
    cbn [fabs fsub fneg fadd fltb] in Htol; try discriminate.
  apply Qltb_ge in Htol.
  assert (Hs : 1 - atol <= s).
  { assert (H := Qle_Qabs (- (s + - (1)))). rewrite Qabs_opp in H. lra. }
  assert (Hatol : atol < 1) by reflexivity.
  destruct p as [|x rest].
  - cbn in Es. inversion Es; subst. lra.
  - cbn [kahan_sum] in Es.
    destruct (kahan_fold_finite _ _ _ _ Es) as [(q & ->) Hrest].
    assert (Hqs : exists qs, rest = map Fin qs).
    { clear Es. induction rest as [|y rest IH]; [now exists []|].
      apply Forall_cons in Hrest as [(a & ->) Hrest].
      destruct (IH Hrest) as (qs & ->). now exists (a :: qs). }
    destruct Hqs as (qs & ->).
    destruct (kahan_fold_value qs q 0 ltac:(reflexivity)) as (s' & c' & E & Hs' & _).
    rewrite E in Es. cbn in Es. inversion Es; subst s'.
    exists (q :: qs), (fold_left Qplus qs q). split; [reflexivity|].
    split; [apply last_cumsum_from|]. lra.
Qed.



Section Choice.
Variable tape : nat -> Q.

(** What [np.random.choice] returns: an index below [n] whose
    probability is not a zero. *)
Lemma random_choice_inv n p k c k' :
  0 <= tape k ->
  random_choice tape n p k = Ok (c, k') ->
  (c < n)%nat /\ k' = S k /\ (NaN ∉ p) /\
  forall z, p !! c = Some (Fin z) -> ~ z == 0.
Proof.
  intros Hu. unfold random_choice.
  destruct (decide (n = 0%nat)); [discriminate|].
  destruct (is_nan _) eqn:Enan; [discriminate|].
  destruct (existsb _ p); [discriminate|].
  destruct (fltb (Fin atol) _); [discriminate|].
  unfold bind, random_random. set (L := List.last (cumsum p) NaN).
  set (cdf := map (fun c => fdiv c L) (cumsum p)).
  destruct (decide (searchsorted_right cdf (tape k) < n)%nat) as [Hc|];
    [|discriminate].
  unfold ret. intros H; inversion H; subst c k'; clear H.
  split; [exact Hc|]. split; [reflexivity|]. split.
  { intros Hin. apply kahan_sum_nan in Hin. rewrite Hin in Enan. discriminate. }
  intros z Hz Hz0.
  destruct (searchsorted_right_spec cdf (tape k)) as (Hle & Hbefore & Hat).
  set (c := searchsorted_right cdf (tape k)) in *.
  assert (Hlen : (c < length cdf)%nat).
  { unfold cdf. rewrite length_map, length_cumsum. eapply lookup_lt_Some; eauto. }
  destruct (Hat Hlen) as (x & Hx & Hlt).
  unfold cdf in Hx. change (map ?f ?l) with (f <$> l) in Hx.
  rewrite list_lookup_fmap in Hx.
  destruct c as [|j] eqn:Ec.
  - rewrite cumsum_lookup_0, Hz in Hx.
    assert (x = fdiv (Fin z) L) by (now inversion Hx). subst x.
    rewrite zero_entry_first in Hlt by auto. discriminate.
  - destruct (cumsum_lookup_S p j (Fin z) Hz) as (cj & Hcj & HcS).
    rewrite HcS in Hx.
    assert (x = fdiv (fadd cj (Fin z)) L) by (now inversion Hx). subst x.
    rewrite zero_entry_next in Hlt by auto.
    rewrite (Hbefore j (fdiv cj L)) in Hlt; [discriminate|lia|].
    unfold cdf. change (map ?f ?l) with (f <$> l).
    now rewrite list_lookup_fmap, Hcj.
Qed.

(** Once the checks of [np.random.choice] have passed, the search
    in the cumulative distribution ends inside the population. *)
Lemma random_choice_in_range n p k e :
  tape k < 1 -> length p = n ->
  random_choice tape n p k = Raise e -> e <> IndexError.
Proof.
  intros Hu Hlen. unfold random_choice.
  destruct (decide (n = 0%nat)) as [|Hn]; [intros H; inversion H; discriminate|].
  destruct (is_nan _) eqn:Enan; [intros H; inversion H; discriminate|].
  destruct (existsb _ p) eqn:Eneg; [intros H; inversion H; discriminate|].
  destruct (fltb (Fin atol) _) eqn:Etol; [intros H; inversion H; discriminate|].
  unfold bind, random_random.
  destruct (decide _) as [|Hidx]; [discriminate|]. intros _. exfalso. apply Hidx.
  destruct (checked_sum_positive p Enan Etol) as (qs & l & -> & Hlast & Hl).
  rewrite length_map in Hlen.
  eapply Nat.le_lt_trans with (m := pred (length (cumsum (map Fin qs)))).
  - eapply searchsorted_right_le.
    + change (map ?f ?l) with (f <$> l). rewrite list_lookup_fmap.
      rewrite <- last_lookup, Hlast. reflexivity.
    + rewrite (List_last_of_last _ _ _ Hlast). cbn.
      rewrite (proj2 (Qeq_bool_neq_iff l) ltac:(lra)). cbn.
      apply Qltb_lt. assert (El : l / l == 1) by (field; lra).
      rewrite El. exact Hu.
  - rewrite length_cumsum, length_map. lia.
Qed.

Lemma random_choice_Raise n p k e :
  random_choice tape n p k = Raise e ->
  (n = 0%nat /\ e = ValueError EmptyPopulation) \/ e = IndexError \/ sampling_error e.
Proof.
  unfold random_choice, sampling_error.
  destruct (decide (n = 0%nat)); [intros H; inversion H; auto|].
  destruct (is_nan _); [intros H; inversion H; auto|].
  destruct (existsb _ p); [intros H; inversion H; auto|].
  destruct (fltb (Fin atol) _); [intros H; inversion H; auto 6|].
  unfold bind, random_random. destruct (decide _); [discriminate|].
  intros H; inversion H. auto.
Qed.
End Choice.

End NpFacts.

(** *** The ant colony *)

Module AcoFacts.
Import Py PyFacts Np NpFacts Pso Aco.
Local Open Scope Q_scope.

(** **** Indexing *)

Lemma py_getitem_inv {A} (l : list A) i x k k' :
  py_getitem l i k = Ok (x, k') -> x ∈ l /\ k' = k.
Proof.
  unfold py_getitem. destruct (0 <=? i)%Z.
  - intros H. apply getitem_inv in H as [H ->]. split; auto.
    eapply list_elem_of_lookup_2; eauto.
  - destruct (_ <=? i)%Z; [|discriminate].
    intros H. apply getitem_inv in H as [H ->]. split; auto.
    eapply list_elem_of_lookup_2; eauto.
Qed.

Lemma py_getitem_nat {A} (l : list A) (i : nat) k :
  py_getitem l (Z.of_nat i) k = getitem l i k.
Proof.
  unfold py_getitem. rewrite (proj2 (Z.leb_le 0 (Z.of_nat i))) by lia.
  now rewrite Nat2Z.id.
Qed.

(** [path[-1]] is the last element. *)
Lemma py_getitem_last {A} (l : list A) x k :
  last l = Some x -> py_getitem l (-1) k = Ok (x, k).
Proof.
  intros Hl. unfold py_getitem. cbn [Z.leb Z.compare].
  rewrite last_lookup in Hl. pose proof (lookup_lt_Some _ _ _ Hl) as Hlt.
  rewrite (proj2 (Z.leb_le _ _)) by lia.
  replace (Z.to_nat (Z.of_nat (length l) + -1)) with (pred (length l)) by lia.
  now apply getitem_Ok.
Qed.


Lemma mget_inv m i j x k k' :
  mget m i j k = Ok (x, k') ->
  k' = k /\ exists row, m !! i = Some row /\ row !! j = Some x.
Proof.
  unfold mget. intros H. apply bind_Ok in H as (row & k1 & H1 & H2).
  apply getitem_inv in H1 as [H1 ->]. apply getitem_inv in H2 as [H2 ->]. eauto.
Qed.

Lemma square_lookup n m i j :
  square n m -> (i < n)%nat -> (j < n)%nat ->
  exists row x, m !! i = Some row /\ row !! j = Some x /\ length row = n.
Proof.
  intros [Hl Hrows] Hi Hj.
  destruct (lookup_lt_is_Some_2 m i ltac:(lia)) as [row Hrow].
  rewrite Forall_lookup in Hrows. pose proof (Hrows i row Hrow) as Hr.
  destruct (lookup_lt_is_Some_2 row j ltac:(lia)) as [x Hx].
  eauto.
Qed.

Lemma mget_Ok n m i j k :
  square n m -> (i < n)%nat -> (j < n)%nat ->
  exists row x, m !! i = Some row /\ row !! j = Some x /\ mget m i j k = Ok (x, k).
Proof.
  intros Hsq Hi Hj. destruct (square_lookup n m i j Hsq Hi Hj) as (row & x & Hr & Hx & _).
  exists row, x. repeat split; auto. unfold mget.
  rewrite (bind_step _ _ _ _ _ (getitem_Ok _ _ _ _ Hr)). now apply getitem_Ok.
Qed.

Lemma mget_Raise m i j k e : mget m i j k = Raise e -> e = IndexError.
Proof.
  unfold mget. intros H. apply bind_Raise in H as [H|(row & k1 & _ & H)];
    now apply getitem_Raise in H.
Qed.

Lemma mget_Raise_square n m i j k e :
  square n m -> (i < n)%nat -> (j < n)%nat -> mget m i j k <> Raise e.
Proof.
  intros Hsq Hi Hj. destruct (mget_Ok n m i j k Hsq Hi Hj) as (? & ? & _ & _ & ->).
  discriminate.
Qed.

Lemma mset_Ok n m i j x k :
  square n m -> (i < n)%nat -> (j < n)%nat ->
  exists row, m !! i = Some row /\
              mset m i j x k = Ok (<[i := <[j := x]> row]> m, k) /\
              square n (<[i := <[j := x]> row]> m).
Proof.
  intros Hsq Hi Hj.
  destruct (square_lookup n m i j Hsq Hi Hj) as (row & y & Hr & Hy & Hlen).
  exists row. split; [exact Hr|]. destruct Hsq as [Hl Hrows]. split.
  - unfold mset. rewrite (bind_step _ _ _ _ _ (getitem_Ok _ _ _ _ Hr)).
    assert (Hj' : (j < length row)%nat) by lia.
    rewrite (bind_step _ _ _ _ _ (setitem_Ok row j x k Hj')).
    apply setitem_Ok. lia.
  - split; [now rewrite length_insert|].
    apply Forall_insert; [exact Hrows|]. now rewrite length_insert.
Qed.

(** **** Choosing the next city *)

Section WithLibraries.
Variable unit_tape : nat -> Q.
Variable raw_tape : nat -> nat.
Variable np_power : f64 -> Q -> f64.

(** The score list has one entry per city, and the entry of a city
    already on the path is 0. *)
Lemma scores_inv self current_city path k l k' :
  scores np_power self current_city path k = Ok (l, k') ->
  k' = k /\ length l = n_cities self /\
  forall c, (c < n_cities self)%nat -> c ∈ path -> l !! c = Some (Fin 0).
Proof using Type.
  clear unit_tape raw_tape. unfold scores. intros H.
  apply (for_each_seq_inv
           (fun i l k' => k' = k /\ length l = i /\
              forall c, (c < i)%nat -> c ∈ path -> l !! c = Some (Fin 0)))
    in H; [exact H| |].
  - repeat split; auto. intros; lia.
  - clear H. intros i acc k0 acc' k0' _ (-> & Hlen & Hz) Hbody.
    assert (Hacc : k0' = k /\ exists x, acc' = acc ++ [x] /\ (i ∈ path -> x = Fin 0)).
    { destruct (bool_decide (i ∈ path)) eqn:Ein.
      - unfold ret in Hbody. inversion Hbody; subst. eauto.
      - apply bool_decide_eq_false in Ein.
        apply bind_Ok in Hbody as (ph & k1 & H1 & Hbody).
        apply bind_Ok in Hbody as (d & k2 & H2 & Hbody).
        apply mget_inv in H1 as [-> _]. apply mget_inv in H2 as [-> _].
        unfold ret in Hbody. inversion Hbody; subst.
        split; auto. eexists. split; [reflexivity|]. tauto. }
    destruct Hacc as (-> & x & -> & Hx). split; [reflexivity|]. split.
    + rewrite length_app. cbn. lia.
    + intros c Hc Hin. destruct (decide (c = i)) as [->|Hne].
      * rewrite lookup_app_r by lia. rewrite Hlen, Nat.sub_diag. cbn.
        now rewrite Hx.
      * rewrite lookup_app_l by lia. apply Hz; [lia|exact Hin].
Qed.

Lemma scores_Ok self current_city path k :
  wf_colony self -> (current_city < n_cities self)%nat ->
  exists l, scores np_power self current_city path k = Ok (l, k).
Proof.
  intros [Hd Hp] Hcur. unfold scores.
  destruct (for_each_seq_rule (fun _ _ k' => k' = k)
    (fun probabilities next_city =>
       if bool_decide (next_city ∈ path) then ret (probabilities ++ [Fin 0])
       else
         ph <- mget (pheromones self) current_city next_city ;;
         d <- mget (distances self) current_city next_city ;;
         ret (probabilities ++
                [fmul (np_power ph (alpha self))
                      (np_power (fdiv (Fin 1) d) (beta self))]))
    (n_cities self) 0%nat [] k eq_refl) as (l & k' & E & ->).
  - intros i acc k0 [_ Hi] ->. destruct (bool_decide (i ∈ path)).
    + eexists _, _. split; [reflexivity|reflexivity].
    + destruct (mget_Ok _ _ current_city i k Hp Hcur Hi) as (? & ph & _ & _ & E1).
      destruct (mget_Ok _ _ current_city i k Hd Hcur Hi) as (? & d & _ & _ & E2).
      eexists _, _. rewrite (bind_step _ _ _ _ _ E1), (bind_step _ _ _ _ _ E2).
      split; reflexivity.
  - eauto.
Qed.

(** The city [choose_next_city] returns is a city, and a new one. *)
Lemma choose_next_city_inv self current_city path k c k' :
  0 <= unit_tape k ->
  choose_next_city unit_tape np_power self current_city path k = Ok (c, k') ->
  (c < n_cities self)%nat /\ (c ∉ path) /\ k' = S k.
Proof.
  intros Hu H. unfold choose_next_city in H.
  apply bind_Ok in H as (l & k1 & Hs & H).
  apply scores_inv in Hs as (-> & Hlen & Hzero).
  apply random_choice_inv in H as (Hc & -> & Hnan & Hnz); [|exact Hu].
  split; [exact Hc|]. split; [|reflexivity].
  intros Hin. specialize (Hzero c Hc Hin).
  assert (Hp : map (fun x => fdiv x (py_sum l)) l !! c =
               Some (fdiv (Fin 0) (py_sum l))).
  { change (map ?f ?l) with (f <$> l). now rewrite list_lookup_fmap, Hzero. }
  destruct (fdiv_zero_cases (py_sum l)) as [E|(z & E & Hz)]; rewrite E in Hp.
  - apply Hnan. eapply list_elem_of_lookup_2; eauto.
  - exact (Hnz z Hp Hz).
Qed.

Lemma fuel_free_py_getitem {A} (l : list A) i : fuel_free (py_getitem l i).
Proof.
  unfold py_getitem. destruct (_ <=? _)%Z; [apply fuel_free_getitem|].
  destruct (_ <=? _)%Z; [apply fuel_free_getitem|apply fuel_free_raise].
Qed.

Lemma fuel_free_mget m i j : fuel_free (mget m i j).
Proof.
  unfold mget. apply fuel_free_bind; auto using @fuel_free_getitem.
Qed.


Lemma fuel_free_random_choice n p : fuel_free (random_choice unit_tape n p).
Proof.
  intros k. unfold random_choice.
  destruct (decide _); [discriminate|]. destruct (is_nan _); [discriminate|].
  destruct (existsb _ _); [discriminate|]. destruct (fltb _ _); [discriminate|].
  unfold bind, random_random. destruct (decide _); discriminate.
Qed.

Lemma fuel_free_choose_next_city self current_city path :
  fuel_free (choose_next_city unit_tape np_power self current_city path).
Proof.
  unfold choose_next_city. apply fuel_free_bind.
  - unfold scores. apply fuel_free_for_each. intros acc c.
    destruct (bool_decide _); [apply fuel_free_ret|].
    apply fuel_free_bind; [apply fuel_free_mget|]. intros ph.
    apply fuel_free_bind; [apply fuel_free_mget|]. intros d.
    apply fuel_free_ret.
  - intros l. apply fuel_free_random_choice.
Qed.

(** **** Constructing a tour *)

Lemma partial_tour_length self path :
  partial_tour self path -> (length path <= n_cities self)%nat.
Proof.
  intros (Hnd & Hall & _).
  rewrite <- (length_seq (n_cities self) 0).
  apply submseteq_length, NoDup_submseteq; [exact Hnd|].
  intros c Hc. rewrite Forall_forall in Hall. apply elem_of_seq.
  specialize (Hall c Hc). lia.
Qed.

Lemma complete_tour_permutation self path :
  partial_tour self path -> length path = n_cities self ->
  path ≡ₚ seq 0 (n_cities self).
Proof.
  intros (Hnd & Hall & _) Hlen.
  apply submseteq_length_Permutation.
  - apply NoDup_submseteq; [exact Hnd|].
    intros c Hc. rewrite Forall_forall in Hall. apply elem_of_seq.
    specialize (Hall c Hc). lia.
  - rewrite length_seq. lia.
Qed.

Lemma construct_loop_inv fuel self : forall path k path' k',
  (forall k, 0 <= unit_tape k) ->
  partial_tour self path ->
  construct_loop unit_tape np_power fuel self path k = Ok (path', k') ->
  partial_tour self path' /\ length path' = n_cities self.
Proof.
  induction fuel as [|fuel IH]; intros path k path' k' Hu Hp;
    cbn [construct_loop]; destruct (decide (length path < n_cities self)%nat) as [Hlt|Hge].
  - discriminate.
  - unfold ret. intros H; inversion H; subst. split; [exact Hp|].
    apply partial_tour_length in Hp. lia.
  - intros H. apply bind_Ok in H as (cur & k1 & H1 & H).
    apply bind_Ok in H as (next & k2 & H2 & H).
    apply py_getitem_inv in H1 as [Hcur ->].
    apply choose_next_city_inv in H2 as (Hn & Hnew & ->); [|apply Hu].
    apply IH in H; auto.
    destruct Hp as (Hnd & Hall & Hne). repeat split.
    + apply NoDup_app. repeat split; auto.
      * intros x Hx Hx'. apply list_elem_of_singleton in Hx'. now subst.
      * apply NoDup_singleton.
    + apply Forall_app. split; auto.
    + destruct path; discriminate.
  - unfold ret. intros H; inversion H; subst. split; [exact Hp|].
    apply partial_tour_length in Hp. lia.
Qed.

(** With fuel for every missing city the loop never starves. *)
Lemma construct_loop_fuel fuel self : forall path k,
  (n_cities self <= fuel + length path)%nat ->
  construct_loop unit_tape np_power fuel self path k <> OutOfFuel.
Proof.
  induction fuel as [|fuel IH]; intros path k Hf;
    cbn [construct_loop]; destruct (decide (length path < n_cities self)%nat) as [Hlt|Hge];
    try discriminate.
  - lia.
  - intros H. apply bind_OutOfFuel in H as [H|(cur & k1 & _ & H)].
    + now apply fuel_free_py_getitem in H.
    + apply bind_OutOfFuel in H as [H|(next & k2 & _ & H)].
      * now apply fuel_free_choose_next_city in H.
      * revert H. apply IH. rewrite length_app. cbn. lia.
Qed.

Lemma construct_solution_inv fuel self k path k' :
  (forall k, 0 <= unit_tape k) -> (1 <= n_cities self)%nat ->
  construct_solution unit_tape raw_tape np_power fuel self k = Ok (path, k') ->
  partial_tour self path /\ length path = n_cities self.
Proof.
  intros Hu Hn H. unfold construct_solution in H.
  apply bind_Ok in H as (start & k1 & H1 & H).
  unfold random_randint in H1.
  destruct (_ <? 0)%Z eqn:E; [discriminate|]. inversion H1; subst; clear H1.
  eapply construct_loop_inv; [exact Hu| |exact H].
  repeat split.
  - apply NoDup_singleton.
  - constructor; [|constructor].
    pose proof (Z.mod_pos_bound (Z.of_nat (raw_tape k))
                  (Z.of_nat (n_cities self) - 1 - 0 + 1) ltac:(lia)). lia.
  - discriminate.
Qed.

(** **** Tour lengths and the running best *)

Lemma tape_free_py_getitem {A} (l : list A) i : tape_free (py_getitem l i).
Proof.
  unfold py_getitem. destruct (_ <=? _)%Z; [apply tape_free_getitem|].
  destruct (_ <=? _)%Z; [apply tape_free_getitem|apply tape_free_raise].
Qed.

Lemma tape_free_mget m i j : tape_free (mget m i j).
Proof. unfold mget. apply tape_free_bind; auto using @tape_free_getitem. Qed.

Lemma tape_free_mset m i j x : tape_free (mset m i j x).
Proof.
  unfold mset. apply tape_free_bind; [apply tape_free_getitem|]. intros row.
  apply tape_free_bind; [apply tape_free_setitem|]. intros row'.
  apply tape_free_setitem.
Qed.

Lemma tape_free_calculate_distance self path :
  tape_free (calculate_distance self path).
Proof.
  unfold calculate_distance. apply tape_free_for_each. intros acc i.
  apply tape_free_bind; [apply tape_free_py_getitem|]. intros a.
  apply tape_free_bind; [apply tape_free_py_getitem|]. intros b.
  apply tape_free_bind; [apply tape_free_mget|]. intros d.
  apply tape_free_ret.
Qed.

Lemma tape_free_deposit_path c path ph : tape_free (deposit_path c path ph).
Proof.
  unfold deposit_path. apply tape_free_for_each. intros acc i.
  apply tape_free_bind; [apply tape_free_py_getitem|]. intros a.
  apply tape_free_bind; [apply tape_free_py_getitem|]. intros b.
  apply tape_free_bind; [apply tape_free_mget|]. intros d.
  apply tape_free_mset.
Qed.

Lemma tape_free_update_pheromones self paths dists :
  tape_free (update_pheromones self paths dists).
Proof.
  unfold update_pheromones. apply tape_free_bind; [|intros; apply tape_free_ret].
  apply tape_free_for_each. intros acc [path d]. apply tape_free_deposit_path.
Qed.

Lemma calculate_distance_same_distances self self' path k :
  distances self' = distances self ->
  calculate_distance self' path k = calculate_distance self path k.
Proof. intros E. unfold calculate_distance. now rewrite E. Qed.

Lemma tour_length_same_distances self self' path d :
  distances self' = distances self ->
  tour_length self path d -> tour_length self' path d.
Proof.
  intros E H k. rewrite (calculate_distance_same_distances self self'); auto.
Qed.

Lemma calculate_all_inv self paths : forall k ds k',
  calculate_all self paths k = Ok (ds, k') ->
  k' = k /\ Forall2 (tour_length self) paths ds.
Proof.
  induction paths as [|path rest IH]; intros k ds k'; cbn [calculate_all].
  - unfold ret. intros H; inversion H; subst. split; auto.
  - intros H. apply bind_Ok in H as (d & k1 & H1 & H).
    apply bind_Ok in H as (ds1 & k2 & H2 & H). unfold ret in H.
    inversion H; subst; clear H.
    apply (tape_free_Ok _ _ _ _ (tape_free_calculate_distance self path)) in H1
      as [-> H1].
    apply IH in H2 as [-> H2]. split; auto.
Qed.

Lemma update_pheromones_frame self paths dists k self' k' :
  update_pheromones self paths dists k = Ok (self', k') ->
  k' = k /\ distances self' = distances self /\ n_cities self' = n_cities self /\
  n_ants self' = n_ants self /\ n_iterations self' = n_iterations self.
Proof.
  intros H.
  pose proof (tape_free_Ok _ _ _ _ (tape_free_update_pheromones self paths dists) H)
    as [-> _].
  unfold update_pheromones in H. apply bind_Ok in H as (ph & k1 & _ & H).
  unfold ret in H. inversion H; subst. repeat split.
Qed.

(** Scanning the tours of a round either leaves the running best as
    it was or replaces it by a tour of the round that is strictly
    shorter. *)
Lemma improve_fold pds : forall b,
  let b' := fold_left improve pds b in
  b' = b \/
  (fltb (snd b') (snd b) = true /\
   exists path, fst b' = Some path /\ (path, snd b') ∈ pds).
Proof.
  induction pds as [|[path d] rest IH]; intros b; cbn [fold_left].
  - now left.
  - specialize (IH (improve b (path, d))). cbn zeta in IH.
    set (b1 := improve b (path, d)) in *.
    assert (H1 : b1 = b \/ (fltb d (snd b) = true /\ b1 = (Some path, d))).
    { unfold b1, improve. destruct (fltb d (snd b)); auto. }
    destruct IH as [IH|(Hlt & p & Hp & Hin)].
    + rewrite IH. destruct H1 as [->|[Hlt ->]]; [now left|].
      right. cbn. split; [exact Hlt|]. exists path. split; [reflexivity|].
      apply elem_of_cons. now left.
    + right. split.
      * destruct H1 as [E|[Hlt1 E]]; [congruence|].
        eapply fltb_trans; [exact Hlt|]. now rewrite E.
      * exists p. split; [exact Hp|]. apply elem_of_cons. now right.
Qed.

Lemma run_iteration_inv fuel self b k self' b' k' :
  run_iteration unit_tape raw_tape np_power fuel (self, b) k = Ok ((self', b'), k') ->
  distances self' = distances self /\ n_cities self' = n_cities self /\
  (b' = b \/
   (fltb (snd b') (snd b) = true /\
    exists path, fst b' = Some path /\ tour_length self path (snd b'))).
Proof.
  unfold run_iteration. intros H.
  apply bind_Ok in H as (paths & k1 & _ & H).
  apply bind_Ok in H as (dists & k2 & Hd & H).
  apply bind_Ok in H as (s1 & k3 & Hu & H).
  unfold ret in H. inversion H; subst; clear H.
  apply calculate_all_inv in Hd as [-> Hd].
  apply update_pheromones_frame in Hu as (-> & Ed & En & _).
  split; [exact Ed|]. split; [exact En|].
  destruct (improve_fold (zip paths dists) b) as [E|(Hlt & p & Hp & Hin)];
    [now left|right].
  split; [exact Hlt|]. exists p. split; [exact Hp|].
  apply list_elem_of_lookup in Hin as [i Hi].
  apply lookup_zip_with_Some in Hi as (p' & d' & Hpd & Hp' & Hd').
  inversion Hpd; subst p' d'.
  destruct (Forall2_lookup_l _ _ _ _ _ Hd Hp') as (d'' & Hd'' & Hlen).
  congruence.
Qed.

Lemma run_rounds_inv fuel self : forall j k s b k',
  run_rounds unit_tape raw_tape np_power fuel j self k = Ok ((s, b), k') ->
  distances s = distances self /\ n_cities s = n_cities self /\ best_ok self b.
Proof.
  induction j as [|j IH]; intros k s b k'.
  - cbn. unfold ret. intros H; inversion H; subst. repeat split. now left.
  - unfold run_rounds. rewrite repeat_n_snoc. intros H.
    apply bind_Ok in H as ([s1 b1] & k1 & H1 & H).
    apply IH in H1 as (Ed1 & En1 & Hb1).
    apply run_iteration_inv in H as (Ed & En & Hb).
    split; [congruence|]. split; [congruence|].
    destruct Hb as [->|(_ & p & Hp & Hl)]; [exact Hb1|].
    right. exists p. split; [exact Hp|].
    eapply tour_length_same_distances; [|exact Hl]. congruence.
Qed.

End WithLibraries.

(** **** The pheromone update *)

(** Round [i] of the deposit loop reads the [i]-th edge of the tour. *)
Lemma edge_reads (path : tour) i k :
  (i < length path)%nat ->
  exists a b, tour_edges path !! i = Some (a, b) /\
              py_getitem path (Z.of_nat i - 1) k = Ok (a, k) /\
              py_getitem path (Z.of_nat i) k = Ok (b, k) /\
              a ∈ path /\ b ∈ path.
Proof.
  intros Hi.
  assert (Hne : exists first rest, path = first :: rest).
  { destruct path; [cbn in Hi; lia|eauto]. }
  destruct Hne as (first & rest & Ep).
  assert (Et : tour_edges path = zip (List.last path first :: path) path).
  { rewrite Ep. reflexivity. }
  clear Ep rest.
  destruct (lookup_lt_is_Some_2 path i Hi) as [b Hb].
  assert (Ha : exists a, (List.last path first :: path) !! i = Some a /\
                         py_getitem path (Z.of_nat i - 1) k = Ok (a, k) /\ a ∈ path).
  { destruct i as [|j].
    - destruct (last path) as [a|] eqn:El.
      + exists a. cbn. rewrite (List_last_of_last _ _ _ El). split; [reflexivity|].
        split; [now apply py_getitem_last|].
        rewrite last_lookup in El. eapply list_elem_of_lookup_2; eauto.
      + rewrite last_lookup in El. apply lookup_ge_None in El. lia.
    - destruct (lookup_lt_is_Some_2 path j ltac:(lia)) as [a Ha].
      exists a. cbn [lookup list_lookup]. split; [exact Ha|].
      replace (Z.of_nat (S j) - 1)%Z with (Z.of_nat j) by lia.
      rewrite py_getitem_nat. split; [now apply getitem_Ok|].
      eapply list_elem_of_lookup_2; eauto. }
  destruct Ha as (a & Ha & Hga & Hina).
  exists a, b. split.
  - rewrite Et. apply lookup_zip_with_Some. eauto.
  - split; [exact Hga|]. rewrite py_getitem_nat.
    split; [now apply getitem_Ok|]. split; [exact Hina|].
    eapply list_elem_of_lookup_2; eauto.
Qed.

Lemma length_tour_edges (path : tour) : length (tour_edges path) = length path.
Proof.
  destruct path as [|first rest]; [reflexivity|]. unfold tour_edges.
  rewrite length_zip_with. cbn [length]. lia.
Qed.

Lemma alter_as_insert {A} (f : A -> A) (l : list A) i x :
  l !! i = Some x -> alter f i l = <[i := f x]> l.
Proof.
  intros Hx. apply list_eq. intros j. destruct (decide (i = j)) as [<-|Hne].
  - rewrite list_lookup_alter_eq, Hx, list_lookup_insert_eq; [reflexivity|].
    eapply lookup_lt_Some; eauto.
  - now rewrite list_lookup_alter_ne, list_lookup_insert_ne.
Qed.

(** Reading an entry and writing it back increased is the deposit on
    one edge. *)
Lemma deposit_step n ph a b c k :
  square n ph -> (a < n)%nat -> (b < n)%nat ->
  bind (mget ph a b) (fun x => mset ph a b (fadd x c)) k
    = Ok (deposit_edge c ph (a, b), k) /\
  square n (deposit_edge c ph (a, b)).
Proof.
  intros Hsq Ha Hb.
  destruct (mget_Ok n ph a b k Hsq Ha Hb) as (row & x & Hrow & Hx & Eget).
  destruct (mset_Ok n ph a b (fadd x c) k Hsq Ha Hb) as (row' & Hrow' & Eset & Hsq').
  assert (row' = row) by congruence. subst row'.
  assert (E : deposit_edge c ph (a, b) = <[a := <[b := fadd x c]> row]> ph).
  { unfold deposit_edge. cbn [fst snd].
    rewrite (alter_as_insert _ _ _ _ Hrow). f_equal.
    exact (alter_as_insert (fun y => fadd y c) row b x Hx). }
  rewrite E. split; [|exact Hsq'].
  now rewrite (bind_step _ _ _ _ _ Eget).
Qed.

Lemma deposit_path_Ok n c (path : tour) ph k :
  square n ph -> Forall (fun x => (x < n)%nat) path ->
  deposit_path c path ph k = Ok (fold_left (deposit_edge c) (tour_edges path) ph, k) /\
  square n (fold_left (deposit_edge c) (tour_edges path) ph).
Proof.
  intros Hsq Hall. unfold deposit_path.
  destruct (for_each_seq_rule
    (fun i acc k' => k' = k /\ square n acc /\
       acc = fold_left (deposit_edge c) (take i (tour_edges path)) ph)
    (fun ph i =>
       a <- py_getitem path (Z.of_nat i - 1) ;;
       b <- py_getitem path (Z.of_nat i) ;;
       x <- mget ph a b ;;
       mset ph a b (fadd x c))
    (length path) 0%nat ph k) as (ph' & k' & E & -> & Hsq' & Eph).
  - repeat split; try apply Hsq. 
  - intros i acc k0 [_ Hi] (-> & Hacc & Eacc). cbn in Hi.
    destruct (edge_reads path i k Hi) as (a & b & He & Ea & Eb & Hina & Hinb).
    rewrite Forall_forall in Hall.
    destruct (deposit_step n acc a b c k Hacc (Hall a Hina) (Hall b Hinb))
      as [Estep Hsq1].
    eexists _, _. rewrite (bind_step _ _ _ _ _ Ea), (bind_step _ _ _ _ _ Eb).
    split; [exact Estep|]. split; [reflexivity|]. split; [exact Hsq1|].
    rewrite (take_S_r _ _ _ He), fold_left_app. cbn. now rewrite <- Eacc.
  - cbn in Eph. rewrite <- length_tour_edges, firstn_all in Eph. subst ph'.
    split; [exact E|exact Hsq'].
Qed.

Lemma square_evaporate n rho ph : square n ph -> square n (evaporate rho ph).
Proof.
  intros [Hl Hrows]. unfold evaporate. split; [now rewrite length_map|].
  apply Forall_forall. intros row Hrow. apply list_elem_of_fmap in Hrow as (r & -> & Hr).
  rewrite length_map. rewrite Forall_forall in Hrows. auto.
Qed.

Lemma deposit_all_Ok n dep (pds : list (tour * f64)) : forall ph k,
  square n ph -> Forall (fun pd => Forall (fun x => (x < n)%nat) (fst pd)) pds ->
  for_each pds (fun ph '(path, distance) =>
                  deposit_path (fdiv (Fin dep) distance) path ph) ph k
    = Ok (fold_left (deposit_tour dep) pds ph, k) /\
  square n (fold_left (deposit_tour dep) pds ph).
Proof.
  induction pds as [|[path d] rest IH]; intros ph k Hsq Hall; cbn [for_each fold_left].
  - split; [reflexivity|exact Hsq].
  - apply Forall_cons in Hall as [Hp Hr]. cbn [fst] in Hp.
    destruct (deposit_path_Ok n (fdiv (Fin dep) d) path ph k Hsq Hp) as [E Hsq1].
    rewrite (bind_step _ _ _ _ _ E). unfold deposit_tour at 2 4. cbn [fst snd].
    now apply IH.
Qed.

Lemma update_pheromones_Ok self paths dists k :
  square (n_cities self) (pheromones self) ->
  Forall (Forall (fun x => (x < n_cities self)%nat)) paths ->
  update_pheromones self paths dists k
    = Ok (set_pheromones self (update_pheromones_spec self paths dists), k) /\
  square (n_cities self) (update_pheromones_spec self paths dists).
Proof.
  intros Hsq Hall. unfold update_pheromones, update_pheromones_spec.
  destruct (deposit_all_Ok (n_cities self) (deposit self) (zip paths dists)
              (evaporate (rho self) (pheromones self)) k) as [E Hsq'].
  - now apply square_evaporate.
  - apply Forall_forall. intros [p d] Hin. cbn [fst].
    apply list_elem_of_lookup in Hin as [i Hi].
    apply lookup_zip_with_Some in Hi as (p' & d' & Hpd & Hp' & _).
    inversion Hpd; subst. rewrite Forall_forall in Hall. apply Hall.
    eapply list_elem_of_lookup_2; eauto.
  - unfold evaporate in E. rewrite (bind_step _ _ _ _ _ E).
    split; [reflexivity|exact Hsq'].
Qed.

(** **** How a run can fail *)




Section RunFailures.
Variable unit_tape : nat -> Q.
Variable raw_tape : nat -> nat.
Variable np_power : f64 -> Q -> f64.
Hypothesis draws : unit_draws unit_tape.

Lemma choose_next_city_Raise self current_city (path : tour) k e :
  wf_colony self -> (current_city < n_cities self)%nat ->
  choose_next_city unit_tape np_power self current_city path k = Raise e ->
  sampling_error e.
Proof using draws.
  intros Hwf Hcur H. unfold choose_next_city in H.
  destruct (scores_Ok np_power self current_city path k Hwf Hcur) as (l & El).
  rewrite (bind_step _ _ _ _ _ El) in H.
  apply scores_inv in El as (_ & Hlen & _).
  pose proof H as H'. apply random_choice_Raise in H as [[Hn _]|[->|H]].
  - lia.
  - exfalso. eapply random_choice_in_range; [| |exact H'|reflexivity].
    + apply draws.
    + now rewrite length_map.
  - exact H.
Qed.

Lemma partial_tour_snoc self (path : tour) c :
  partial_tour self path -> (c < n_cities self)%nat -> c ∉ path ->
  partial_tour self (path ++ [c]).
Proof.
  intros (Hnd & Hall & Hne) Hc Hnew. repeat split.
  - apply NoDup_app. repeat split; auto.
    + intros x Hx Hx'. apply list_elem_of_singleton in Hx'. now subst.
    + apply NoDup_singleton.
  - apply Forall_app. split; auto.
  - destruct path; discriminate.
Qed.







End RunFailures.

(** **** The distance matrix *)

Lemma entry_fmap (f : f64 -> f64) (m : matrix) i j :
  entry (map (map f) m) i j = f <$> entry m i j.
Proof.
  unfold entry. change (map (map f) m) with (map f <$> m).
  rewrite list_lookup_fmap. destruct (m !! i) as [row|]; cbn; [|reflexivity].
  change (map f row) with (f <$> row). apply list_lookup_fmap.
Qed.


Lemma entry_deposit_edge c (m : matrix) a b i j :
  entry (deposit_edge c m (a, b)) i j =
  if decide (i = a /\ j = b) then (fun x => fadd x c) <$> entry m i j
  else entry m i j.
Proof.
  unfold entry, deposit_edge. cbn [fst snd].
  destruct (decide (i = a)) as [->|Hi].
  - rewrite list_lookup_alter_eq. destruct (m !! a) as [row|]; cbn.
    + destruct (decide (j = b)) as [->|Hj].
      * rewrite decide_True by auto. apply list_lookup_alter_eq.
      * rewrite decide_False by tauto. now apply list_lookup_alter_ne.
    + now destruct (decide _).
  - rewrite list_lookup_alter_ne by auto. now rewrite decide_False by tauto.
Qed.

Lemma square_np_full n x : square n (np_full n x).
Proof.
  unfold np_full. split; [apply length_replicate|].
  apply Forall_replicate. apply length_replicate.
Qed.

Local Open Scope Q_scope.




Section Distances.
Variable np_sqrt : Q -> Q.
Variable cities : list (list Q).
Variable d : nat.
Hypothesis uniform : Forall (fun c => length c = d) cities.



End Distances.

End AcoFacts.

(** *** The ant colony: the properties claimed of it *)

Module AcoClaims.
Import Py PyFacts Np NpFacts Aco AcoFacts Examples.
Import Machine MachineFacts MoreExamples.
Local Open Scope Q_scope.

(** C2.  In a colony of [n >= 1] cities, [construct_solution] never
    starves when given fuel for [n - 1] steps, and every path it
    returns is a permutation of the city indices [0..n-1]: it has
    length [n], no city twice, and every city. *)
Theorem construct_solution_is_permutation unit_tape raw_tape np_power fuel self k :
  unit_draws unit_tape -> (1 <= n_cities self)%nat ->
  ((n_cities self <= S fuel)%nat ->
   construct_solution unit_tape raw_tape np_power fuel self k <> OutOfFuel) /\
  forall path k',
    construct_solution unit_tape raw_tape np_power fuel self k = Ok (path, k') ->
    path ≡ₚ seq 0 (n_cities self) /\
    length path = n_cities self /\ NoDup path /\
    forall c, (c < n_cities self)%nat -> c ∈ path.
Proof.
  intros Hu Hn. split.
  - intros Hf H. unfold construct_solution in H.
    apply bind_OutOfFuel in H as [H|(start & k1 & _ & H)].
    + unfold random_randint in H. destruct (_ <? _)%Z; discriminate.
    + revert H. apply construct_loop_fuel. cbn. lia.
  - intros path k' H.
    apply construct_solution_inv in H as [Hp Hlen]; [|intros; apply Hu|exact Hn].
    pose proof (complete_tour_permutation self path Hp Hlen) as Hperm.
    split; [exact Hperm|]. split; [exact Hlen|]. split; [apply Hp|].
    intros c Hc. rewrite Hperm. apply elem_of_seq. lia.
Qed.

Lemma construct_solution_is_permutation_witness :
  unit_draws cycle_tape /\ (1 <= n_cities triangle_colony)%nat /\
  construct_solution cycle_tape count_tape power_nat 2 triangle_colony 1%nat
    = Ok ([1; 2; 0]%nat, 4%nat) /\
  [1; 2; 0]%nat ≡ₚ seq 0 (n_cities triangle_colony).
Proof.
  pose proof ExampleFacts.cycle_tape_unit_draws as Hu.
  assert (Hn : (1 <= n_cities triangle_colony)%nat) by (cbn; lia).
  assert (E : construct_solution cycle_tape count_tape power_nat 2 triangle_colony 1%nat
              = Ok ([1; 2; 0]%nat, 4%nat)) by (vm_compute; reflexivity).
  split; [exact Hu|]. split; [exact Hn|]. split; [exact E|].
  destruct (construct_solution_is_permutation cycle_tape count_tape power_nat 2
              triangle_colony 1%nat Hu Hn) as [_ H].
  exact (proj1 (H _ _ E)).
Defined.

(** C5.  The run loop starts from best distance +infinity and best
    path none.  A round either leaves the running best as it was or
    replaces it by a tour whose length is strictly below the previous
    best distance, so the best distance never goes up from one round to
    the next.  What [run] returns is either the initial pair or a path
    together with the length of that path. *)
Theorem run_best_distance_non_increasing unit_tape raw_tape np_power fuel self :
  (forall k, run_rounds unit_tape raw_tape np_power fuel 0 self k
             = Ok ((self, (None, PInf)), k)) /\
  (forall j k s2 b2 k2,
      run_rounds unit_tape raw_tape np_power fuel (S j) self k = Ok ((s2, b2), k2) ->
      exists s1 b1 k1,
        run_rounds unit_tape raw_tape np_power fuel j self k = Ok ((s1, b1), k1) /\
        (b2 = b1 \/
         (fltb (snd b2) (snd b1) = true /\
          exists path, fst b2 = Some path /\ tour_length self path (snd b2)))) /\
  (forall k best_path best_distance self' k',
      run unit_tape raw_tape np_power fuel self k
        = Ok ((best_path, best_distance), self', k') ->
      (best_path = None /\ best_distance = PInf) \/
      (exists path, best_path = Some path /\ tour_length self' path best_distance)).
Proof.
  split; [reflexivity|]. split.
  - intros j k s2 b2 k2 H. unfold run_rounds in H. rewrite repeat_n_snoc in H.
    apply bind_Ok in H as ([s1 b1] & k1 & H1 & H).
    exists s1, b1, k1. split; [exact H1|].
    pose proof (run_rounds_inv _ _ _ _ _ _ _ _ _ _ H1) as (Ed1 & _ & _).
    apply run_iteration_inv in H as (_ & _ & [->|(Hlt & p & Hp & Hl)]); [now left|].
    right. split; [exact Hlt|]. exists p. split; [exact Hp|].
    eapply tour_length_same_distances; [|exact Hl]. congruence.
  - intros k bp bd self' k' H. unfold run in H.
    apply bind_Ok in H as ([s b] & k1 & H1 & H). unfold ret in H.
    inversion H; subst; clear H. cbn [fst snd] in *.
    apply run_rounds_inv in H1 as (Ed & _ & [Hb|(p & Hp & Hl)]).
    + left. inversion Hb; subst. auto.
    + right. exists p. cbn in Hp. split; [exact Hp|].
      eapply tour_length_same_distances; [|exact Hl]. exact Ed.
Qed.

Lemma run_best_distance_non_increasing_witness :
  exists self' k',
    run cycle_tape count_tape power_nat 2 triangle_colony 0%nat
      = Ok ((Some [0; 1; 2]%nat, Fin 12), self', k') /\
    tour_length self' [0; 1; 2]%nat (Fin 12).
Proof.
  destruct (run cycle_tape count_tape power_nat 2 triangle_colony 0%nat)
    as [[[[bp bd] self'] k']| |] eqn:E.
  - pose proof (run_best_distance_non_increasing cycle_tape count_tape power_nat 2
                  triangle_colony) as (_ & _ & H).
    specialize (H _ _ _ _ _ E).
    vm_compute in E.
    assert (Eb : bp = Some [0; 1; 2]%nat /\ bd = Fin 12) by (inversion E; auto).
    destruct Eb as [-> ->].
    exists self', k'. split; [reflexivity|].
    destruct H as [[C _]|(p & Hp & Hl)]; [discriminate|].
    inversion Hp; subst p. exact Hl.
  - vm_compute in E. discriminate.
  - vm_compute in E. discriminate.
Defined.

(** C3.  On a colony whose pheromone matrix is [n] by [n], for tours
    over the cities [0..n-1], [update_pheromones] completes and leaves
    the matrix the specification describes: every entry multiplied by
    [1 - rho], then, for every (path, distance) pair in turn,
    [deposit / distance] added on every edge of the tour.  Edge [i] of
    a tour is [(path[i-1], path[i])]: edge 0 goes from the last city
    back to the first, and a deposit changes that one entry only. *)
Theorem update_pheromones_evaporates_then_deposits self paths dists k :
  square (n_cities self) (pheromones self) ->
  Forall (Forall (fun c => (c < n_cities self)%nat)) paths ->
  update_pheromones self paths dists k
    = Ok (set_pheromones self (update_pheromones_spec self paths dists), k) /\
  (forall i j,
      entry (evaporate (rho self) (pheromones self)) i j
      = (fun x => fmul x (Fin (1 - rho self))) <$> entry (pheromones self) i j) /\
  (forall path : tour,
      length (tour_edges path) = length path /\
      (forall first, path !! 0%nat = Some first ->
         exists final, last path = Some final /\
                       tour_edges path !! 0%nat = Some (final, first)) /\
      (forall i a b, path !! i = Some a -> path !! S i = Some b ->
                     tour_edges path !! S i = Some (a, b))) /\
  (forall contribution ph a b i j,
      entry (deposit_edge contribution ph (a, b)) i j
      = if decide (i = a /\ j = b)
        then (fun x => fadd x contribution) <$> entry ph i j
        else entry ph i j).
Proof.
  intros Hsq Hall. split; [now apply update_pheromones_Ok|].
  split; [intros; apply entry_fmap|]. split; [|intros; apply entry_deposit_edge].
  intros path. split; [apply length_tour_edges|]. split.
  - intros first Hfirst. destruct path as [|c rest]; [discriminate|].
    inversion Hfirst; subst c.
    destruct (last (first :: rest)) as [final|] eqn:El.
    + exists final. split; [reflexivity|]. unfold tour_edges.
      cbn [zip_with lookup list_lookup]. now rewrite (List_last_of_last _ _ _ El).
    + rewrite last_lookup in El. apply lookup_ge_None in El. cbn in El. lia.
  - intros i a b Ha Hb. destruct path as [|c rest]; [discriminate|].
    unfold tour_edges. apply lookup_zip_with_Some. exists a, b. auto.
Qed.

Lemma update_pheromones_evaporates_then_deposits_witness :
  square (n_cities triangle_colony) (pheromones triangle_colony) /\
  Forall (Forall (fun c => (c < n_cities triangle_colony)%nat))
         [[0; 1; 2]; [1; 2; 0]]%nat /\
  update_pheromones triangle_colony [[0; 1; 2]; [1; 2; 0]]%nat [Fin 12; Fin 12] 0%nat
    = Ok (set_pheromones triangle_colony
            (update_pheromones_spec triangle_colony [[0; 1; 2]; [1; 2; 0]]%nat
                                    [Fin 12; Fin 12]), 0%nat).
Proof.
  assert (Hsq : square (n_cities triangle_colony) (pheromones triangle_colony)).
  { split; [reflexivity|]. repeat constructor. }
  assert (Hall : Forall (Forall (fun c => (c < n_cities triangle_colony)%nat))
                        [[0; 1; 2]; [1; 2; 0]]%nat).
  { repeat constructor. }
  split; [exact Hsq|]. split; [exact Hall|].
  exact (proj1 (update_pheromones_evaporates_then_deposits triangle_colony
                  [[0; 1; 2]; [1; 2; 0]]%nat [Fin 12; Fin 12] 0%nat Hsq Hall)).
Defined.







End AcoClaims.

(** *** The particle swarm: rounds, histories and resting swarms *)

Module PsoRunFacts.
Import Py PyFacts Pso PsoStates PsoFacts Examples.
Local Open Scope Q_scope.

Lemma power_2_nonneg (x : Q) : 0 <= x ^ 2.
Proof. simpl. nra. Qed.

Lemma sum_squares_ge x : forall acc,
  acc <= fold_left (fun a x_i => a + x_i ^ 2) x acc.
Proof.
  induction x as [|x_i x IH]; intros acc; cbn [fold_left]; [lra|].
  specialize (IH (acc + x_i ^ 2)). pose proof (power_2_nonneg x_i). lra.
Qed.

Lemma sum_squares_zero x : forall acc,
  0 <= acc ->
  fold_left (fun a x_i => a + x_i ^ 2) x acc == 0 <->
  acc == 0 /\ Forall (fun x_i => x_i == 0) x.
Proof.
  induction x as [|x_i x IH]; intros acc Hacc; cbn [fold_left].
  - split; [intros H; split; [exact H|constructor]|tauto].
  - pose proof (power_2_nonneg x_i) as Hsq.
    rewrite IH by lra. split.
    + intros [H F]. assert (E : x_i ^ 2 == 0) by lra.
      split; [lra|]. constructor; [|exact F].
      simpl in E. destruct (Qmult_integral _ _ E); assumption.
    + intros [H F]. inversion F as [|? ? Hx F']; subst.
      split; [|exact F']. rewrite H, Hx. reflexivity.
Qed.

Lemma evaluate_particle self p self' p' :
  evaluate self p = (self', p') ->
  position p' = position p /\ velocity p' = velocity p /\
  pBest_fitness p' <= pBest_fitness p /\ pBest_fitness p' <= fitness_of p /\
  (pBest_consistent p -> pBest_consistent p') /\
  (pBest p' = pBest p \/ pBest p' = position p) /\
  gBest_fitness self' <= fitness_of p /\
  gBest_fitness self' <= gBest_fitness self /\
  ((gBest self' = gBest self /\ gBest_fitness self' = gBest_fitness self) \/
   (gBest self' = position p /\ gBest_fitness self' = fitness_of p)).
Proof.
  unfold evaluate, fitness_of, pBest_consistent. intros E.
  destruct (Qltb (objective_function (position p)) (pBest_fitness p)) eqn:Hp;
  destruct (Qltb (objective_function (position p)) (gBest_fitness self)) eqn:Hg;
  inversion E; subst; clear E; cbn;
  try apply Qltb_lt in Hp; try apply Qltb_lt in Hg;
  try apply Qltb_ge in Hp; try apply Qltb_ge in Hg;
  repeat split; auto; try lra.
Qed.

Lemma evaluate_all_particles ps : forall self self' ps',
  evaluate_all self ps = (self', ps') ->
  Forall2 (fun p p' =>
     position p' = position p /\ velocity p' = velocity p /\
     pBest_fitness p' <= pBest_fitness p /\ pBest_fitness p' <= fitness_of p /\
     (pBest_consistent p -> pBest_consistent p') /\
     (pBest p' = pBest p \/ pBest p' = position p)) ps ps' /\
  Forall (fun p => gBest_fitness self' <= fitness_of p) ps /\
  gBest_fitness self' <= gBest_fitness self /\
  ((gBest self' = gBest self /\ gBest_fitness self' = gBest_fitness self) \/
   exists p, p ∈ ps /\ gBest self' = position p /\ gBest_fitness self' = fitness_of p).
Proof.
  induction ps as [|p ps IH]; intros self self' ps' E; cbn [evaluate_all] in E.
  - inversion E; subst. repeat split; auto. lra.
  - destruct (evaluate self p) as [s1 p1] eqn:E1.
    destruct (evaluate_all s1 ps) as [s2 ps2] eqn:E2.
    inversion E; subst; clear E.
    apply evaluate_particle in E1 as (A1 & A2 & A3 & A4 & A5 & A6 & A7 & A8 & A9).
    apply IH in E2 as (B1 & B2 & B3 & B4).
    split; [constructor; [repeat split; assumption|exact B1]|].
    split; [constructor; [lra|exact B2]|].
    split; [lra|].
    destruct B4 as [[B4 B5]|(q & Hq & B4)].
    + destruct A9 as [[A9 A10]|[A9 A10]]; [left; split; congruence|].
      right. exists p. split; [left|split; congruence].
    + right. exists q. split; [now right|exact B4].
Qed.

Lemma evaluation_pass_particles self :
  Forall2 (fun p p' =>
     position p' = position p /\ velocity p' = velocity p /\
     pBest_fitness p' <= pBest_fitness p /\ pBest_fitness p' <= fitness_of p /\
     (pBest_consistent p -> pBest_consistent p') /\
     (pBest p' = pBest p \/ pBest p' = position p))
    (particles self) (particles (evaluation_pass self)) /\
  Forall (fun p => gBest_fitness (evaluation_pass self) <= fitness_of p) (particles self) /\
  gBest_fitness (evaluation_pass self) <= gBest_fitness self /\
  ((gBest (evaluation_pass self) = gBest self /\
    gBest_fitness (evaluation_pass self) = gBest_fitness self) \/
   exists p, p ∈ particles self /\ gBest (evaluation_pass self) = position p /\
             gBest_fitness (evaluation_pass self) = fitness_of p).
Proof.
  unfold evaluation_pass.
  destruct (evaluate_all self (particles self)) as [s1 ps1] eqn:E.
  apply evaluate_all_particles in E. exact E.
Qed.

Lemma same_point_refl x : same_point x x.
Proof. unfold same_point. induction x; constructor; auto. reflexivity. Qed.

Lemma same_point_sym x y : same_point x y -> same_point y x.
Proof. unfold same_point. induction 1; constructor; auto. now symmetry. Qed.

Lemma same_point_trans x y z : same_point x y -> same_point y z -> same_point x z.
Proof.
  unfold same_point. intros H. revert z.
  induction H as [|a b x y Hab H IH]; intros z Hz; inversion Hz; subst; constructor.
  - etransitivity; eassumption.
  - now apply IH.
Qed.

Lemma within_same_point b x y : same_point x y -> within b y -> within b x.
Proof.
  unfold same_point, within. induction 1 as [|a c x y Hac H IH]; intros Hy; [constructor|].
  inversion Hy as [|? ? Hc Hy']; subst. constructor; [|now apply IH].
  rewrite Hac. exact Hc.
Qed.

(** The evaluation pass leaves a swarm at rest on its global best at
    rest, on a global best with the same coordinates. *)
Lemma at_rest_evaluation_pass self :
  at_rest self ->
  at_rest (evaluation_pass self) /\
  same_point (gBest (evaluation_pass self)) (gBest self).
Proof.
  intros (Hb & Hg & Hp).
  pose proof (evaluation_pass_frame self) as ((_ & Be & _) & _).
  pose proof (evaluation_pass_particles self) as (F2 & _ & _ & Hnew).
  assert (G : same_point (gBest (evaluation_pass self)) (gBest self)).
  { destruct Hnew as [[-> _]|(p & Hin & -> & _)]; [apply same_point_refl|].
    rewrite Forall_forall in Hp. now apply Hp. }
  split; [|exact G]. unfold at_rest. rewrite Be.
  split; [exact Hb|]. split; [eapply within_same_point; eauto|].
  apply Forall_lookup. intros i p' Hp'.
  destruct (Forall2_lookup_r _ _ _ _ _ F2 Hp') as (p & Hi & Ex & Ev & _ & _ & _ & Epb).
  destruct (Forall_lookup_1 _ _ _ _ Hp Hi) as (Px & Pb & Pv).
  apply same_point_sym in G.
  rewrite Ex, Ev. split; [eapply same_point_trans; eauto|]. split; [|exact Pv].
  destruct Epb as [-> | ->]; eapply same_point_trans; eauto.
Qed.

Section Rounds.
Variable tape : nat -> Q.

(** A particle at rest on the global best does not move. *)
Lemma moved_particle_at_rest self k p p' :
  wf self -> particle_wf (dimension self) p ->
  fst (bounds self) <= snd (bounds self) -> within (bounds self) (gBest self) ->
  same_point (position p) (gBest self) -> same_point (pBest p) (gBest self) ->
  Forall (fun v => v == 0) (velocity p) ->
  moved_particle tape self k p p' ->
  same_point (position p') (gBest self) /\ same_point (pBest p') (gBest self) /\
  Forall (fun v => v == 0) (velocity p').
Proof.
  intros [Wg _] (Lx & Lv & Lb) Hb Hg Px Pb Pv ((Lx' & Lv' & Lb') & Eb & _ & M).
  assert (A : forall i v' x' g, (i < dimension self)%nat ->
            velocity p' !! i = Some v' -> position p' !! i = Some x' ->
            gBest self !! i = Some g -> v' == 0 /\ x' == g).
  { intros i v' x' g Hi Hv' Hx' Hgi.
    destruct (M i Hi) as (v1 & x1 & Em & Hv1 & Hx1).
    assert (v1 = v') by congruence. assert (x1 = x') by congruence. subst v1 x1.
    unfold moved in Em.
    destruct (velocity p !! i) as [v|] eqn:Hv; [|discriminate].
    destruct (position p !! i) as [x|] eqn:Hx; [|discriminate].
    destruct (pBest p !! i) as [pb|] eqn:Hpb; [|discriminate].
    rewrite Hgi in Em. injection Em as Ev Ex. subst v' x'. clear Hv1 Hx1.
    assert (Zv : v == 0) by exact (Forall_lookup_1 _ _ _ _ Pv Hv).
    assert (Zx : x == g) by exact (Forall2_lookup_lr _ _ _ _ _ _ Px Hx Hgi).
    assert (Zb : pb == g) by exact (Forall2_lookup_lr _ _ _ _ _ _ Pb Hpb Hgi).
    assert (Bg : fst (bounds self) <= g <= snd (bounds self))
      by exact (Forall_lookup_1 _ _ _ _ Hg Hgi).
    set (v1 := new_velocity self (tape (k + 2 * i)) (tape (k + 2 * i + 1)) v pb x g).
    assert (Z1 : v1 == 0).
    { unfold v1, new_velocity. rewrite Zv, Zx, Zb. ring. }
    split; [exact Z1|].
    unfold clamp.
    destruct (clamp_spec (fst (bounds self)) (snd (bounds self)) (x + v1) Hb)
      as (_ & _ & Hin).
    assert (Hr : fst (bounds self) <= x + v1 <= snd (bounds self)) by lra.
    transitivity (x + v1); [exact (Hin Hr)|lra]. }
  split; [|split].
  - apply Forall2_same_length_lookup_2; [congruence|].
    intros i x' g Hx' Hgi.
    assert (Hi : (i < dimension self)%nat).
    { rewrite <- Lx'. eapply lookup_lt_Some; eauto. }
    destruct (lookup_lt_is_Some_2 (velocity p') i) as [v' Hv']; [lia|].
    now apply (A i v' x' g).
  - now rewrite Eb.
  - apply Forall_lookup. intros i v' Hv'.
    assert (Hi : (i < dimension self)%nat).
    { rewrite <- Lv'. eapply lookup_lt_Some; eauto. }
    destruct (lookup_lt_is_Some_2 (position p') i) as [x' Hx']; [lia|].
    destruct (lookup_lt_is_Some_2 (gBest self) i) as [g Hgi]; [lia|].
    now apply (A i v' x' g).
Qed.

Lemma Particle_init_velocity d b k p k' :
  unit_draws tape -> Particle_init tape d b k = Ok (p, k') ->
  Forall (fun v => -1 <= v < 1) (velocity p).
Proof.
  intros Hu E. unfold Particle_init in E.
  apply bind_Ok in E as (xs & k1 & _ & E).
  apply bind_Ok in E as (vs & k2 & Ev & E).
  inversion E; subst; clear E. cbn.
  eapply comprehension_inv in Ev; [apply Ev|].
  intros k0 a k0' Ea. rewrite uniform_Ok in Ea. inversion Ea; subst.
  destruct (Hu k0). split; lra.
Qed.

(** One round of the outer loop, on a well-formed swarm. *)
Lemma iteration_Ok self k :
  wf self ->
  exists s',
    iteration tape self k =
      Ok (s', k + 2 * dimension self * length (particles self))%nat /\
    wf s' /\ same_params self s' /\
    length (particles s') = length (particles self) /\
    gBest s' = gBest (evaluation_pass self) /\
    gBest_fitness s' = gBest_fitness (evaluation_pass self) /\
    Forall2 (fun p p' =>
       pBest p' = pBest p /\ pBest_fitness p' = pBest_fitness p /\
       (fst (bounds self) <= snd (bounds self) -> within (bounds self) (position p')))
      (particles (evaluation_pass self)) (particles s').
Proof.
  intros Hwf. unfold iteration.
  pose proof (evaluation_pass_frame self) as (Fe & Xe & _ & We & _).
  specialize (We Hwf).
  assert (Le : length (particles (evaluation_pass self)) = length (particles self)).
  { rewrite <- (length_map position), Xe, length_map. reflexivity. }
  assert (De : dimension (evaluation_pass self) = dimension self) by apply Fe.
  assert (Be : bounds (evaluation_pass self) = bounds self) by apply Fe.
  destruct (move_pass_Ok tape (evaluation_pass self) k We)
    as (s' & E & F & G & GF & W & L & Mv).
  exists s'. rewrite De, Le in E.
  split; [exact E|]. split; [exact W|].
  split; [eauto using same_params_trans|].
  split; [congruence|]. split; [exact G|]. split; [exact GF|].
  apply Forall2_same_length_lookup_2; [congruence|].
  intros i p p' Hp Hp'.
  destruct (Mv i p Hp) as (q & Hq & M).
  assert (q = p') by congruence. subst q.
  split; [apply M|]. split; [apply M|].
  intros Hb. rewrite <- Be in *. eapply moved_particle_in_bounds; eauto.
Qed.

(** [n] rounds complete and read two draws per coordinate, particle
    and round. *)
Lemma iterations_Ok n : forall self k,
  wf self ->
  exists s,
    iterations tape n self k =
      Ok (s, k + n * (2 * dimension self * length (particles self)))%nat /\
    wf s /\ same_params self s /\
    length (particles s) = length (particles self).
Proof.
  induction n as [|n IH]; intros self k Hwf.
  - exists self. cbn. unfold ret. rewrite Nat.add_0_r.
    auto using same_params_refl.
  - destruct (IH self k Hwf) as (s & E & W & F & L).
    destruct (iteration_Ok s (k + n * (2 * dimension self * length (particles self)))%nat W)
      as (s' & E' & W' & F' & L' & _).
    exists s'. unfold iterations in *.
    rewrite repeat_n_snoc, (bind_step _ _ _ _ _ E), E'.
    assert (D : dimension s = dimension self) by apply F.
    rewrite D, L.
    split; [f_equal; f_equal; lia|].
    split; [exact W'|]. split; [eauto using same_params_trans|congruence].
Qed.

(** What [n] rounds leave: the global best fitness has not gone up, it
    is at most the objective value of every position a particle held
    at the start of a round (the positions the evaluation pass of that
    round reads), and the global best is the one the rounds started
    from or one of those positions, recorded with its value. *)
Lemma iterations_history n : forall self k,
  wf self ->
  exists s k',
    iterations tape n self k = Ok (s, k') /\ wf s /\
    gBest_fitness s <= gBest_fitness self /\
    (forall j, (j < n)%nat -> exists sj kj,
        iterations tape j self k = Ok (sj, kj) /\
        Forall (fun p => gBest_fitness s <= fitness_of p) (particles sj)) /\
    ((gBest s = gBest self /\ gBest_fitness s = gBest_fitness self) \/
     exists j sj kj p,
       (j < n)%nat /\ iterations tape j self k = Ok (sj, kj) /\
       p ∈ particles sj /\ gBest s = position p /\ gBest_fitness s = fitness_of p).
Proof.
  induction n as [|n IH]; intros self k Hwf.
  - exists self, k. split; [reflexivity|]. split; [exact Hwf|].
    split; [lra|]. split; [intros j Hj; lia|]. left. auto.
  - destruct (IH self k Hwf) as (s & k1 & E & W & Hle & Hall & Hsrc).
    destruct (iteration_Ok s k1 W) as (s' & E' & W' & _ & _ & G & GF & _).
    pose proof (evaluation_pass_particles s) as (_ & Hev & Hdown & Hnew).
    exists s'. eexists. unfold iterations in *.
    rewrite repeat_n_snoc, (bind_step _ _ _ _ _ E).
    split; [exact E'|]. split; [exact W'|].
    rewrite GF, G. split; [lra|]. split.
    + intros j Hj. destruct (decide (j = n)) as [->|Hne].
      * exists s, k1. split; [exact E|exact Hev].
      * destruct (Hall j ltac:(lia)) as (sj & kj & Ej & Fj).
        exists sj, kj. split; [exact Ej|].
        eapply Forall_impl; [exact Fj|]. cbn. intros p Hp. lra.
    + destruct Hnew as [[H1 H2]|(p & Hp & H1 & H2)].
      * rewrite H1, H2. destruct Hsrc as [Hsrc|(j & sj & kj & p & Hj & Ej & Hp & H3)].
        -- left. exact Hsrc.
        -- right. exists j, sj, kj, p. split; [lia|]. auto.
      * right. exists n, s, k1, p. split; [lia|]. auto.
Qed.

End Rounds.

End PsoRunFacts.

(** *** The particle swarm: further properties *)

Module PsoProperties.
Import Py PyFacts Pso PsoStates Machine PsoFacts PsoRunFacts Examples MoreExamples.
Local Open Scope Q_scope.

(** X1.  The objective is a sum of squares: a value it returns is never
    negative, and at the origin it is zero. *)
Theorem objective_function_nonneg_zero_at_origin x :
  ~ objective_function x < 0 /\
  (Forall (fun x_i => x_i == 0) x -> objective_function x == 0).
Proof.
  unfold objective_function. split.
  - pose proof (sum_squares_ge x 0). lra.
  - intros H. apply sum_squares_zero; [lra|]. split; [reflexivity|exact H].
Qed.

(** X2.  The script.  With no particle the constructor fails on
    [self.particles[0]] with an IndexError, before any round.  A call
    that returns had at least one particle and has read two draws per
    coordinate and particle in the constructor and two more in every
    round; the swarm has kept its size, and the pair returned is the
    global best of the swarm as the last round left it. *)
Theorem main_returns_after_counted_draws tape d b np mi k :
  (np = 0%nat -> main tape d b np mi k = Raise IndexError) /\
  (forall best_position best_fitness s k',
     main tape d b np mi k = Ok (best_position, best_fitness, s, k') ->
     (1 <= np)%nat /\ k' = (k + 2 * d * np * (1 + mi))%nat /\
     length best_position = d /\ length (particles s) = np /\
     best_position = gBest s /\ best_fitness = gBest_fitness s).
Proof.
  unfold main. split.
  - intros ->. unfold bind. now rewrite PSO_init_empty.
  - intros bp bf s k' Em.
    destruct (Nat.eq_dec np 0%nat) as [->|Hnp].
    { unfold bind in Em. rewrite PSO_init_empty in Em. discriminate. }
    destruct (PSO_init_Ok tape d b np mi k ltac:(lia))
      as (pso & p0 & rest & E & Ed & _ & Emi & _ & L & _ & _ & _ & Hwf & _).
    rewrite (bind_step _ _ _ _ _ E) in Em. unfold optimize in Em.
    destruct (iterations_Ok tape (max_iterations pso) pso (k + np * (2 * d))%nat Hwf)
      as (s' & Es & Ws & Fs & Ls).
    rewrite (bind_step _ _ _ _ _ Es) in Em. unfold ret in Em.
    injection Em as <- <- <- <-.
    split; [lia|]. split; [rewrite Ed, L, Emi; lia|].
    split; [|split; [congruence|auto]].
    destruct Ws as [Wg _]. rewrite Wg. destruct Fs as [-> _]. exact Ed.
Qed.

(** X3.  For bounds whose width is a finite float, in every run that
    returns: every particle's personal best is recorded with its own
    objective value, at the start of every round; right after an
    evaluation pass it is, in addition, at least as good as the
    particle's current position; and from one round to the next no
    particle's personal-best fitness goes up. *)
Theorem pBest_fitness_is_objective_of_pBest tape d b np mi k pso k1 :
  finite_width b ->
  PSO_init tape d b np mi k = Ok (pso, k1) ->
  (forall n s k2, iterations tape n pso k1 = Ok (s, k2) ->
     Forall (fun p => pBest_fitness p = objective_function (pBest p)) (particles s)) /\
  (forall j s k2, after_evaluation tape j pso k1 = Ok (s, k2) ->
     Forall (fun p => pBest_fitness p = objective_function (pBest p) /\
                      pBest_fitness p <= objective_function (position p))
            (particles s)) /\
  (forall n s k2 s' k3,
     iterations tape n pso k1 = Ok (s, k2) ->
     iterations tape (S n) pso k1 = Ok (s', k3) ->
     Forall2 (fun p p' => pBest_fitness p' <= pBest_fitness p)
             (particles s) (particles s')).
Proof.
  intros _ E0.
  assert (Hnp : (1 <= np)%nat).
  { destruct np; [rewrite PSO_init_empty in E0; discriminate|lia]. }
  destruct (PSO_init_Ok tape d b np mi k Hnp)
    as (pso' & p0 & rest & E & _ & _ & _ & _ & _ & _ & _ & Hfresh & Hwf & _).
  same_swarm E0 E.
  set (P := fun s : PSO => Forall pBest_consistent (particles s)).
  assert (HE : forall s, P s ->
            Forall (fun p => pBest_consistent p /\ pBest_fitness p <= fitness_of p)
                   (particles (evaluation_pass s))).
  { intros s Ps. pose proof (evaluation_pass_particles s) as (F2 & _).
    apply Forall_lookup. intros i p' Hp'.
    destruct (Forall2_lookup_r _ _ _ _ _ F2 Hp') as (p & Hp & Hx & _ & _ & Hle & Hc & _).
    split; [|unfold fitness_of in *; rewrite Hx; exact Hle].
    apply Hc. eapply Forall_lookup_1; eauto. }
  assert (R : forall n, exists s k2,
             iterations tape n pso (k + np * (2 * d))%nat = Ok (s, k2) /\ wf s /\ P s).
  { intros n.
    destruct (iterations_rule tape P P) with (n := n) (self := pso)
      (k := (k + np * (2 * d))%nat) as (s & k2 & Es & Ws & Ps & _); eauto.
    - intros s _ Ps. eapply Forall_impl; [exact (HE s Ps)|]. now intros p [Hp _].
    - intros s s' k0 Ws Qs _ Mv _ _ _ L. assert (P s'); [|tauto].
      apply Forall_lookup. intros i p' Hp'.
      destruct (lookup_lt_is_Some_2 (particles s) i) as [p Hp].
      { rewrite <- L. eapply lookup_lt_Some; eauto. }
      destruct (Mv i p Hp) as (q & Hq & _ & Epb & Epf & _).
      assert (q = p') by congruence. subst q.
      unfold pBest_consistent. rewrite Epb, Epf.
      exact (Forall_lookup_1 _ _ _ _ Qs Hp).
    - eapply Forall_impl; [exact Hfresh|]. intros p [Hp Hf].
      unfold pBest_consistent. congruence. }
  split; [|split].
  - intros n s k2 En. destruct (R n) as (s1 & k3 & Es & _ & Ps).
    rewrite En in Es. injection Es as <- <-. exact Ps.
  - intros j s k2 Ej. destruct (R j) as (s1 & k3 & Es & _ & Ps).
    unfold after_evaluation in Ej. rewrite (bind_step _ _ _ _ _ Es) in Ej.
    injection Ej as <- <-. exact (HE s1 Ps).
  - intros n s k2 s' k3 En En'. destruct (R n) as (s1 & k4 & Es & Ws & Ps).
    rewrite En in Es. injection Es as <- <-.
    destruct (iteration_Ok tape s k2 Ws) as (s2 & E' & _ & _ & _ & _ & _ & Fm).
    unfold iterations in En, En'. rewrite repeat_n_snoc, (bind_step _ _ _ _ _ En) in En'.
    rewrite En' in E'. injection E' as <- _.
    pose proof (evaluation_pass_particles s) as (F2 & _).
    apply Forall2_same_length_lookup_2.
    { rewrite (Forall2_length _ _ _ F2). exact (Forall2_length _ _ _ Fm). }
    intros i p p' Hp Hp'.
    destruct (Forall2_lookup_l _ _ _ _ _ F2 Hp) as (q & Hq & _ & _ & Hle & _).
    destruct (Forall2_lookup_l _ _ _ _ _ Fm Hq) as (q' & Hq' & _ & Ef & _).
    assert (q' = p') by congruence. subst q'. rewrite Ef. exact Hle.
Qed.

Lemma pBest_fitness_is_objective_of_pBest_witness :
  finite_width (-10, 10) /\
  exists pso k1,
    PSO_init cycle_tape 2 (-10, 10) 2 3 0%nat = Ok (pso, k1) /\
    (forall n s k2, iterations cycle_tape n pso k1 = Ok (s, k2) ->
       Forall (fun p => pBest_fitness p = objective_function (pBest p)) (particles s)) /\
    (forall j s k2, after_evaluation cycle_tape j pso k1 = Ok (s, k2) ->
       Forall (fun p => pBest_fitness p = objective_function (pBest p) /\
                        pBest_fitness p <= objective_function (position p))
              (particles s)) /\
    (forall n s k2 s' k3,
       iterations cycle_tape n pso k1 = Ok (s, k2) ->
       iterations cycle_tape (S n) pso k1 = Ok (s', k3) ->
       Forall2 (fun p p' => pBest_fitness p' <= pBest_fitness p)
               (particles s) (particles s')).
Proof.
  assert (Hw : finite_width (-10, 10)) by (vm_compute; reflexivity).
  split; [exact Hw|].
  destruct (PSO_init cycle_tape 2 (-10, 10) 2 3 0%nat) as [[pso k1]| |] eqn:E.
  - exists pso, k1. split; [reflexivity|].
    exact (pBest_fitness_is_objective_of_pBest cycle_tape 2 (-10, 10) 2 3 0%nat pso k1 Hw E).
  - vm_compute in E. discriminate.
  - vm_compute in E. discriminate.
Defined.

(** X4.  What [optimize] returns is the best of everything the run has
    evaluated.  For bounds whose width is a finite float, in a run that
    returns the returned fitness is at most the fitness the constructor
    seeded and at most the objective value of every position a particle
    held at the start of a round, which are the positions the
    evaluation pass of that round reads; and with at least one round
    the returned position is one of those positions, returned with its
    own objective value. *)
Theorem optimize_returns_least_evaluated_fitness
        tape d b np mi k pso k1 best_position best_fitness s k2 :
  finite_width b ->
  PSO_init tape d b np mi k = Ok (pso, k1) ->
  optimize tape pso k1 = Ok (best_position, best_fitness, s, k2) ->
  best_fitness <= gBest_fitness pso /\
  (forall j sj kj, (j < mi)%nat ->
     iterations tape j pso k1 = Ok (sj, kj) ->
     Forall (fun p => best_fitness <= objective_function (position p))
            (particles sj)) /\
  ((1 <= mi)%nat ->
   exists j sj kj p,
     (j < mi)%nat /\ iterations tape j pso k1 = Ok (sj, kj) /\
     p ∈ particles sj /\ best_position = position p /\
     best_fitness = objective_function (position p)).
Proof.
  intros _ E0 Eo.
  assert (Hnp : (1 <= np)%nat).
  { destruct np; [rewrite PSO_init_empty in E0; discriminate|lia]. }
  destruct (PSO_init_Ok tape d b np mi k Hnp)
    as (pso' & p0 & rest & E & _ & _ & Emi & Eps & _ & Eg & Egf & Hfresh & Hwf & _).
  same_swarm E0 E.
  destruct (iterations_history tape mi pso (k + np * (2 * d))%nat Hwf)
    as (s' & k2' & Es & _ & Hle & Hall & Hsrc).
  unfold optimize in Eo. rewrite Emi, (bind_step _ _ _ _ _ Es) in Eo.
  injection Eo as <- <- <- <-.
  split; [exact Hle|]. split.
  - intros j sj kj Hj Ej. destruct (Hall j Hj) as (sj' & kj' & Ej' & F).
    rewrite Ej in Ej'. injection Ej' as <- <-. exact F.
  - intros Hmi. destruct Hsrc as [[H1 H2]|Hsrc]; [|exact Hsrc].
    exists 0%nat, pso, (k + np * (2 * d))%nat, p0.
    split; [lia|]. split; [reflexivity|].
    split; [rewrite Eps; left|]. split; [congruence|].
    rewrite H2, Egf. rewrite Eps in Hfresh. apply Forall_inv in Hfresh. apply Hfresh.
Qed.

Lemma optimize_returns_least_evaluated_fitness_witness :
  finite_width (-10, 10) /\
  exists pso k1 best_position best_fitness s k2,
    PSO_init cycle_tape 2 (-10, 10) 2 3 0%nat = Ok (pso, k1) /\
    optimize cycle_tape pso k1 = Ok (best_position, best_fitness, s, k2) /\
    best_fitness <= gBest_fitness pso /\
    (forall j sj kj, (j < 3)%nat ->
       iterations cycle_tape j pso k1 = Ok (sj, kj) ->
       Forall (fun p => best_fitness <= objective_function (position p))
              (particles sj)) /\
    ((1 <= 3)%nat ->
     exists j sj kj p,
       (j < 3)%nat /\ iterations cycle_tape j pso k1 = Ok (sj, kj) /\
       p ∈ particles sj /\ best_position = position p /\
       best_fitness = objective_function (position p)).
Proof.
  assert (Hw : finite_width (-10, 10)) by (vm_compute; reflexivity).
  split; [exact Hw|].
  destruct (PSO_init cycle_tape 2 (-10, 10) 2 3 0%nat) as [[pso k1]| |] eqn:E;
    [|vm_compute in E; discriminate..].
  destruct (optimize cycle_tape pso k1) as [[[[bp bf] s] k2]| |] eqn:Eo.
  - exists pso, k1, bp, bf, s, k2. split; [reflexivity|]. split; [exact Eo|].
    exact (optimize_returns_least_evaluated_fitness cycle_tape 2 (-10, 10) 2 3 0%nat
             pso k1 bp bf s k2 Hw E Eo).
  - vm_compute in E. injection E as <- <-. vm_compute in Eo. discriminate.
  - vm_compute in E. injection E as <- <-. vm_compute in Eo. discriminate.
Defined.

(** X5.  With bounds [lower <= upper] that are floats whose width is a
    finite float, and draws in [0, 1), the remembered positions stay
    inside the search space as well: in every run that returns the
    global best and every personal best lie within the bounds at the
    start of every round and after every evaluation pass, and so does
    the position [optimize] returns. *)
Theorem best_positions_stay_within_bounds tape d b np mi k pso k1 :
  unit_draws tape -> fst b <= snd b -> float_bounds b ->
  PSO_init tape d b np mi k = Ok (pso, k1) ->
  (forall n s k2, iterations tape n pso k1 = Ok (s, k2) ->
     within b (gBest s) /\ Forall (fun p => within b (pBest p)) (particles s)) /\
  (forall j s k2, after_evaluation tape j pso k1 = Ok (s, k2) ->
     within b (gBest s) /\ Forall (fun p => within b (pBest p)) (particles s)) /\
  (forall best_position best_fitness s k2,
     optimize tape pso k1 = Ok (best_position, best_fitness, s, k2) ->
     within b best_position).
Proof.
  intros Hu Hb _ E0.
  assert (Hnp : (1 <= np)%nat).
  { destruct np; [rewrite PSO_init_empty in E0; discriminate|lia]. }
  destruct (PSO_init_Ok tape d b np mi k Hnp)
    as (pso' & p0 & rest & E & _ & Eb & _ & Eps & _ & Eg & _ & Hfresh & Hwf & Hin).
  same_swarm E0 E.
  specialize (Hin Hu Hb).
  set (P := fun s : PSO =>
    bounds s = b /\ in_bounds s /\ within b (gBest s) /\
    Forall (fun p => within b (pBest p)) (particles s)).
  assert (HE : forall s, P s -> P (evaluation_pass s)).
  { intros s (Bs & Is & Gs & Ps).
    pose proof (evaluation_pass_frame s) as ((_ & Be & _) & _).
    pose proof (evaluation_pass_particles s) as (F2 & _ & _ & Hnew).
    split; [congruence|]. split; [now apply in_bounds_evaluation_pass|].
    unfold in_bounds in Is. rewrite Bs in Is. split.
    - destruct Hnew as [[-> _]|(p & Hp & -> & _)]; [exact Gs|].
      apply list_elem_of_lookup in Hp as [i Hp].
      exact (Forall_lookup_1 _ _ _ _ Is Hp).
    - apply Forall_lookup. intros i p' Hp'.
      destruct (Forall2_lookup_r _ _ _ _ _ F2 Hp') as (p & Hp & _ & _ & _ & _ & _ & [->| ->]).
      + exact (Forall_lookup_1 _ _ _ _ Ps Hp).
      + exact (Forall_lookup_1 _ _ _ _ Is Hp). }
  assert (P0 : P pso).
  { split; [exact Eb|]. split; [exact Hin|].
    unfold in_bounds in Hin. rewrite Eb in Hin. split.
    - rewrite Eg. rewrite Eps in Hin. now apply Forall_inv in Hin.
    - apply Forall_lookup. intros i p Hp.
      destruct (Forall_lookup_1 _ _ _ _ Hfresh Hp) as [-> _].
      exact (Forall_lookup_1 _ _ _ _ Hin Hp). }
  assert (R : forall n, exists s k2,
             iterations tape n pso (k + np * (2 * d))%nat = Ok (s, k2) /\ P s).
  { intros n.
    destruct (iterations_rule tape P P) with (n := n) (self := pso)
      (k := (k + np * (2 * d))%nat) as (s & k2 & Es & Ws & Ps & _); auto.
    - intros s s' k0 _ (Bs & _ & Gs & Ps) _ Mv (_ & Bs' & _) G _ L.
      assert (P s'); [|tauto].
      split; [congruence|].
      assert (A : forall i p', particles s' !! i = Some p' ->
                  within b (position p') /\ within b (pBest p')).
      { intros i p' Hp'.
        destruct (lookup_lt_is_Some_2 (particles s) i) as [p Hp].
        { rewrite <- L. eapply lookup_lt_Some; eauto. }
        destruct (Mv i p Hp) as (q & Hq & M).
        assert (q = p') by congruence. subst q. split.
        - unfold within. rewrite <- Bs.
          eapply moved_particle_in_bounds; [|exact M]. now rewrite Bs.
        - destruct M as (_ & -> & _). exact (Forall_lookup_1 _ _ _ _ Ps Hp). }
      split; [|split; [now rewrite G|]].
      + unfold in_bounds. rewrite Bs', Bs. apply Forall_lookup.
        intros i p' Hp'. now apply (A i p').
      + apply Forall_lookup. intros i p' Hp'. now apply (A i p').
    - eauto. }
  split; [|split].
  - intros n s k2 En. destruct (R n) as (s' & k2' & Es & (_ & _ & Gs & Pp)).
    rewrite En in Es. injection Es as <- <-. auto.
  - intros j s k2 Ej. destruct (R j) as (s' & k2' & Es & Ps).
    unfold after_evaluation in Ej. rewrite (bind_step _ _ _ _ _ Es) in Ej.
    injection Ej as <- <-. destruct (HE s' Ps) as (_ & _ & Ge & Pe). auto.
  - intros bp bf s k2 Eo.
    destruct (R (max_iterations pso)) as (s' & k2' & Es & _ & _ & Gs & _).
    unfold optimize in Eo. rewrite (bind_step _ _ _ _ _ Es) in Eo.
    injection Eo as <- <- <- <-. exact Gs.
Qed.

Lemma best_positions_stay_within_bounds_witness :
  unit_draws cycle_tape /\ fst (-10, 10) <= snd (-10, 10) /\ float_bounds (-10, 10) /\
  exists pso k1,
    PSO_init cycle_tape 2 (-10, 10) 2 3 0%nat = Ok (pso, k1) /\
    (forall n s k2, iterations cycle_tape n pso k1 = Ok (s, k2) ->
       within (-10, 10) (gBest s) /\
       Forall (fun p => within (-10, 10) (pBest p)) (particles s)) /\
    (forall j s k2, after_evaluation cycle_tape j pso k1 = Ok (s, k2) ->
       within (-10, 10) (gBest s) /\
       Forall (fun p => within (-10, 10) (pBest p)) (particles s)) /\
    (forall best_position best_fitness s k2,
       optimize cycle_tape pso k1 = Ok (best_position, best_fitness, s, k2) ->
       within (-10, 10) best_position).
Proof.
  pose proof ExampleFacts.cycle_tape_unit_draws as Hu.
  assert (Hb : fst (-10, 10) <= snd (-10, 10)) by (cbn; lra).
  assert (Hw : float_bounds (-10, 10)).
  { split; [exists (-5)%Z, 1%Z; repeat split; try lia; vm_compute; reflexivity|].
    split; [exists 5%Z, 1%Z; repeat split; try lia; vm_compute; reflexivity|].
    vm_compute. reflexivity. }
  split; [exact Hu|]. split; [exact Hb|]. split; [exact Hw|].
  destruct (PSO_init cycle_tape 2 (-10, 10) 2 3 0%nat) as [[pso k1]| |] eqn:E.
  - exists pso, k1. split; [reflexivity|].
    exact (best_positions_stay_within_bounds cycle_tape 2 (-10, 10) 2 3 0%nat pso k1
             Hu Hb Hw E).
  - vm_compute in E. discriminate.
  - vm_compute in E. discriminate.
Defined.

(** X6.  The swarm a constructor call returns, for draws in [0, 1) and
    bounds whose width is a finite float.  There is at least one
    particle; the call has read two draws per coordinate and particle;
    the coefficients are [w = 0.5] and [c1 = c2 = 1.5]; every particle
    has [dimension] coordinates, an initial velocity within [-1, 1) in
    every coordinate, and its starting position as its personal best,
    recorded with the objective value of that position. *)
Theorem constructed_swarm_is_fresh tape d b np mi k pso k1 :
  unit_draws tape -> finite_width b ->
  PSO_init tape d b np mi k = Ok (pso, k1) ->
  (1 <= np)%nat /\ k1 = (k + 2 * d * np)%nat /\
  w pso = 1 # 2 /\ c1 pso = 3 # 2 /\ c2 pso = 3 # 2 /\
  num_particles pso = np /\ length (particles pso) = np /\
  Forall (fun p => length (position p) = d /\ length (velocity p) = d /\
                   Forall (fun v => -1 <= v < 1) (velocity p) /\
                   pBest p = position p /\
                   pBest_fitness p = objective_function (position p))
         (particles pso).
Proof.
  intros Hu _ E0.
  assert (Hnp : (1 <= np)%nat).
  { destruct np; [rewrite PSO_init_empty in E0; discriminate|lia]. }
  destruct (PSO_init_Ok tape d b np mi k Hnp)
    as (pso' & p0 & rest & E & Ed & _ & _ & _ & L & _ & _ & Hfresh & [_ Hwf] & _).
  pose proof E0 as E'.
  same_swarm E0 E.
  split; [exact Hnp|]. split; [lia|].
  unfold PSO_init in E'.
  apply bind_Ok in E' as (ps & k1 & Eps & E').
  apply bind_Ok in E' as (q & k2 & _ & E').
  inversion E'; subst pso; clear E'. cbn in *.
  repeat (split; [reflexivity|]). split; [exact L|].
  eapply comprehension_inv in Eps as [_ Hv];
    [|intros k0 a k0' Ea; exact (Particle_init_velocity tape d b k0 a k0' Hu Ea)].
  apply Forall_lookup. intros i p Hp.
  destruct (Forall_lookup_1 _ _ _ _ Hwf Hp) as (Lx & Lv & _).
  destruct (Forall_lookup_1 _ _ _ _ Hfresh Hp) as [Hb Hf].
  pose proof (Forall_lookup_1 _ _ _ _ Hv Hp) as Hr.
  auto.
Qed.

Lemma constructed_swarm_is_fresh_witness :
  unit_draws cycle_tape /\ finite_width (-10, 10) /\
  exists pso k1,
    PSO_init cycle_tape 2 (-10, 10) 2 3 0%nat = Ok (pso, k1) /\
    (1 <= 2)%nat /\ k1 = (0 + 2 * 2 * 2)%nat /\
    w pso = 1 # 2 /\ c1 pso = 3 # 2 /\ c2 pso = 3 # 2 /\
    num_particles pso = 2%nat /\ length (particles pso) = 2%nat /\
    Forall (fun p => length (position p) = 2%nat /\ length (velocity p) = 2%nat /\
                     Forall (fun v => -1 <= v < 1) (velocity p) /\
                     pBest p = position p /\
                     pBest_fitness p = objective_function (position p))
           (particles pso).
Proof.
  pose proof ExampleFacts.cycle_tape_unit_draws as Hu.
  assert (Hw : finite_width (-10, 10)) by (vm_compute; reflexivity).
  split; [exact Hu|]. split; [exact Hw|].
  destruct (PSO_init cycle_tape 2 (-10, 10) 2 3 0%nat) as [[pso k1]| |] eqn:E.
  - exists pso, k1. split; [reflexivity|].
    exact (constructed_swarm_is_fresh cycle_tape 2 (-10, 10) 2 3 0%nat pso k1 Hu Hw E).
  - vm_compute in E. discriminate.
  - vm_compute in E. discriminate.
Defined.

(** X7.  A swarm at rest on its global best never moves again: if every
    particle sits on the global best, inside the bounds, with that point
    as its personal best and with no velocity, then after any number of
    rounds every particle still sits there with no velocity, and the
    global best still has the same coordinates. *)
Theorem swarm_at_rest_stays_at_rest tape self k :
  wf self -> at_rest self ->
  forall n, exists s k',
    iterations tape n self k = Ok (s, k') /\
    at_rest s /\ same_point (gBest s) (gBest self) /\
    Forall (fun p => same_point (position p) (gBest self) /\
                     Forall (fun v => v == 0) (velocity p))
           (particles s).
Proof.
  intros Hwf Hrest n.
  set (P := fun s : PSO => at_rest s /\ same_point (gBest s) (gBest self)).
  destruct (iterations_rule tape P P) with (n := n) (self := self) (k := k)
    as (s & k' & Es & _ & [Rs Gs] & _); auto.
  - intros s _ [Rs Gs]. destruct (at_rest_evaluation_pass s Rs) as [Re Ge].
    split; [exact Re|]. eapply same_point_trans; eauto.
  - intros s s' k0 Ws [(Hb & Hg & Hp) Gs] _ Mv (_ & Bs' & _) G _ L.
    assert (P s'); [|tauto].
    split; [|now rewrite G]. unfold at_rest. rewrite Bs', G.
    split; [exact Hb|]. split; [exact Hg|].
    apply Forall_lookup. intros i p' Hp'.
    destruct (lookup_lt_is_Some_2 (particles s) i) as [p Hi].
    { rewrite <- L. eapply lookup_lt_Some; eauto. }
    destruct (Mv i p Hi) as (q & Hq & M).
    assert (q = p') by congruence. subst q.
    destruct (Forall_lookup_1 _ _ _ _ Hp Hi) as (Px & Pb & Pv).
    destruct Ws as [Wg Wp].
    eapply moved_particle_at_rest; eauto.
    + split; assumption.
    + exact (Forall_lookup_1 _ _ _ _ Wp Hi).
  - split; [exact Hrest|apply same_point_refl].
  - exists s, k'. split; [exact Es|]. split; [exact Rs|]. split; [exact Gs|].
    destruct Rs as (_ & _ & Hp). eapply Forall_impl; [exact Hp|].
    cbn. intros p (Px & _ & Pv). split; [|exact Pv].
    eapply same_point_trans; eauto.
Qed.

Lemma swarm_at_rest_stays_at_rest_witness :
  wf resting_swarm /\ at_rest resting_swarm /\
  forall n, exists s k',
    iterations cycle_tape n resting_swarm 0%nat = Ok (s, k') /\
    at_rest s /\ same_point (gBest s) (gBest resting_swarm) /\
    Forall (fun p => same_point (position p) (gBest resting_swarm) /\
                     Forall (fun v => v == 0) (velocity p))
           (particles s).
Proof.
  assert (Hwf : wf resting_swarm).
  { split; [reflexivity|]. repeat constructor. }
  assert (Hrest : at_rest resting_swarm).
  { split; [cbn; lra|]. split.
    - repeat constructor; cbn; lra.
    - repeat constructor; cbn; reflexivity. }
  split; [exact Hwf|]. split; [exact Hrest|].
  exact (swarm_at_rest_stays_at_rest cycle_tape resting_swarm 0%nat Hwf Hrest).
Defined.

End PsoProperties.

(** *** The ant colony: calls that return, failures and tours *)

Module AcoRunFacts.
Import Py PyFacts Np NpFacts Aco AcoStates AcoFacts Examples.
Local Open Scope Q_scope.

(** **** What a call that returns has done *)

(** [np.random.choice] returns the index its search finds, after all
    its checks have passed and one draw. *)
Lemma random_choice_search tape n p k c k' :
  random_choice tape n p k = Ok (c, k') ->
  c = searchsorted_right
        (map (fun x => fdiv x (List.last (cumsum p) NaN)) (cumsum p)) (tape k) /\
  (c < n)%nat /\ k' = S k /\
  is_nan (kahan_sum p) = false /\
  existsb (fun p_i => fltb p_i (Fin 0)) p = false /\
  fltb (Fin atol) (fabs (fsub (kahan_sum p) (Fin 1))) = false.
Proof.
  unfold random_choice.
  destruct (decide (n = 0%nat)); [discriminate|].
  destruct (is_nan _); [discriminate|].
  destruct (existsb _ p); [discriminate|].
  destruct (fltb (Fin atol) _); [discriminate|].
  unfold bind, random_random.
  destruct (decide _) as [Hc|]; [|discriminate].
  unfold ret. intros H. inversion H; subst. repeat split; auto.
Qed.

(** A comprehension that returns has run its body [n] times. *)
Lemma comprehension_draws {A} (P : A -> Prop) (step : nat) (body : M A) :
  (forall k a k', body k = Ok (a, k') -> k' = (k + step)%nat /\ P a) ->
  forall n k l k', comprehension n body k = Ok (l, k') ->
    k' = (k + n * step)%nat /\ length l = n /\ Forall P l.
Proof.
  intros Hbody. induction n as [|n IH]; intros k l k'; cbn [comprehension].
  - unfold ret. intros H; inversion H; subst. split; [lia|]. split; [reflexivity|constructor].
  - intros H. apply bind_Ok in H as (a & k1 & Ea & H).
    apply bind_Ok in H as (l1 & k2 & El & H). unfold ret in H. inversion H; subst.
    destruct (Hbody _ _ _ Ea) as [-> Pa].
    destruct (IH _ _ _ El) as (-> & Hlen & HP).
    split; [lia|]. split; [cbn; lia|]. constructor; assumption.
Qed.

Section Returned.
Variable unit_tape : nat -> Q.
Variable raw_tape : nat -> nat.
Variable np_power : f64 -> Q -> f64.

Lemma choose_next_city_draw self current_city (path : tour) k c k' :
  choose_next_city unit_tape np_power self current_city path k = Ok (c, k') ->
  k' = S k.
Proof using Type.
  clear raw_tape. unfold choose_next_city. intros H.
  apply bind_Ok in H as (l & k1 & Hs & H).
  apply scores_inv in Hs as (-> & _).
  now apply random_choice_search in H as (_ & _ & -> & _).
Qed.

(** The loop of [construct_solution] appends city after city, each
    chosen from the city before it and the path so far, on one draw. *)
Lemma construct_loop_trace fuel self : forall (path : tour) k path' k',
  path <> [] ->
  construct_loop unit_tape np_power fuel self path k = Ok (path', k') ->
  exists rest,
    path' = path ++ rest /\ k' = (k + length rest)%nat /\
    ((length path <= n_cities self)%nat -> length path' = n_cities self) /\
    forall i c, (length path <= i)%nat -> path' !! i = Some c ->
      exists current_city,
        path' !! (i - 1)%nat = Some current_city /\
        choose_next_city unit_tape np_power self current_city (take i path')
                         (k + (i - length path))%nat
          = Ok (c, S (k + (i - length path)))%nat.
Proof using Type.
  clear raw_tape.
  induction fuel as [|fuel IH]; intros path k path' k' Hne;
    cbn [construct_loop]; destruct (decide (length path < n_cities self)%nat) as [Hlt|Hge].
  - discriminate.
  - unfold ret. intros H; inversion H; subst. exists [].
    rewrite app_nil_r. cbn [length]. split; [reflexivity|]. split; [lia|].
    split; [lia|]. intros i c Hi Hc. apply lookup_lt_Some in Hc. lia.
  - intros H. apply bind_Ok in H as (cur & k1 & H1 & H).
    apply bind_Ok in H as (next & k2 & H2 & H).
    assert (Hlast : last path = Some cur /\ k1 = k).
    { destruct path as [|x path] using rev_ind; [contradiction|].
      rewrite last_snoc.
      assert (E : py_getitem (path ++ [x]) (-1) k = Ok (x, k)).
      { apply py_getitem_last. apply last_snoc. }
      rewrite E in H1. inversion H1; subst. auto. }
    destruct Hlast as [Hlast ->].
    pose proof (choose_next_city_draw _ _ _ _ _ _ H2) as ->.
    apply IH in H as (rest & -> & -> & Hlen & Htrace); [|now destruct path].
    exists (next :: rest). rewrite <- app_assoc. cbn [app length].
    split; [reflexivity|]. split; [lia|]. split.
    + intros _. rewrite <- app_assoc in Hlen. cbn [app] in Hlen. apply Hlen.
      rewrite length_app. cbn. lia.
    + intros i c Hi Hc. destruct (decide (i = length path)) as [->|Hne'].
      * rewrite last_lookup in Hlast.
        exists cur. split.
        { rewrite lookup_app_l by (destruct path; [contradiction|cbn; lia]).
          replace (length path - 1)%nat with (pred (length path)) by lia.
          exact Hlast. }
        rewrite take_app_length. rewrite Nat.sub_diag, Nat.add_0_r.
        rewrite lookup_app_r, Nat.sub_diag in Hc by lia. cbn in Hc.
        inversion Hc; subst c. exact H2.
      * rewrite <- app_assoc in Htrace. cbn [app] in Htrace.
        destruct (Htrace i c) as (cc & Hcc & Ech).
        { rewrite length_app. cbn. lia. }
        { exact Hc. }
        exists cc. split; [exact Hcc|].
        rewrite length_app in Ech. cbn [length] in Ech.
        replace (S k + (i - (length path + 1)))%nat with (k + (i - length path))%nat
          in Ech by lia.
        exact Ech.
  - unfold ret. intros H; inversion H; subst. exists [].
    rewrite app_nil_r. cbn [length]. split; [reflexivity|]. split; [lia|].
    split; [lia|]. intros i c Hi Hc. apply lookup_lt_Some in Hc. lia.
Qed.

Lemma construct_solution_trace fuel self k path k' :
  construct_solution unit_tape raw_tape np_power fuel self k = Ok (path, k') ->
  (1 <= n_cities self)%nat /\
  k' = (k + n_cities self)%nat /\ length path = n_cities self /\
  path !! 0%nat
    = Some (Z.to_nat (Z.of_nat (raw_tape k) mod Z.of_nat (n_cities self))) /\
  forall i c, (1 <= i)%nat -> path !! i = Some c ->
    exists current_city,
      path !! (i - 1)%nat = Some current_city /\
      choose_next_city unit_tape np_power self current_city (take i path) (k + i)%nat
        = Ok (c, S (k + i))%nat.
Proof using Type.
  unfold construct_solution. intros H.
  apply bind_Ok in H as (start & k1 & H1 & H).
  unfold random_randint in H1.
  destruct (_ <? 0)%Z eqn:E; [discriminate|]. inversion H1; subst; clear H1.
  apply Z.ltb_ge in E.
  assert (Hn : (1 <= n_cities self)%nat) by lia.
  apply construct_loop_trace in H as (rest & -> & -> & Hlen & Htrace); [|discriminate].
  cbn [length] in *. specialize (Hlen Hn).
  split; [exact Hn|]. split.
  { rewrite length_app in Hlen. cbn in Hlen. lia. }
  split; [exact Hlen|]. split.
  { cbn. f_equal. f_equal. rewrite Z.add_0_l. f_equal. lia. }
  intros i c Hi Hc. destruct (Htrace i c Hi Hc) as (cc & Hcc & Ech).
  exists cc. split; [exact Hcc|].
  replace (S k + (i - 1))%nat with (k + i)%nat in Ech by lia. exact Ech.
Qed.


Lemma fltb_below_PInf x y : fltb x y = true -> fltb x PInf = true.
Proof using Type. clear. destruct x, y; cbn; congruence. Qed.

(** A round that returns has read one draw per city and ant, and its
    running best is the one it started with or a tour of the round, a
    permutation of the cities, that is strictly shorter. *)
Lemma run_iteration_returned fuel self b k self' b' k' :
  (forall k, 0 <= unit_tape k) ->
  run_iteration unit_tape raw_tape np_power fuel (self, b) k = Ok ((self', b'), k') ->
  k' = (k + n_ants self * n_cities self)%nat /\
  n_ants self' = n_ants self /\ n_cities self' = n_cities self /\
  distances self' = distances self /\
  (b' = b \/
   exists path, fst b' = Some path /\ path ≡ₚ seq 0 (n_cities self) /\
                tour_length self path (snd b') /\ fltb (snd b') (snd b) = true).
Proof using Type.
  intros Hu. unfold run_iteration. intros H.
  apply bind_Ok in H as (paths & k1 & Hp & H).
  apply bind_Ok in H as (dists & k2 & Hd & H).
  apply bind_Ok in H as (s1 & k3 & Hup & H).
  unfold ret in H. inversion H; subst; clear H.
  apply calculate_all_inv in Hd as [-> Hd].
  apply update_pheromones_frame in Hup as (-> & Ed & En & Ea & _).
  apply (comprehension_draws (fun path => path ≡ₚ seq 0 (n_cities self))
           (n_cities self)) in Hp as (-> & Hlen & Hperm).
  2:{ intros k0 path k0' E.
      pose proof (construct_solution_trace fuel self k0 path k0' E) as (Hn & -> & _).
      split; [reflexivity|].
      destruct (construct_solution_inv unit_tape raw_tape np_power fuel self k0 path _
                  Hu Hn E) as [Hpt Hl].
      now apply complete_tour_permutation. }
  split; [reflexivity|]. split; [exact Ea|]. split; [exact En|]. split; [exact Ed|].
  destruct (improve_fold (zip paths dists) b) as [E|(Hlt & p & Hpb & Hin)];
    [now left|right].
  exists p. split; [exact Hpb|].
  apply list_elem_of_lookup in Hin as [i Hi].
  apply lookup_zip_with_Some in Hi as (p' & d' & Hpd & Hp' & Hd').
  inversion Hpd; subst p' d'.
  destruct (Forall2_lookup_l _ _ _ _ _ Hd Hp') as (d'' & Hd'' & Hl).
  assert (d'' = snd (fold_left improve (zip paths dists) b)) by congruence. subst d''.
  split; [exact (Forall_lookup_1 _ _ _ _ Hperm Hp')|]. split; [exact Hl|exact Hlt].
Qed.

Lemma run_rounds_returned fuel self : forall j k s b k',
  (forall k, 0 <= unit_tape k) ->
  run_rounds unit_tape raw_tape np_power fuel j self k = Ok ((s, b), k') ->
  k' = (k + j * (n_ants self * n_cities self))%nat /\
  n_ants s = n_ants self /\ n_cities s = n_cities self /\
  distances s = distances self /\
  (b = (None, PInf) \/
   exists path, fst b = Some path /\ path ≡ₚ seq 0 (n_cities self) /\
                tour_length self path (snd b) /\ fltb (snd b) PInf = true).
Proof using Type.
  intros j. induction j as [|j IH]; intros k s b k' Hu.
  - cbn. unfold ret. intros H; inversion H; subst.
    split; [lia|]. repeat split. now left.
  - unfold run_rounds. rewrite repeat_n_snoc. intros H.
    apply bind_Ok in H as ([s1 b1] & k1 & H1 & H).
    apply IH in H1 as (-> & Ea1 & En1 & Ed1 & Hb1); [|exact Hu].
    apply run_iteration_returned in H as (-> & Ea & En & Ed & Hb); [|exact Hu].
    rewrite Ea1, En1.
    split; [lia|]. split; [congruence|]. split; [congruence|]. split; [congruence|].
    destruct Hb as [->|(p & Hp & Hperm & Hl & Hlt)]; [exact Hb1|].
    right. exists p. split; [exact Hp|]. split; [now rewrite <- En1|].
    split; [|now apply fltb_below_PInf in Hlt].
    eapply tour_length_same_distances; [|exact Hl]. congruence.
Qed.

End Returned.

(** **** Scores and the choice of the next city *)

Section Choosing.
Variable unit_tape : nat -> Q.
Variable raw_tape : nat -> nat.
Variable np_power : f64 -> Q -> f64.

(** The score of a city that is not on the path, as the loop of
    [choose_next_city] computes it. *)
Lemma scores_lookup self current_city (path : tour) k l k' :
  scores np_power self current_city path k = Ok (l, k') ->
  forall c, (c < n_cities self)%nat -> c ∉ path ->
    exists ph d,
      entry (pheromones self) current_city c = Some ph /\
      entry (distances self) current_city c = Some d /\
      l !! c = Some (fmul (np_power ph (alpha self))
                          (np_power (fdiv (Fin 1) d) (beta self))).
Proof using Type.
  clear unit_tape raw_tape. unfold scores. intros H.
  apply (for_each_seq_inv
           (fun i l k' => length l = i /\
              forall c, (c < i)%nat -> c ∉ path ->
                exists ph d,
                  entry (pheromones self) current_city c = Some ph /\
                  entry (distances self) current_city c = Some d /\
                  l !! c = Some (fmul (np_power ph (alpha self))
                                      (np_power (fdiv (Fin 1) d) (beta self)))))
    in H; [apply H| |].
  - split; [reflexivity|]. intros; lia.
  - clear H. intros i acc k0 acc' k0' _ (Hlen & Hz) Hbody.
    assert (Hacc : exists x, acc' = acc ++ [x] /\
              (i ∉ path -> exists ph d,
                 entry (pheromones self) current_city i = Some ph /\
                 entry (distances self) current_city i = Some d /\
                 x = fmul (np_power ph (alpha self))
                          (np_power (fdiv (Fin 1) d) (beta self)))).
    { destruct (bool_decide (i ∈ path)) eqn:Ein.
      - apply bool_decide_eq_true in Ein.
        unfold ret in Hbody. inversion Hbody; subst. eexists. split; [reflexivity|].
        intros Hn. contradiction.
      - apply bind_Ok in Hbody as (ph & k1 & H1 & Hbody).
        apply bind_Ok in Hbody as (d & k2 & H2 & Hbody).
        apply mget_inv in H1 as (-> & row1 & R1 & E1).
        apply mget_inv in H2 as (-> & row2 & R2 & E2).
        unfold ret in Hbody. inversion Hbody; subst.
        eexists. split; [reflexivity|]. intros _. exists ph, d.
        unfold entry. rewrite R1, R2. auto. }
    destruct Hacc as (x & -> & Hx). split.
    + rewrite length_app. cbn. lia.
    + intros c Hc Hin. destruct (decide (c = i)) as [->|Hne].
      * destruct (Hx Hin) as (ph & d & Hph & Hd & ->). exists ph, d.
        rewrite lookup_app_r by lia. rewrite Hlen, Nat.sub_diag. auto.
      * destruct (Hz c ltac:(lia) Hin) as (ph & d & Hph & Hd & Hl).
        exists ph, d. rewrite lookup_app_l by lia. auto.
Qed.

End Choosing.

(** **** Scores that are not finite *)

Lemma fold_fadd_finite l : forall a q,
  fold_left fadd l a = Fin q ->
  (exists r, a = Fin r) /\ Forall (fun x => is_finite x = true) l.
Proof.
  induction l as [|x l IH]; intros a q H; cbn [fold_left] in H.
  - split; [eauto|constructor].
  - apply IH in H as [(r & Hr) Hl].
    apply fadd_Fin in Hr as (a' & x' & -> & ->).
    split; [eauto|]. constructor; [reflexivity|exact Hl].
Qed.

Lemma fold_fadd_PInf l : forall a,
  fold_left fadd l a = PInf -> a = PInf \/ PInf ∈ l.
Proof.
  induction l as [|x l IH]; intros a H; cbn [fold_left] in H; [now left|].
  apply IH in H as [H|H]; [|right; now right].
  destruct a, x; cbn in H; try discriminate; auto; right; left.
Qed.

Lemma fold_fadd_NInf l : forall a,
  fold_left fadd l a = NInf -> a = NInf \/ NInf ∈ l.
Proof.
  induction l as [|x l IH]; intros a H; cbn [fold_left] in H; [now left|].
  apply IH in H as [H|H]; [|right; now right].
  destruct a, x; cbn in H; try discriminate; auto; right; left.
Qed.

(** Normalising a score list with an entry that is not finite yields
    a NaN: either the sum is NaN, or it is the infinity the list
    contains, and that infinity divided by itself is NaN. *)
Lemma normalised_nan l :
  Exists (fun x => is_finite x = false) l ->
  NaN ∈ map (fun x => fdiv x (py_sum l)) l.
Proof.
  intros Hex. change (map ?f ?l) with (f <$> l). apply list_elem_of_fmap.
  destruct (py_sum l) as [q| | |] eqn:Et.
  - exfalso. unfold py_sum in Et. apply fold_fadd_finite in Et as [_ Et].
    apply Exists_exists in Hex as (x & Hx & Hf). rewrite Forall_forall in Et.
    rewrite (Et x Hx) in Hf. discriminate.
  - unfold py_sum in Et. apply fold_fadd_PInf in Et as [Et|Et]; [discriminate|].
    exists PInf. split; [reflexivity|exact Et].
  - unfold py_sum in Et. apply fold_fadd_NInf in Et as [Et|Et]; [discriminate|].
    exists NInf. split; [reflexivity|exact Et].
  - apply Exists_exists in Hex as (x & Hx & _). exists x. split; [|exact Hx].
    now destruct x.
Qed.

Section NonFinite.
Variable unit_tape : nat -> Q.
Variable np_power : f64 -> Q -> f64.

(** A score that is not finite makes the sampler reject the
    distribution. *)
Lemma non_finite_score_Raise self current_city (path : tour) k l :
  scores np_power self current_city path k = Ok (l, k) ->
  Exists (fun x => is_finite x = false) l ->
  choose_next_city unit_tape np_power self current_city path k
    = Raise (ValueError ProbabilitiesContainNaN).
Proof.
  intros El Hex. unfold choose_next_city. rewrite (bind_step _ _ _ _ _ El).
  apply scores_inv in El as (_ & Hlen & _).
  unfold random_choice. destruct (decide (n_cities self = 0%nat)) as [Hn|Hn].
  - exfalso. rewrite Hn in Hlen. destruct l; [inversion Hex|discriminate].
  - rewrite (kahan_sum_nan _ (normalised_nan l Hex)). reflexivity.
Qed.

(** A zero distance to a city that is not on the path gives that city
    an infinite score. *)
Lemma zero_distance_score self current_city (path : tour) k c z ph :
  wf_colony self -> (current_city < n_cities self)%nat ->
  (c < n_cities self)%nat -> c ∉ path ->
  entry (distances self) current_city c = Some (Fin z) -> z == 0 ->
  entry (pheromones self) current_city c = Some ph ->
  positive (np_power ph (alpha self)) -> np_power PInf (beta self) = PInf ->
  exists l, scores np_power self current_city path k = Ok (l, k) /\
            l !! c = Some PInf.
Proof.
  intros Hwf Hcur Hc Hn Hd Hz Hph (r & Er & Hr) Hinf.
  destruct (scores_Ok np_power self current_city path k Hwf Hcur) as (l & El).
  exists l. split; [exact El|].
  destruct (scores_lookup np_power _ _ _ _ _ _ El c Hc Hn) as (ph' & d' & Eph & Ed & Hl).
  assert (ph' = ph) by congruence. assert (d' = Fin z) by congruence. subst ph' d'.
  rewrite Hl, Er. cbn [fdiv]. rewrite (proj2 (Qeq_bool_iff z 0) Hz).
  assert (E1 : inf_times 1 = PInf) by reflexivity. rewrite E1, Hinf. cbn [fmul].
  unfold inf_times. now rewrite (proj2 (Qltb_lt 0 r) Hr).
Qed.

(** An ant at [a] that has not visited [b], where the edge from [a] to
    [b] has length zero, fails to choose. *)
Lemma zero_edge_Raise self a b (path : tour) k :
  wf_colony self -> zero_edge np_power self a b ->
  np_power PInf (beta self) = PInf -> b ∉ path ->
  choose_next_city unit_tape np_power self a path k
    = Raise (ValueError ProbabilitiesContainNaN).
Proof.
  intros Hwf (Ha & Hb & z & ph & Hd & Hz & Hph & Hpos) Hinf Hn.
  destruct (zero_distance_score self a path k b z ph Hwf Ha Hb Hn Hd Hz Hph Hpos Hinf)
    as (l & El & Hl).
  apply (non_finite_score_Raise _ _ _ _ l El).
  apply Exists_exists. exists PInf. split; [|reflexivity].
  eapply list_elem_of_lookup_2; eauto.
Qed.

End NonFinite.

(** A path that misses a city is not complete. *)
Lemma missing_incomplete self (path : tour) c :
  partial_tour self path -> (c < n_cities self)%nat -> c ∉ path ->
  (length path < n_cities self)%nat.
Proof.
  intros Hp Hc Hn.
  pose proof (partial_tour_length self _ (partial_tour_snoc self path c Hp Hc Hn)) as H.
  rewrite length_app in H. cbn in H. lia.
Qed.

Section Twins.
Variable unit_tape : nat -> Q.
Variable raw_tape : nat -> nat.
Variable np_power : f64 -> Q -> f64.
Hypothesis draws : unit_draws unit_tape.
Variable self : ACO.
Variables a b : nat.
Hypothesis well_formed : wf_colony self.
Hypothesis different : a <> b.
Hypothesis zero_ab : zero_edge np_power self a b.
Hypothesis zero_ba : zero_edge np_power self b a.
Hypothesis power_inf : np_power PInf (beta self) = PInf.

(** An ant that has seen neither twin, or has just arrived at the
    first of them it sees, never completes its tour. *)
Lemma construct_loop_twins fuel : forall (path : tour) k,
  partial_tour self path ->
  ((a ∉ path) /\ (b ∉ path)) \/ (last path = Some a /\ (b ∉ path)) \/
  (last path = Some b /\ (a ∉ path)) ->
  (n_cities self <= fuel + length path)%nat ->
  exists e, construct_loop unit_tape np_power fuel self path k = Raise e /\
            sampling_error e.
Proof using draws well_formed different zero_ab zero_ba power_inf.
  assert (Ha : (a < n_cities self)%nat) by apply zero_ab.
  assert (Hb : (b < n_cities self)%nat) by apply zero_ab.
  induction fuel as [|fuel IH]; intros path k Hp Hcase Hf.
  - exfalso.
    assert ((length path < n_cities self)%nat); [|lia].
    destruct Hcase as [[H _]|[[_ H]|[_ H]]]; eauto using missing_incomplete.
  - assert (Hlt : (length path < n_cities self)%nat).
    { destruct Hcase as [[H _]|[[_ H]|[_ H]]]; eauto using missing_incomplete. }
    cbn [construct_loop]. destruct (decide (length path < n_cities self)%nat); [|lia].
    destruct (last path) as [cur|] eqn:El.
    2:{ destruct Hp as (_ & _ & Hne). destruct path; [contradiction|].
        rewrite last_lookup in El. apply lookup_ge_None in El. cbn in El. lia. }
    rewrite (bind_step _ _ _ _ _ (py_getitem_last path cur k El)).
    assert (Hin : cur ∈ path).
    { rewrite last_lookup in El. eapply list_elem_of_lookup_2; eauto. }
    assert (Hcur : (cur < n_cities self)%nat).
    { destruct Hp as (_ & Hall & _). rewrite Forall_forall in Hall. auto. }
    destruct Hcase as [[Hna Hnb]|[[E Hnb]|[E Hna]]].
    + destruct (choose_next_city unit_tape np_power self cur path k)
        as [[c k1]|e|] eqn:Ec.
      * rewrite (bind_step _ _ _ _ _ Ec).
        apply choose_next_city_inv in Ec as (Hc & Hnew & ->); [|apply draws].
        apply IH.
        -- now apply partial_tour_snoc.
        -- rewrite last_snoc.
           destruct (decide (c = a)) as [->|Hca].
           { right. left. split; [reflexivity|].
             rewrite elem_of_app, list_elem_of_singleton. intros [H|H]; auto. }
           destruct (decide (c = b)) as [->|Hcb].
           { right. right. split; [reflexivity|].
             rewrite elem_of_app, list_elem_of_singleton. intros [H|H]; auto. }
           left. rewrite !elem_of_app, !list_elem_of_singleton.
           split; intros [H|H]; auto.
        -- rewrite length_app. cbn. lia.
      * exists e. unfold bind. rewrite Ec. split; [reflexivity|].
        eapply choose_next_city_Raise; eauto.
      * exfalso. now apply (fuel_free_choose_next_city unit_tape np_power self cur path k).
    + assert (cur = a) by congruence. subst cur.
      eexists. unfold bind.
      rewrite (zero_edge_Raise unit_tape np_power self a b path k); auto.
      split; [reflexivity|]. left. reflexivity.
    + assert (cur = b) by congruence. subst cur.
      eexists. unfold bind.
      rewrite (zero_edge_Raise unit_tape np_power self b a path k); auto.
      split; [reflexivity|]. left. reflexivity.
Qed.

(** No ant completes a tour in a colony with two cities at the same
    place. *)
Lemma construct_solution_twins fuel k :
  (n_cities self <= S fuel)%nat ->
  exists e, construct_solution unit_tape raw_tape np_power fuel self k = Raise e /\
            sampling_error e.
Proof using draws well_formed different zero_ab zero_ba power_inf.
  intros Hf. assert (Ha : (a < n_cities self)%nat) by apply zero_ab.
  unfold construct_solution, bind, random_randint.
  destruct (_ <? 0)%Z eqn:E; [apply Z.ltb_lt in E; lia|].
  set (start := Z.to_nat (0 + Z.of_nat (raw_tape k) mod (Z.of_nat (n_cities self) - 1 - 0 + 1))).
  assert (Hs : (start < n_cities self)%nat).
  { pose proof (Z.mod_pos_bound (Z.of_nat (raw_tape k))
                  (Z.of_nat (n_cities self) - 1 - 0 + 1) ltac:(lia)). unfold start. lia. }
  apply construct_loop_twins.
  - repeat split; [apply NoDup_singleton|repeat constructor; exact Hs|discriminate].
  - destruct (decide (start = a)) as [->|Hsa].
    { right. left. split; [reflexivity|]. rewrite list_elem_of_singleton. auto. }
    destruct (decide (start = b)) as [->|Hsb].
    { right. right. split; [reflexivity|]. rewrite list_elem_of_singleton. auto. }
    left. rewrite !list_elem_of_singleton. auto.
  - cbn. lia.
Qed.

End Twins.

(** **** Runs that never construct a tour, or never complete one *)

Section Degenerate.
Variable unit_tape : nat -> Q.
Variable raw_tape : nat -> nat.
Variable np_power : f64 -> Q -> f64.

(** The failure of the first ant of the first round is the failure of
    the run. *)
Lemma first_ant_Raise fuel self k e :
  (1 <= n_ants self)%nat -> (1 <= n_iterations self)%nat ->
  construct_solution unit_tape raw_tape np_power fuel self k = Raise e ->
  run unit_tape raw_tape np_power fuel self k = Raise e.
Proof.
  intros Ha Hi E. unfold run, run_rounds.
  destruct (n_iterations self) as [|j]; [lia|]. cbn [repeat_n].
  apply bind_Raise. left. apply bind_Raise. left.
  unfold run_iteration. destruct (n_ants self) as [|m]; [lia|]. cbn [comprehension].
  apply bind_Raise. left. apply bind_Raise. left. exact E.
Qed.

(** Without ants a round evaporates the pheromone and does nothing
    else. *)
Lemma run_rounds_without_ants fuel j : forall self b k,
  n_ants self = 0%nat ->
  repeat_n j (run_iteration unit_tape raw_tape np_power fuel) (self, b) k
    = Ok ((set_pheromones self
             (Nat.iter j (evaporate (rho self)) (pheromones self)), b), k).
Proof.
  induction j as [|j IH]; intros self b k Ha.
  - cbn. unfold ret. now destruct self.
  - cbn [repeat_n].
    assert (E : run_iteration unit_tape raw_tape np_power fuel (self, b) k
                = Ok ((set_pheromones self (evaporate (rho self) (pheromones self)), b), k)).
    { unfold run_iteration. rewrite Ha. reflexivity. }
    rewrite (bind_step _ _ _ _ _ E), IH by exact Ha.
    cbn [set_pheromones rho pheromones]. now rewrite Nat.iter_succ_r.
Qed.

End Degenerate.

(** **** The returned tour is a shortest one *)

(** The scan of a round leaves a running best that none of the tours
    scanned beats. *)
Lemma improve_fold_least (pds : list (tour * f64)) : forall b,
  Forall (fun pd => fltb (snd pd) (snd (fold_left improve pds b)) = false) pds.
Proof.
  induction pds as [|[path d] rest IH]; intros b; cbn [fold_left]; constructor.
  - cbn [snd]. set (b1 := improve b (path, d)).
    assert (H1 : fltb d (snd b1) = false).
    { unfold b1, improve. destruct (fltb d (snd b)) eqn:E; [apply fltb_irrefl|exact E]. }
    destruct (improve_fold rest b1) as [->|[Hlt _]]; [exact H1|].
    destruct (fltb d (snd (fold_left improve rest b1))) eqn:E; [|reflexivity].
    rewrite (fltb_trans _ _ _ E Hlt) in H1. discriminate.
  - apply IH.
Qed.

Lemma repeat_n_add {S} (body : S -> M S) n m s k :
  repeat_n (n + m) body s k = bind (repeat_n n body s) (repeat_n m body) k.
Proof.
  revert s k. induction n as [|n IH]; intros s k; cbn [repeat_n Nat.add].
  - reflexivity.
  - rewrite bind_assoc. apply bind_ext. intros a k1. apply IH.
Qed.

Section Shortest.
Variable unit_tape : nat -> Q.
Variable raw_tape : nat -> nat.
Variable np_power : f64 -> Q -> f64.

(** Later rounds do not raise the running best. *)
Lemma run_rounds_down fuel m : forall s b k s' b' k' d,
  repeat_n m (run_iteration unit_tape raw_tape np_power fuel) (s, b) k
    = Ok ((s', b'), k') ->
  fltb d (snd b) = false -> fltb d (snd b') = false.
Proof.
  induction m as [|m IH]; intros s b k s' b' k' d; cbn [repeat_n].
  - unfold ret. intros H; inversion H; subst. auto.
  - intros H Hd. apply bind_Ok in H as ([s1 b1] & k1 & H1 & H).
    eapply IH; [exact H|].
    apply run_iteration_inv in H1 as (_ & _ & [->|[Hlt _]]); [exact Hd|].
    destruct (fltb d (snd b1)) eqn:E; [|reflexivity].
    rewrite (fltb_trans _ _ _ E Hlt) in Hd. discriminate.
Qed.

(** The tours of a round and their lengths, and the running best the
    round leaves. *)
Lemma run_iteration_tours fuel s b k s' b' k' :
  run_iteration unit_tape raw_tape np_power fuel (s, b) k = Ok ((s', b'), k') ->
  exists paths k1 dists,
    comprehension (n_ants s) (construct_solution unit_tape raw_tape np_power fuel s) k
      = Ok (paths, k1) /\
    Forall2 (tour_length s) paths dists /\
    Forall (fun d => fltb d (snd b') = false) dists.
Proof.
  unfold run_iteration. intros H.
  apply bind_Ok in H as (paths & k1 & Hp & H).
  apply bind_Ok in H as (dists & k2 & Hd & H).
  apply bind_Ok in H as (s1 & k3 & Hu & H).
  unfold ret in H. inversion H; subst; clear H.
  apply calculate_all_inv in Hd as [-> Hd].
  exists paths, k1, dists. split; [exact Hp|]. split; [exact Hd|].
  pose proof (improve_fold_least (zip paths dists) b) as Hl.
  apply Forall_lookup. intros i d Hi.
  destruct (Forall2_lookup_r _ _ _ _ _ Hd Hi) as (p & Hpi & _).
  rewrite Forall_lookup in Hl.
  apply (Hl i (p, d)). apply lookup_zip_with_Some. eauto.
Qed.

(** No tour constructed in a round of a run that completes is shorter
    than the distance the run ends with. *)
Lemma run_rounds_least fuel n self k sn bn kn j :
  run_rounds unit_tape raw_tape np_power fuel n self k = Ok ((sn, bn), kn) ->
  (j < n)%nat ->
  exists s b k1 paths k2 dists,
    run_rounds unit_tape raw_tape np_power fuel j self k = Ok ((s, b), k1) /\
    comprehension (n_ants s) (construct_solution unit_tape raw_tape np_power fuel s) k1
      = Ok (paths, k2) /\
    Forall2 (tour_length self) paths dists /\
    Forall (fun d => fltb d (snd bn) = false) dists.
Proof.
  unfold run_rounds. intros H Hj.
  replace n with (j + S (n - S j))%nat in H by lia.
  rewrite repeat_n_add in H. apply bind_Ok in H as ([s b] & k1 & Hj1 & H).
  cbn [repeat_n] in H. apply bind_Ok in H as ([s1 b1] & k2 & H1 & H).
  destruct (run_iteration_tours _ _ _ _ _ _ _ H1) as (paths & k3 & dists & Hp & Hd & Hl).
  exists s, b, k1, paths, k3, dists. split; [exact Hj1|]. split; [exact Hp|].
  pose proof (run_rounds_inv unit_tape raw_tape np_power fuel self j k s b k1 Hj1)
    as (Ed & _ & _).
  split.
  - eapply Forall2_impl; [exact Hd|]. intros p d Hpd.
    eapply tour_length_same_distances; [|exact Hpd]. congruence.
  - eapply Forall_impl; [exact Hl|]. cbn. intros d Hdl.
    eapply run_rounds_down; eauto.
Qed.

End Shortest.

(** **** The constructor on cities of any shape *)

(** A loop over a range whose body may raise: it keeps the invariant
    while the body returns, and fails with the failure of the first
    round that fails. *)
Lemma for_each_seq_outcome {S} (Inv : nat -> S -> nat -> Prop)
      (Bad : nat -> exn -> Prop) (body : S -> nat -> M S) :
  forall m a s k,
    Inv a s k ->
    (forall i s k, (a <= i < a + m)%nat -> Inv i s k ->
       match body s i k with
       | Ok (s', k') => Inv (Datatypes.S i) s' k'
       | Raise e => Bad i e
       | OutOfFuel => False
       end) ->
    match for_each (seq a m) body s k with
    | Ok (s', k') => Inv (a + m)%nat s' k'
    | Raise e => exists i, (a <= i < a + m)%nat /\ Bad i e
    | OutOfFuel => False
    end.
Proof.
  induction m as [|m IH]; intros a s k Hinv Hstep; cbn [seq for_each].
  - unfold ret. now rewrite Nat.add_0_r.
  - unfold bind. pose proof (Hstep a s k ltac:(lia) Hinv) as Hb.
    destruct (body s a k) as [[s1 k1]|e|]; [|exists a; split; [lia|exact Hb]|exact Hb].
    specialize (IH (Datatypes.S a) s1 k1 Hb).
    replace (a + Datatypes.S m)%nat with (Datatypes.S a + m)%nat by lia.
    destruct (for_each (seq (Datatypes.S a) m) body s1 k1) as [[s2 k2]|e|].
    + apply IH. intros i s0 k0 Hi. apply Hstep. lia.
    + destruct IH as (i & Hi & He); [intros i s0 k0 Hi; apply Hstep; lia|].
      exists i. split; [lia|exact He].
    + apply IH. intros i s0 k0 Hi. apply Hstep. lia.
Qed.

(** [np.array(a) - np.array(b)] raises exactly on shapes it cannot
    broadcast. *)
Lemma np_subtract_outcome (a b : city) k :
  match np_subtract a b k with
  | Ok (_, k') => k' = k /\ broadcastable a b
  | Raise e => e = ValueError OperandsNotBroadcast /\ ~ broadcastable a b
  | OutOfFuel => False
  end.
Proof.
  unfold np_subtract, broadcastable.
  destruct (decide (length a = length b)) as [E|E]; [cbn; auto|].
  destruct a as [|x [|x' a]], b as [|y [|y' b]]; cbn in *;
    try (split; [reflexivity|]); try lia; auto; intros [H|[H|H]]; lia.
Qed.

Section Shapes.
Variable np_sqrt : Q -> Q.
Variable cities : list city.

(** Row [i] of the distance matrix is filled unless city [i] and some
    city cannot be subtracted. *)
Lemma fill_row_outcome (m : matrix) i k :
  square (length cities) m -> (i < length cities)%nat ->
  match for_each (seq 0 (length cities)) (fun distances j =>
          c_i <- getitem cities i ;;
          c_j <- getitem cities j ;;
          v <- np_subtract c_i c_j ;;
          mset distances i j (np_linalg_norm np_sqrt v)) m k with
  | Ok (m', k') =>
      k' = k /\ square (length cities) m' /\
      forall j a b, cities !! i = Some a -> cities !! j = Some b -> broadcastable a b
  | Raise e =>
      e = ValueError OperandsNotBroadcast /\
      exists j a b, cities !! i = Some a /\ cities !! j = Some b /\ ~ broadcastable a b
  | OutOfFuel => False
  end.
Proof.
  intros Hsq Hi.
  set (body := fun (distances : matrix) j =>
          c_i <- getitem cities i ;;
          c_j <- getitem cities j ;;
          v <- np_subtract c_i c_j ;;
          mset distances i j (np_linalg_norm np_sqrt v)).
  set (Inv := fun (j : nat) (m' : matrix) (k' : nat) =>
       k' = k /\ square (length cities) m' /\
       forall j' a b, (j' < j)%nat -> cities !! i = Some a -> cities !! j' = Some b ->
                      broadcastable a b).
  set (Bad := fun (j : nat) (e : exn) =>
       e = ValueError OperandsNotBroadcast /\
       exists a b, cities !! i = Some a /\ cities !! j = Some b /\ ~ broadcastable a b).
  assert (Hinit : Inv 0%nat m k).
  { split; [reflexivity|]. split; [exact Hsq|]. intros; lia. }
  assert (Hstep : forall j m0 k0, (0 <= j < 0 + length cities)%nat -> Inv j m0 k0 ->
            match body m0 j k0 with
            | Ok (s', k') => Inv (S j) s' k'
            | Raise e => Bad j e
            | OutOfFuel => False
            end).
  { intros j m0 k0 [_ Hj] (-> & Hsq0 & Hall). unfold body.
    destruct (lookup_lt_is_Some_2 cities i Hi) as [c_i Hci].
    destruct (lookup_lt_is_Some_2 cities j Hj) as [c_j Hcj].
    rewrite (bind_step _ _ _ _ _ (getitem_Ok cities i c_i k Hci)).
    rewrite (bind_step _ _ _ _ _ (getitem_Ok cities j c_j k Hcj)).
    pose proof (np_subtract_outcome c_i c_j k) as Hs. unfold bind at 1.
    destruct (np_subtract c_i c_j k) as [[v k1]|e|]; [| |exact Hs].
    - destruct Hs as [-> Hs].
      destruct (mset_Ok _ m0 i j (np_linalg_norm np_sqrt v) k Hsq0 Hi Hj)
        as (row & _ & -> & Hsq1).
      split; [reflexivity|]. split; [exact Hsq1|].
      intros j' a b Hj' Ha Hb. destruct (decide (j' = j)) as [->|Hne].
      + assert (a = c_i) by congruence. assert (b = c_j) by congruence. now subst.
      + apply (Hall j' a b); [lia|exact Ha|exact Hb].
    - destruct Hs as [-> Hs]. split; [reflexivity|]. exists c_i, c_j. auto. }
  pose proof (for_each_seq_outcome Inv Bad body (length cities) 0%nat m k Hinit Hstep) as H.
  cbn [Nat.add] in H. fold body.
  destruct (for_each (seq 0 (length cities)) body m k) as [[m' k']|e|].
  - destruct H as (-> & Hsq' & Hall).
    split; [reflexivity|]. split; [exact Hsq'|].
    intros j a b Ha Hb. apply (Hall j a b); [|exact Ha|exact Hb].
    eapply lookup_lt_Some; eauto.
  - destruct H as (j & _ & -> & a & b & Ha & Hb & Hn).
    split; [reflexivity|]. eauto 7.
  - exact H.
Qed.

(** The distance matrix is filled unless two cities cannot be
    subtracted. *)
Lemma calculate_distances_outcome k :
  match calculate_distances np_sqrt cities (length cities) k with
  | Ok (D, k') =>
      k' = k /\ square (length cities) D /\
      forall i j a b, cities !! i = Some a -> cities !! j = Some b -> broadcastable a b
  | Raise e =>
      e = ValueError OperandsNotBroadcast /\
      exists i j a b, cities !! i = Some a /\ cities !! j = Some b /\ ~ broadcastable a b
  | OutOfFuel => False
  end.
Proof.
  unfold calculate_distances.
  set (row := fun (distances : matrix) (i : nat) =>
       for_each (seq 0 (length cities)) (fun distances j =>
          c_i <- getitem cities i ;;
          c_j <- getitem cities j ;;
          v <- np_subtract c_i c_j ;;
          mset distances i j (np_linalg_norm np_sqrt v)) distances).
  set (Inv := fun (i : nat) (m' : matrix) (k' : nat) =>
       k' = k /\ square (length cities) m' /\
       forall i' j a b, (i' < i)%nat -> cities !! i' = Some a -> cities !! j = Some b ->
                        broadcastable a b).
  set (Bad := fun (i : nat) (e : exn) =>
       e = ValueError OperandsNotBroadcast /\
       exists j a b, cities !! i = Some a /\ cities !! j = Some b /\ ~ broadcastable a b).
  assert (Hinit : Inv 0%nat (np_full (length cities) (Fin 0)) k).
  { split; [reflexivity|]. split; [apply square_np_full|]. intros; lia. }
  assert (Hstep : forall i m0 k0, (0 <= i < 0 + length cities)%nat -> Inv i m0 k0 ->
            match row m0 i k0 with
            | Ok (s', k') => Inv (S i) s' k'
            | Raise e => Bad i e
            | OutOfFuel => False
            end).
  { intros i m0 k0 [_ Hi] (-> & Hsq0 & Hall). unfold row.
    pose proof (fill_row_outcome m0 i k Hsq0 Hi) as H.
    destruct (for_each _ _ m0 k) as [[m1 k1]|e|]; [|exact H|exact H].
    destruct H as (-> & Hsq1 & Hrow). split; [reflexivity|]. split; [exact Hsq1|].
    intros i' j a b Hi' Ha Hb. destruct (decide (i' = i)) as [->|Hne].
    - now apply (Hrow j a b).
    - apply (Hall i' j a b); [lia|exact Ha|exact Hb]. }
  pose proof (for_each_seq_outcome Inv Bad row (length cities) 0%nat
                (np_full (length cities) (Fin 0)) k Hinit Hstep) as H.
  cbn [Nat.add] in H. fold row.
  destruct (for_each (seq 0 (length cities)) row _ k) as [[D k']|e|].
  - destruct H as (-> & Hsq' & Hall).
    split; [reflexivity|]. split; [exact Hsq'|].
    intros i j a b Ha Hb. apply (Hall i j a b); [|exact Ha|exact Hb].
    eapply lookup_lt_Some; eauto.
  - destruct H as (i & _ & -> & j & a & b & Ha & Hb & Hn).
    split; [reflexivity|]. eauto 8.
  - exact H.
Qed.

End Shapes.

(** **** The length of a tour and where the tour starts *)

Lemma List_last_cons {A} (x y : A) l d : List.last (x :: y :: l) d = List.last (y :: l) d.
Proof. reflexivity. Qed.

Lemma List_last_default {A} (l : list A) x d d' :
  List.last (x :: l) d = List.last (x :: l) d'.
Proof.
  revert x. induction l as [|y l IH]; intros x; [reflexivity|].
  rewrite !List_last_cons. apply IH.
Qed.

Lemma zip_snoc (rest : tour) : forall x x0,
  zip (x :: rest ++ [x0]) (rest ++ [x0])
  = zip (x :: rest) rest ++ [(List.last (x :: rest) x, x0)].
Proof.
  induction rest as [|r rest IH]; intros x x0; [reflexivity|].
  change ((x, r) :: zip (r :: rest ++ [x0]) (rest ++ [x0])
          = (x, r) :: (zip (r :: rest) rest ++ [(List.last (r :: rest) x, x0)])).
  rewrite IH. do 4 f_equal. apply List_last_default.
Qed.

(** Starting a tour one city later permutes its edges. *)
Lemma tour_edges_rotate (rest : tour) x :
  tour_edges (rest ++ [x]) ≡ₚ tour_edges (x :: rest).
Proof.
  assert (E : tour_edges (rest ++ [x]) = zip (x :: rest ++ [x]) (rest ++ [x])).
  { unfold tour_edges. destruct (rest ++ [x]) as [|first l] eqn:El.
    - destruct rest; discriminate.
    - rewrite <- El. now rewrite List.last_last. }
  rewrite E, zip_snoc. unfold tour_edges. cbn [zip zip_with].
  symmetry. apply Permutation_cons_append.
Qed.

Lemma tour_edges_rotation (front : tour) : forall back,
  tour_edges (back ++ front) ≡ₚ tour_edges (front ++ back).
Proof.
  induction front as [|x front IH]; intros back.
  - now rewrite app_nil_r.
  - specialize (IH (back ++ [x])). rewrite <- app_assoc in IH. cbn [app] in IH.
    rewrite IH, app_assoc. apply tour_edges_rotate.
Qed.

(** The length of a tour is the sum of the lengths of its edges. *)
Lemma calculate_distance_sum self (path : tour) k :
  square (n_cities self) (distances self) ->
  Forall (fun c => (c < n_cities self)%nat) path ->
  calculate_distance self path k
    = Ok (fold_left fadd (map (edge_length self) (tour_edges path)) (Fin 0), k).
Proof.
  intros Hsq Hall. unfold calculate_distance.
  destruct (for_each_seq_rule
    (fun i acc k' => k' = k /\
       acc = fold_left fadd (map (edge_length self) (take i (tour_edges path))) (Fin 0))
    (fun acc i =>
       a <- py_getitem path (Z.of_nat i - 1) ;;
       b <- py_getitem path (Z.of_nat i) ;;
       d <- mget (distances self) a b ;;
       ret (fadd acc d))
    (length path) 0%nat (Fin 0) k) as (d & k' & E & -> & ->).
  - split; reflexivity.
  - intros i acc k0 [_ Hi] (-> & ->). cbn in Hi.
    destruct (edge_reads path i k Hi) as (a & b & He & Ea & Eb & Hina & Hinb).
    rewrite Forall_forall in Hall.
    destruct (mget_Ok _ _ a b k Hsq (Hall a Hina) (Hall b Hinb)) as (row & x & Hr & Hx & Em).
    eexists _, _.
    rewrite (bind_step _ _ _ _ _ Ea), (bind_step _ _ _ _ _ Eb), (bind_step _ _ _ _ _ Em).
    split; [reflexivity|]. split; [reflexivity|].
    rewrite (take_S_r _ _ _ He), map_app, fold_left_app. cbn [map fold_left].
    f_equal. unfold edge_length, entry. cbn [fst snd]. now rewrite Hr, Hx.
  - rewrite E. f_equal. f_equal. cbn [Nat.add].
    rewrite take_ge; [reflexivity|]. now rewrite length_tour_edges.
Qed.

End AcoRunFacts.

Module MoreExampleFacts.
Import Py Np Aco AcoStates Examples.
Local Open Scope Q_scope.

Lemma fpow_positive q n : positive (fpow (Fin q) n) \/ ~ 0 < q.
Proof.
  destruct (Qlt_le_dec 0 q) as [Hq|Hq]; [left|right; lra].
  induction n as [|n (r & E & Hr)]; cbn [fpow].
  - exists 1. split; [reflexivity|lra].
  - rewrite E. exists (q * r). split; [reflexivity|nra].
Qed.

Lemma power_nat_positive : power_positive power_nat.
Proof.
  intros q e Hq. unfold power_nat.
  destruct (fpow_positive q (Z.to_nat (Qnum e))) as [H|H]; [exact H|contradiction].
Qed.

End MoreExampleFacts.

(** *** The ant colony: further properties *)

Module AcoProperties.
Import Py PyFacts Np NpFacts Aco AcoStates AcoFacts AcoRunFacts.
Import Examples MoreExamples MoreExampleFacts.
Local Open Scope Q_scope.

(** X8.  How the next city is chosen, in a call that returns.  The
    scores were computed without drawing, one per city; divided by
    their sum they hold no NaN and nothing negative, or the sampler
    would have rejected them; the call has read one draw and returns
    the first city whose normalised cumulative score exceeds that
    draw, a city that is not on the path. *)
Theorem choose_next_city_inverts_the_cumulative_scores
        unit_tape np_power self current_city (path : tour) k c k' :
  0 <= unit_tape k ->
  choose_next_city unit_tape np_power self current_city path k = Ok (c, k') ->
  exists l,
    scores np_power self current_city path k = Ok (l, k) /\
    length l = n_cities self /\
    let probabilities := map (fun x => fdiv x (py_sum l)) l in
    let cdf := map (fun x => fdiv x (List.last (cumsum probabilities) NaN))
                   (cumsum probabilities) in
    k' = S k /\ (c < n_cities self)%nat /\ (c ∉ path) /\
    (NaN ∉ probabilities) /\
    Forall (fun p => fltb p (Fin 0) = false) probabilities /\
    (forall j x, (j < c)%nat -> cdf !! j = Some x -> fltb (Fin (unit_tape k)) x = false) /\
    exists x, cdf !! c = Some x /\ fltb (Fin (unit_tape k)) x = true.
Proof.
  intros Hu H.
  pose proof (choose_next_city_inv unit_tape np_power _ _ _ _ _ _ Hu H) as (Hc & Hnew & ->).
  unfold choose_next_city in H.
  apply bind_Ok in H as (l & k1 & Hs & H).
  pose proof (scores_inv np_power _ _ _ _ _ _ Hs) as (-> & Hlen & _).
  exists l. split; [exact Hs|]. split; [exact Hlen|]. cbn zeta.
  set (p := map (fun x => fdiv x (py_sum l)) l) in *.
  pose proof (random_choice_inv unit_tape _ _ _ _ _ Hu H) as (_ & _ & Hnan & _).
  apply random_choice_search in H as (Ec & _ & _ & _ & Hneg & _).
  destruct (searchsorted_right_spec
              (map (fun x => fdiv x (List.last (cumsum p) NaN)) (cumsum p))
              (unit_tape k)) as (_ & Hbefore & Hat).
  rewrite <- Ec in Hbefore, Hat.
  split; [reflexivity|]. split; [exact Hc|]. split; [exact Hnew|].
  split; [exact Hnan|]. split.
  { apply Forall_forall. intros x Hx.
    destruct (fltb x (Fin 0)) eqn:E; [|reflexivity].
    assert (existsb (fun p_i => fltb p_i (Fin 0)) p = true).
    { apply existsb_exists. exists x. split; [|exact E].
      now apply list_elem_of_In. }
    congruence. }
  split; [exact Hbefore|]. apply Hat.
  rewrite length_map, length_cumsum. unfold p. rewrite length_map. lia.
Qed.

Lemma choose_next_city_inverts_the_cumulative_scores_witness :
  0 <= cycle_tape 2 /\
  exists c k',
    choose_next_city cycle_tape power_nat triangle_colony 1%nat [1%nat] 2%nat
      = Ok (c, k') /\
    exists l,
      scores power_nat triangle_colony 1%nat [1%nat] 2%nat = Ok (l, 2%nat) /\
      length l = n_cities triangle_colony /\
      let probabilities := map (fun x => fdiv x (py_sum l)) l in
      let cdf := map (fun x => fdiv x (List.last (cumsum probabilities) NaN))
                     (cumsum probabilities) in
      k' = 3%nat /\ (c < n_cities triangle_colony)%nat /\ (c ∉ [1%nat]) /\
      (NaN ∉ probabilities) /\
      Forall (fun p => fltb p (Fin 0) = false) probabilities /\
      (forall j x, (j < c)%nat -> cdf !! j = Some x ->
                   fltb (Fin (cycle_tape 2)) x = false) /\
      exists x, cdf !! c = Some x /\ fltb (Fin (cycle_tape 2)) x = true.
Proof.
  assert (Hu : 0 <= cycle_tape 2) by (vm_compute; discriminate).
  split; [exact Hu|].
  destruct (choose_next_city cycle_tape power_nat triangle_colony 1%nat [1%nat] 2%nat)
    as [[c k']| |] eqn:E.
  - exists c, k'. split; [reflexivity|].
    exact (choose_next_city_inverts_the_cumulative_scores cycle_tape power_nat
             triangle_colony 1%nat [1%nat] 2%nat c k' Hu E).
  - vm_compute in E. discriminate.
  - vm_compute in E. discriminate.
Defined.

(** X9.  How a tour is built, in a call that returns.  There is at
    least one city; the tour starts at the city [random.randint]
    draws; every later city is the one [choose_next_city] returns for
    the city before it and the tour so far, on the next draw; and the
    call has read one draw per city. *)
Theorem construct_solution_chooses_city_after_city
        unit_tape raw_tape np_power fuel self k path k' :
  construct_solution unit_tape raw_tape np_power fuel self k = Ok (path, k') ->
  (1 <= n_cities self)%nat /\
  k' = (k + n_cities self)%nat /\ length path = n_cities self /\
  path !! 0%nat
    = Some (Z.to_nat (Z.of_nat (raw_tape k) mod Z.of_nat (n_cities self))) /\
  forall i c, (1 <= i)%nat -> path !! i = Some c ->
    exists current_city,
      path !! (i - 1)%nat = Some current_city /\
      choose_next_city unit_tape np_power self current_city (take i path) (k + i)%nat
        = Ok (c, S (k + i))%nat.
Proof.
  apply construct_solution_trace.
Qed.

Lemma construct_solution_chooses_city_after_city_witness :
  exists path k',
    construct_solution cycle_tape count_tape power_nat 2 triangle_colony 1%nat
      = Ok (path, k') /\
    (1 <= n_cities triangle_colony)%nat /\
    k' = (1 + n_cities triangle_colony)%nat /\ length path = n_cities triangle_colony /\
    path !! 0%nat
      = Some (Z.to_nat (Z.of_nat (count_tape 1) mod Z.of_nat (n_cities triangle_colony))) /\
    forall i c, (1 <= i)%nat -> path !! i = Some c ->
      exists current_city,
        path !! (i - 1)%nat = Some current_city /\
        choose_next_city cycle_tape power_nat triangle_colony current_city (take i path)
                         (1 + i)%nat
          = Ok (c, S (1 + i))%nat.
Proof.
  destruct (construct_solution cycle_tape count_tape power_nat 2 triangle_colony 1%nat)
    as [[path k']| |] eqn:E.
  - exists path, k'. split; [reflexivity|].
    exact (construct_solution_chooses_city_after_city cycle_tape count_tape power_nat 2
             triangle_colony 1%nat path k' E).
  - vm_compute in E. discriminate.
  - vm_compute in E. discriminate.
Defined.

(** X10.  What a run that returns has done, with draws in [0, 1).  It
    has read one draw per city, ant and round; the cities and the
    distance matrix are as they were; and it returns either no path
    with the distance +infinity (no tour improved on it), or a
    permutation of the cities together with the length of that tour, a
    length below +infinity. *)
Theorem run_returns_a_permutation_after_counted_draws
        unit_tape raw_tape np_power fuel self k best_path best_distance self' k' :
  unit_draws unit_tape ->
  run unit_tape raw_tape np_power fuel self k
    = Ok ((best_path, best_distance), self', k') ->
  k' = (k + n_iterations self * (n_ants self * n_cities self))%nat /\
  n_cities self' = n_cities self /\ distances self' = distances self /\
  ((best_path = None /\ best_distance = PInf) \/
   exists path,
     best_path = Some path /\ path ≡ₚ seq 0 (n_cities self) /\
     tour_length self path best_distance /\ fltb best_distance PInf = true).
Proof.
  intros Hu H. unfold run in H.
  apply bind_Ok in H as ([s b] & k1 & Hr & H).
  unfold ret in H. cbn [fst snd] in H. inversion H; subst; clear H.
  apply run_rounds_returned in Hr as (-> & _ & En & Ed & Hb); [|intros k0; apply Hu].
  split; [reflexivity|]. split; [exact En|]. split; [exact Ed|].
  destruct Hb as [Hb|(path & Hp & Hperm & Hl & Hlt)].
  - left. inversion Hb. auto.
  - right. exists path. cbn [fst snd] in *. auto.
Qed.

Lemma run_returns_a_permutation_after_counted_draws_witness :
  unit_draws cycle_tape /\
  exists best_path best_distance self' k',
    run cycle_tape count_tape power_nat 2 triangle_colony 0%nat
      = Ok ((best_path, best_distance), self', k') /\
    k' = (0 + n_iterations triangle_colony
              * (n_ants triangle_colony * n_cities triangle_colony))%nat /\
    n_cities self' = n_cities triangle_colony /\
    distances self' = distances triangle_colony /\
    ((best_path = None /\ best_distance = PInf) \/
     exists path,
       best_path = Some path /\ path ≡ₚ seq 0 (n_cities triangle_colony) /\
       tour_length triangle_colony path best_distance /\
       fltb best_distance PInf = true).
Proof.
  pose proof ExampleFacts.cycle_tape_unit_draws as Hu.
  split; [exact Hu|].
  destruct (run cycle_tape count_tape power_nat 2 triangle_colony 0%nat)
    as [[[[bp bd] self'] k']| |] eqn:E.
  - exists bp, bd, self', k'. split; [reflexivity|].
    exact (run_returns_a_permutation_after_counted_draws cycle_tape count_tape power_nat 2
             triangle_colony 0%nat bp bd self' k' Hu E).
  - vm_compute in E. discriminate.
  - vm_compute in E. discriminate.
Defined.

(** X12.  A city at distance zero aborts the choice. If the city the ant
    stands on is at distance zero from a city it has not visited (two
    cities at the same place), the visibility [1 / 0] is infinite, and
    with a power that keeps infinity infinite and a pheromone weight
    above zero so is the score of that city; normalising divides
    infinity by infinity, and [np.random.choice] rejects the NaN with a
    ValueError. *)
Theorem zero_distance_aborts_the_choice
        unit_tape np_power self current_city (path : tour) k c z ph :
  wf_colony self -> (current_city < n_cities self)%nat ->
  (c < n_cities self)%nat -> c ∉ path ->
  entry (distances self) current_city c = Some (Fin z) -> z == 0 ->
  entry (pheromones self) current_city c = Some ph ->
  positive (np_power ph (alpha self)) -> np_power PInf (beta self) = PInf ->
  exists l,
    scores np_power self current_city path k = Ok (l, k) /\
    l !! c = Some PInf /\
    NaN ∈ map (fun x => fdiv x (py_sum l)) l /\
    choose_next_city unit_tape np_power self current_city path k
      = Raise (ValueError ProbabilitiesContainNaN).
Proof.
  intros Hwf Hcur Hc Hn Hd Hz Hph Hpos Hinf.
  destruct (zero_distance_score np_power self current_city path k c z ph
              Hwf Hcur Hc Hn Hd Hz Hph Hpos Hinf) as (l & El & Hl).
  assert (Hex : Exists (fun x => is_finite x = false) l).
  { apply Exists_exists. exists PInf. split; [|reflexivity].
    eapply list_elem_of_lookup_2; eauto. }
  exists l. split; [exact El|]. split; [exact Hl|].
  split; [now apply normalised_nan|]. now apply (non_finite_score_Raise _ _ _ _ _ _ l).
Qed.

Lemma zero_distance_aborts_the_choice_witness :
  wf_colony twin_colony /\ (0 < n_cities twin_colony)%nat /\
  (1 < n_cities twin_colony)%nat /\ (1%nat ∉ [0%nat]) /\
  entry (distances twin_colony) 0 1 = Some (Fin 0) /\ 0 == 0 /\
  entry (pheromones twin_colony) 0 1 = Some (Fin 1) /\
  positive (power_nat (Fin 1) (alpha twin_colony)) /\
  power_nat PInf (beta twin_colony) = PInf /\
  exists l,
    scores power_nat twin_colony 0%nat [0%nat] 1%nat = Ok (l, 1%nat) /\
    l !! 1%nat = Some PInf /\
    NaN ∈ map (fun x => fdiv x (py_sum l)) l /\
    choose_next_city cycle_tape power_nat twin_colony 0%nat [0%nat] 1%nat
      = Raise (ValueError ProbabilitiesContainNaN).
Proof.
  assert (Hwf : wf_colony twin_colony).
  { split; split; [reflexivity|repeat constructor|reflexivity|repeat constructor]. }
  assert (Hcur : (0 < n_cities twin_colony)%nat) by (cbn; lia).
  assert (Hc : (1 < n_cities twin_colony)%nat) by (cbn; lia).
  assert (Hn : 1%nat ∉ [0%nat]) by (rewrite list_elem_of_singleton; discriminate).
  assert (Hd : entry (distances twin_colony) 0 1 = Some (Fin 0)) by reflexivity.
  assert (Hz : 0 == 0) by reflexivity.
  assert (Hph : entry (pheromones twin_colony) 0 1 = Some (Fin 1)) by reflexivity.
  assert (Hpos : positive (power_nat (Fin 1) (alpha twin_colony))).
  { apply power_nat_positive. reflexivity. }
  assert (Hinf : power_nat PInf (beta twin_colony) = PInf) by reflexivity.
  repeat (split; [assumption|]).
  exact (zero_distance_aborts_the_choice cycle_tape power_nat twin_colony 0%nat [0%nat]
           1%nat 1%nat 0 (Fin 1) Hwf Hcur Hc Hn Hd Hz Hph Hpos Hinf).
Defined.

(** X13.  Two cities at the same place abort every run. In a well-formed
    colony in which two different cities are at distance zero from each
    other, an ant fails as soon as it stands on one of them without
    having visited the other, which every tour would have to pass
    through: with at least one ant and one round, draws in [0, 1) and
    fuel for a whole tour, [run] fails with an exception of the sampler,
    in the first tour of the first round. *)
Theorem coincident_cities_abort_the_run unit_tape raw_tape np_power fuel self a b k :
  unit_draws unit_tape -> wf_colony self -> (n_cities self <= S fuel)%nat ->
  a <> b -> zero_edge np_power self a b -> zero_edge np_power self b a ->
  np_power PInf (beta self) = PInf ->
  (1 <= n_ants self)%nat -> (1 <= n_iterations self)%nat ->
  exists e,
    construct_solution unit_tape raw_tape np_power fuel self k = Raise e /\
    run unit_tape raw_tape np_power fuel self k = Raise e /\
    sampling_error e.
Proof.
  intros Hu Hwf Hf Hab Zab Zba Hinf Ha Hi.
  destruct (construct_solution_twins unit_tape raw_tape np_power Hu self a b
              Hwf Hab Zab Zba Hinf fuel k Hf) as (e & E & He).
  exists e. split; [exact E|]. split; [|exact He]. now apply first_ant_Raise.
Qed.

Lemma coincident_cities_abort_the_run_witness :
  unit_draws cycle_tape /\ wf_colony twin_colony /\ (n_cities twin_colony <= 3)%nat /\
  0%nat <> 1%nat /\ zero_edge power_nat twin_colony 0 1 /\
  zero_edge power_nat twin_colony 1 0 /\
  power_nat PInf (beta twin_colony) = PInf /\
  (1 <= n_ants twin_colony)%nat /\ (1 <= n_iterations twin_colony)%nat /\
  exists e,
    construct_solution cycle_tape count_tape power_nat 2 twin_colony 0%nat = Raise e /\
    run cycle_tape count_tape power_nat 2 twin_colony 0%nat = Raise e /\
    sampling_error e.
Proof.
  pose proof ExampleFacts.cycle_tape_unit_draws as Hu.
  assert (Hwf : wf_colony twin_colony).
  { split; split; [reflexivity|repeat constructor|reflexivity|repeat constructor]. }
  assert (Hf : (n_cities twin_colony <= 3)%nat) by (cbn; lia).
  assert (Hab : 0%nat <> 1%nat) by discriminate.
  assert (Hpos : positive (power_nat (Fin 1) (alpha twin_colony))).
  { apply power_nat_positive. reflexivity. }
  assert (Zab : zero_edge power_nat twin_colony 0 1).
  { split; [cbn; lia|]. split; [cbn; lia|]. exists 0, (Fin 1).
    split; [reflexivity|]. split; [reflexivity|]. split; [reflexivity|exact Hpos]. }
  assert (Zba : zero_edge power_nat twin_colony 1 0).
  { split; [cbn; lia|]. split; [cbn; lia|]. exists 0, (Fin 1).
    split; [reflexivity|]. split; [reflexivity|]. split; [reflexivity|exact Hpos]. }
  assert (Hinf : power_nat PInf (beta twin_colony) = PInf) by reflexivity.
  assert (Ha : (1 <= n_ants twin_colony)%nat) by (cbn; lia).
  assert (Hi : (1 <= n_iterations twin_colony)%nat) by (cbn; lia).
  repeat (split; [assumption|]).
  exact (coincident_cities_abort_the_run cycle_tape count_tape power_nat 2 twin_colony
           0%nat 1%nat 0%nat Hu Hwf Hf Hab Zab Zba Hinf Ha Hi).
Defined.

(** X14.  Without ants a run constructs no tour and reads no draw: it
    returns no path and the distance +infinity with which it started,
    whatever the cities, and leaves the pheromone evaporated once per
    round. *)
Theorem run_without_ants unit_tape raw_tape np_power fuel self k :
  n_ants self = 0%nat ->
  run unit_tape raw_tape np_power fuel self k
    = Ok ((None, PInf),
          set_pheromones self
            (Nat.iter (n_iterations self) (evaporate (rho self)) (pheromones self)),
          k).
Proof.
  intros Ha. unfold run, run_rounds.
  rewrite (bind_step _ _ _ _ _
             (run_rounds_without_ants unit_tape raw_tape np_power fuel
                (n_iterations self) self (None, PInf) k Ha)).
  reflexivity.
Qed.

Lemma run_without_ants_witness :
  n_ants (mkACO 0 3 1 2 (1 # 10) 100 triangle 3 (distances triangle_colony)
                (pheromones triangle_colony)) = 0%nat /\
  run cycle_tape count_tape power_nat 2
      (mkACO 0 3 1 2 (1 # 10) 100 triangle 3 (distances triangle_colony)
             (pheromones triangle_colony)) 0%nat
    = Ok ((None, PInf),
          mkACO 0 3 1 2 (1 # 10) 100 triangle 3 (distances triangle_colony)
                (Nat.iter 3 (evaporate (1 # 10)) (pheromones triangle_colony)),
          0%nat).
Proof.
  split; [reflexivity|].
  exact (run_without_ants cycle_tape count_tape power_nat 2
           (mkACO 0 3 1 2 (1 # 10) 100 triangle 3 (distances triangle_colony)
                  (pheromones triangle_colony)) 0%nat eq_refl).
Defined.

(** X15.  A colony of no city cannot start a tour: with at least one ant
    and one round the run fails in [random.randint(0, -1)], with the
    ValueError for an empty range. *)
Theorem run_without_cities unit_tape raw_tape np_power fuel self k :
  n_cities self = 0%nat -> (1 <= n_ants self)%nat -> (1 <= n_iterations self)%nat ->
  run unit_tape raw_tape np_power fuel self k = Raise (ValueError EmptyRange).
Proof.
  intros Hn Ha Hi. apply first_ant_Raise; [exact Ha|exact Hi|].
  unfold construct_solution, bind, random_randint. rewrite Hn. reflexivity.
Qed.

Lemma run_without_cities_witness :
  n_cities empty_colony = 0%nat /\ (1 <= n_ants empty_colony)%nat /\
  (1 <= n_iterations empty_colony)%nat /\
  run cycle_tape count_tape power_nat 2 empty_colony 0%nat = Raise (ValueError EmptyRange).
Proof.
  assert (Ha : (1 <= n_ants empty_colony)%nat) by (cbn; lia).
  assert (Hi : (1 <= n_iterations empty_colony)%nat) by (cbn; lia).
  split; [reflexivity|]. split; [exact Ha|]. split; [exact Hi|].
  exact (run_without_cities cycle_tape count_tape power_nat 2 empty_colony 0%nat
           eq_refl Ha Hi).
Defined.

(** X16.  What [run] returns is a shortest tour of the run: in a run
    that completes, every round before the last has completed, and no
    tour an ant constructed in any round has a length below the distance
    returned. *)
Theorem run_returns_a_shortest_tour
        unit_tape raw_tape np_power fuel self k best_path best_distance self' k' :
  run unit_tape raw_tape np_power fuel self k
    = Ok ((best_path, best_distance), self', k') ->
  forall j, (j < n_iterations self)%nat ->
    exists s b k1 paths k2 dists,
      run_rounds unit_tape raw_tape np_power fuel j self k = Ok ((s, b), k1) /\
      comprehension (n_ants s) (construct_solution unit_tape raw_tape np_power fuel s) k1
        = Ok (paths, k2) /\
      Forall2 (tour_length self) paths dists /\
      Forall (fun d => fltb d best_distance = false) dists.
Proof.
  unfold run. intros H j Hj.
  apply bind_Ok in H as ([sn bn] & kn & Hn & H).
  unfold ret in H. cbn [fst snd] in H. inversion H; subst; clear H.
  exact (run_rounds_least unit_tape raw_tape np_power fuel (n_iterations self) self k
           self' (best_path, best_distance) k' j Hn Hj).
Qed.

Lemma run_returns_a_shortest_tour_witness :
  exists best_path best_distance self' k',
    run cycle_tape count_tape power_nat 2 triangle_colony 0%nat
      = Ok ((best_path, best_distance), self', k') /\
    forall j, (j < n_iterations triangle_colony)%nat ->
      exists s b k1 paths k2 dists,
        run_rounds cycle_tape count_tape power_nat 2 j triangle_colony 0%nat
          = Ok ((s, b), k1) /\
        comprehension (n_ants s) (construct_solution cycle_tape count_tape power_nat 2 s) k1
          = Ok (paths, k2) /\
        Forall2 (tour_length triangle_colony) paths dists /\
        Forall (fun d => fltb d best_distance = false) dists.
Proof.
  destruct (run cycle_tape count_tape power_nat 2 triangle_colony 0%nat)
    as [[[[bp bd] self'] k']| |] eqn:E.
  - exists bp, bd, self', k'. split; [reflexivity|].
    exact (run_returns_a_shortest_tour cycle_tape count_tape power_nat 2 triangle_colony
             0%nat bp bd self' k' E).
  - vm_compute in E. discriminate.
  - vm_compute in E. discriminate.
Defined.

(** X17.  The colony a constructor call returns.  The call has drawn
    nothing; both matrices have one row and one column per city, every
    pheromone is 1, and any two of the cities are tuples numpy can
    subtract from each other (of one length, or one of them of a single
    coordinate): on any other pair the subtraction raises, and the call
    does not return. *)
Theorem ACO_init_returns_only_on_compatible_shapes
        np_sqrt n_ants n_iterations alpha beta rho deposit cities k self k' :
  ACO_init np_sqrt n_ants n_iterations alpha beta rho deposit cities k = Ok (self, k') ->
  k' = k /\ wf_colony self /\ n_cities self = length cities /\
  Aco.cities self = cities /\
  pheromones self = np_full (length cities) (Fin 1) /\
  forall i j a b, cities !! i = Some a -> cities !! j = Some b -> broadcastable a b.
Proof.
  unfold ACO_init, bind.
  pose proof (calculate_distances_outcome np_sqrt cities k) as H.
  destruct (calculate_distances np_sqrt cities (length cities) k) as [[D k1]|e|];
    [|discriminate..].
  destruct H as (-> & Hsq & Hall). unfold ret. intros E. inversion E; subst; clear E.
  split; [reflexivity|]. split; [split; [exact Hsq|apply square_np_full]|].
  split; [reflexivity|]. split; [reflexivity|]. split; [reflexivity|exact Hall].
Qed.

Lemma ACO_init_returns_only_on_compatible_shapes_witness :
  exists self k',
    ACO_init sqrt_floor 2 3 1 2 (1 # 10) 100 triangle 0%nat = Ok (self, k') /\
    k' = 0%nat /\ wf_colony self /\ n_cities self = length triangle /\
    Aco.cities self = triangle /\
    pheromones self = np_full (length triangle) (Fin 1) /\
    forall i j a b, triangle !! i = Some a -> triangle !! j = Some b -> broadcastable a b.
Proof.
  destruct (ACO_init sqrt_floor 2 3 1 2 (1 # 10) 100 triangle 0%nat)
    as [[self k']| |] eqn:E.
  - exists self, k'. split; [reflexivity|].
    exact (ACO_init_returns_only_on_compatible_shapes sqrt_floor 2 3 1 2 (1 # 10) 100
             triangle 0%nat self k' E).
  - vm_compute in E. discriminate.
  - vm_compute in E. discriminate.
Defined.

(** X18.  The length of a closed tour is the sum of the recorded
    lengths of its edges, added from left to right starting at 0 in
    the order of the tour, the closing edge first.  The same tour
    started at another of its cities has the same edges in another
    order, so the two lengths are sums of the same numbers, added in
    different orders. *)
Theorem tour_length_sums_the_edges_in_tour_order self (front back : tour) k :
  square (n_cities self) (distances self) ->
  Forall (fun c => (c < n_cities self)%nat) (front ++ back) ->
  calculate_distance self (front ++ back) k
    = Ok (fold_left fadd (map (edge_length self) (tour_edges (front ++ back))) (Fin 0), k) /\
  calculate_distance self (back ++ front) k
    = Ok (fold_left fadd (map (edge_length self) (tour_edges (back ++ front))) (Fin 0), k) /\
  tour_edges (back ++ front) ≡ₚ tour_edges (front ++ back).
Proof.
  intros Hsq Hall.
  assert (Hall' : Forall (fun c => (c < n_cities self)%nat) (back ++ front)).
  { apply Forall_app in Hall as [H1 H2]. apply Forall_app. auto. }
  split; [now apply calculate_distance_sum|].
  split; [now apply calculate_distance_sum|].
  apply tour_edges_rotation.
Qed.

Lemma tour_length_sums_the_edges_in_tour_order_witness :
  square (n_cities triangle_colony) (distances triangle_colony) /\
  Forall (fun c => (c < n_cities triangle_colony)%nat) ([0; 1] ++ [2])%nat /\
  calculate_distance triangle_colony ([0; 1] ++ [2])%nat 0%nat = Ok (Fin 12, 0%nat) /\
  calculate_distance triangle_colony ([2] ++ [0; 1])%nat 0%nat = Ok (Fin 12, 0%nat) /\
  tour_edges ([2] ++ [0; 1])%nat ≡ₚ tour_edges ([0; 1] ++ [2])%nat.
Proof.
  assert (Hsq : square (n_cities triangle_colony) (distances triangle_colony)).
  { split; [reflexivity|repeat constructor]. }
  assert (Hall : Forall (fun c => (c < n_cities triangle_colony)%nat) ([0; 1] ++ [2])%nat).
  { repeat constructor. }
  split; [exact Hsq|]. split; [exact Hall|].
  destruct (tour_length_sums_the_edges_in_tour_order triangle_colony [0; 1]%nat [2]%nat
              0%nat Hsq Hall) as (E1 & E2 & Hp).
  split; [rewrite E1; reflexivity|]. split; [rewrite E2; reflexivity|exact Hp].
Defined.

End AcoProperties.
